(** * The Incredible Machine: object lifecycle and physics-world synchronisation

  A shallow embedding of the engine core of the game:

  - [JS]              the JavaScript values that cross the modelled interfaces
  - [Objects]         [BaseObject] and the fifteen object kinds (serialisation)
  - [ObjectRegistry]  the catalog of object kinds
  - [EventBus]        the publish/subscribe channel
  - [PhysicsEngine]   the Matter.js wrapper (tracked objects, snapshot, step)
  - [GameLoop]        the play/pause/reset state machine
  - [Catalog]         the catalog again, in registration order (listing)
  - [LevelManager]    the progression through the levels
  - [Hooks]           the collision and update hooks of the object classes

  Numbers are modelled as rationals ([Q]); JavaScript objects that are shared
  and mutated (bodies, game objects, listener sets) live in explicit stores.
  Matter.js is outside the sources: what its setters compute is a parameter
  ([PhysicsEngine.Matter]) of the properties that depend on it. *)

From Stdlib Require Import QArith Qabs Lqa.
From stdpp Require Import gmap strings list fin_maps.

(* ===================================================================== *)
(** ** JavaScript values *)
(* ===================================================================== *)

Module JS.

(** The values that reach the modelled code as coordinates and options.
    [JPoint] is the plain object [{x, y}] used for a rope's end point. *)
Inductive jsval : Type :=
| JUndefined
| JNull
| JNaN
| JBool (b : bool)
| JNumber (q : Q)
| JString (s : string)
| JPoint (x y : jsval).

(** [ToBoolean]: [undefined], [null], [NaN], [false], [0] and the empty
    string are falsy, everything else (objects included) is truthy. *)
Definition truthy (v : jsval) : bool :=
  match v with
  | JUndefined | JNull | JNaN => false
  | JBool b => b
  | JNumber q => negb (Qeq_bool q 0)
  | JString s => negb (String.eqb s EmptyString)
  | JPoint _ _ => true
  end.

(** [a || b] *)
Definition js_or (a b : jsval) : jsval := if truthy a then a else b.

(** [a ?? b] *)
Definition js_nullish (a b : jsval) : jsval :=
  match a with
  | JUndefined | JNull => b
  | _ => a
  end.

(** [a + b] on numbers; operands of another type are outside the documented
    option types ([@param {number}]) and are mapped to [NaN]. *)
Definition js_add (a b : jsval) : jsval :=
  match a, b with
  | JNumber p, JNumber q => JNumber (p + q)
  | _, _ => JNaN
  end.

(** The double-quote character of the template strings. *)
Definition dquote : string := String (Ascii.ascii_of_nat 34) EmptyString.

(** A plain object used as a string-keyed record. *)
Abbreviation jsobject := (gmap string jsval).

(** Property read [o.k]: a missing property reads as [undefined]. *)
Definition get (o : jsobject) (k : string) : jsval := default JUndefined (o !! k).

End JS.

(* ===================================================================== *)
(** ** Game objects: construction and serialisation *)
(* ===================================================================== *)

Module Objects.
Import JS.

(** The classes of [js/objects]. Method dispatch ([serialize], the static
    [deserialize]) goes through the class of the instance. *)
Inductive Kind : Type :=
| Ball | Ramp | Conveyor | Fan | Spring | Gear | Pulley | Trampoline
| Domino | Balloon | Bucket | Candle | Rope | Scissors | Mouse.

#[export] Instance Kind_eq_dec : EqDecision Kind.
Proof. solve_decision. Defined.

(** [get type()] of each class. *)
Definition type_of (k : Kind) : string :=
  match k with
  | Ball => "ball" | Ramp => "ramp" | Conveyor => "conveyor" | Fan => "fan"
  | Spring => "spring" | Gear => "gear" | Pulley => "pulley"
  | Trampoline => "trampoline" | Domino => "domino" | Balloon => "balloon"
  | Bucket => "bucket" | Candle => "candle" | Rope => "rope"
  | Scissors => "scissors" | Mouse => "mouse"
  end.

(** An instance: the fields set by [BaseObject]'s constructor and, in
    [fields], the instance fields a subclass constructor derives from its
    options ([_variant], [_radius], ...). Matter bodies and animation state
    are not read by [serialize] and are left out. *)
Record BaseObject : Type := mkObject {
  kind : Kind;
  _x : jsval;
  _y : jsval;
  _angle : jsval;
  _isFixed : jsval;
  _options : jsobject;
  fields : jsobject;
}.

Definition type (o : BaseObject) : string := type_of (kind o).

(** The record produced by [serialize()]. [options] is optional in a record
    read from a file, hence the [?.] in every [deserialize]. *)
Record Data : Type := mkData {
  d_type : string;
  d_x : jsval;
  d_y : jsval;
  d_angle : jsval;
  d_isFixed : jsval;
  d_options : option jsobject;
}.

(** [data.options?.k] *)
Definition dget (data : Data) (k : string) : jsval :=
  match d_options data with
  | Some o => get o k
  | None => JUndefined
  end.

(** [BaseObject.constructor(x, y, options)] run for class [k]. *)
Definition BaseObject_new (k : Kind) (x y : jsval) (options : jsobject) : BaseObject :=
  {| kind := k;
     _x := x;
     _y := y;
     _angle := js_or (get options "angle") (JNumber 0);
     _isFixed := js_or (get options "isFixed") (JBool false);
     _options := options;
     fields := ∅ |}.

(** [this.f = v] *)
Definition set_field (f : string) (v : jsval) (o : BaseObject) : BaseObject :=
  {| kind := kind o; _x := _x o; _y := _y o; _angle := _angle o;
     _isFixed := _isFixed o; _options := _options o;
     fields := <[f := v]> (fields o) |}.

(** [this.f] *)
Definition field (o : BaseObject) (f : string) : jsval := get (fields o) f.

(** [BaseObject.serialize()] *)
Definition BaseObject_serialize (o : BaseObject) : Data :=
  {| d_type := type o;
     d_x := _x o;
     d_y := _y o;
     d_angle := _angle o;
     d_isFixed := _isFixed o;
     d_options := Some (_options o) |}.

(** [{ ...super.serialize(), options: opts }] *)
Definition with_options (opts : jsobject) (d : Data) : Data :=
  {| d_type := d_type d; d_x := d_x d; d_y := d_y d; d_angle := d_angle d;
     d_isFixed := d_isFixed d; d_options := Some opts |}.

(** [setPosition(x, y)] and [setAngle(angle)] of [BaseObject]. *)
Definition setPosition (x y : jsval) (o : BaseObject) : BaseObject :=
  {| kind := kind o; _x := x; _y := y; _angle := _angle o;
     _isFixed := _isFixed o; _options := _options o; fields := fields o |}.

Definition setAngle (a : jsval) (o : BaseObject) : BaseObject :=
  {| kind := kind o; _x := _x o; _y := _y o; _angle := a;
     _isFixed := _isFixed o; _options := _options o; fields := fields o |}.

(** The options object [{ angle: data.angle, isFixed: data.isFixed }] every
    [deserialize] starts from. *)
Definition pose_options (data : Data) : jsobject :=
  <["isFixed" := d_isFixed data]> (<["angle" := d_angle data]> ∅).

(** Module constants. *)
Definition RAMP_WIDTH : jsval := JNumber 120.
Definition CONVEYOR_WIDTH : jsval := JNumber 140.
Definition WIND_RANGE : jsval := JNumber 200.
Definition WIND_FORCE : jsval := JNumber 0.0008.
Definition LAUNCH_FORCE : jsval := JNumber 0.08.
Definition GEAR_RADIUS : jsval := JNumber 28.
Definition GEAR_TEETH : jsval := JNumber 10.
Definition TRAMP_WIDTH : jsval := JNumber 80.
Definition BALLOON_RADIUS : jsval := JNumber 18.
Definition BUCKET_WIDTH : jsval := JNumber 50.
Definition BUCKET_HEIGHT : jsval := JNumber 40.
Definition MOUSE_SPEED : jsval := JNumber 1.2.

(** *** The fifteen classes

    Each constructor calls [super(x, y, options)] and then reads its own
    options. [rnd] stands for the value of
    [Math.floor(Math.random() * COLORS.length)] drawn by that constructor call
    (only [Balloon] draws one for a field kept here). *)

Definition Ball_new (x y : jsval) (options : jsobject) : BaseObject :=
  set_field "_variant" (js_or (get options "variant") (JString "bowling"))
    (BaseObject_new Ball x y options).

Definition Ramp_new (x y : jsval) (options : jsobject) : BaseObject :=
  set_field "_width" (js_or (get options "width") RAMP_WIDTH)
    (BaseObject_new Ramp x y options).

Definition Conveyor_new (x y : jsval) (options : jsobject) : BaseObject :=
  set_field "_width" (js_or (get options "width") CONVEYOR_WIDTH)
    (set_field "_beltSpeed" (js_nullish (get options "speed") (JNumber 2))
       (BaseObject_new Conveyor x y options)).

Definition Fan_new (x y : jsval) (options : jsobject) : BaseObject :=
  set_field "_windForce" (js_or (get options "windForce") WIND_FORCE)
    (set_field "_windRange" (js_or (get options "windRange") WIND_RANGE)
       (BaseObject_new Fan x y options)).

Definition Spring_new (x y : jsval) (options : jsobject) : BaseObject :=
  set_field "_launchForce" (js_or (get options "launchForce") LAUNCH_FORCE)
    (BaseObject_new Spring x y options).

Definition Gear_new (x y : jsval) (options : jsobject) : BaseObject :=
  set_field "_teethCount" (js_or (get options "teeth") GEAR_TEETH)
    (set_field "_angularSpeed" (js_nullish (get options "angularSpeed") (JNumber 0.03))
       (set_field "_radius" (js_or (get options "radius") GEAR_RADIUS)
          (BaseObject_new Gear x y options))).

Definition Pulley_new (x y : jsval) (options : jsobject) : BaseObject :=
  set_field "_ropeLength" (js_or (get options "ropeLength") (JNumber 150))
    (BaseObject_new Pulley x y options).

Definition Trampoline_new (x y : jsval) (options : jsobject) : BaseObject :=
  set_field "_width" (js_or (get options "width") TRAMP_WIDTH)
    (BaseObject_new Trampoline x y options).

Definition Domino_new (x y : jsval) (options : jsobject) : BaseObject :=
  BaseObject_new Domino x y options.

Definition Balloon_new (x y : jsval) (options : jsobject) (rnd : Q) : BaseObject :=
  set_field "_colorIndex" (js_nullish (get options "colorIndex") (JNumber rnd))
    (set_field "_radius" (js_or (get options "radius") BALLOON_RADIUS)
       (BaseObject_new Balloon x y options)).

Definition Bucket_new (x y : jsval) (options : jsobject) : BaseObject :=
  set_field "_catchType" (js_or (get options "catchType") JNull)
    (set_field "_height" (js_or (get options "height") BUCKET_HEIGHT)
       (set_field "_width" (js_or (get options "width") BUCKET_WIDTH)
          (BaseObject_new Bucket x y options))).

Definition Candle_new (x y : jsval) (options : jsobject) : BaseObject :=
  BaseObject_new Candle x y options.

Definition Rope_new (x y : jsval) (options : jsobject) : BaseObject :=
  let o := set_field "_length" (js_or (get options "length") (JNumber 100))
             (BaseObject_new Rope x y options) in
  set_field "_endPoint"
    (js_or (get options "endPoint") (JPoint x (js_add y (field o "_length")))) o.

Definition Scissors_new (x y : jsval) (options : jsobject) : BaseObject :=
  BaseObject_new Scissors x y options.

Definition Mouse_new (x y : jsval) (options : jsobject) : BaseObject :=
  set_field "_direction" (js_or (get options "direction") (JNumber 1))
    (set_field "_speed" (js_or (get options "speed") MOUSE_SPEED)
       (BaseObject_new Mouse x y options)).

(** [new C(x, y, options)] for the class [C] named by [k]. *)
Definition new (k : Kind) (x y : jsval) (options : jsobject) (rnd : Q) : BaseObject :=
  match k with
  | Ball => Ball_new x y options
  | Ramp => Ramp_new x y options
  | Conveyor => Conveyor_new x y options
  | Fan => Fan_new x y options
  | Spring => Spring_new x y options
  | Gear => Gear_new x y options
  | Pulley => Pulley_new x y options
  | Trampoline => Trampoline_new x y options
  | Domino => Domino_new x y options
  | Balloon => Balloon_new x y options rnd
  | Bucket => Bucket_new x y options
  | Candle => Candle_new x y options
  | Rope => Rope_new x y options
  | Scissors => Scissors_new x y options
  | Mouse => Mouse_new x y options
  end.

(** [serialize()]: the override of each class, [{ ...super.serialize(),
    options: { ...this._options, k: this._f, ... } }]; [Domino], [Candle] and
    [Scissors] return [super.serialize()]. *)
Definition serialize (o : BaseObject) : Data :=
  let base := BaseObject_serialize o in
  let opts := _options o in
  match kind o with
  | Ball => with_options (<["variant" := field o "_variant"]> opts) base
  | Ramp => with_options (<["width" := field o "_width"]> opts) base
  | Conveyor =>
      with_options
        (<["width" := field o "_width"]> (<["speed" := field o "_beltSpeed"]> opts)) base
  | Fan =>
      with_options
        (<["windForce" := field o "_windForce"]>
           (<["windRange" := field o "_windRange"]> opts)) base
  | Spring => with_options (<["launchForce" := field o "_launchForce"]> opts) base
  | Gear =>
      with_options
        (<["teeth" := field o "_teethCount"]>
           (<["angularSpeed" := field o "_angularSpeed"]>
              (<["radius" := field o "_radius"]> opts))) base
  | Pulley => with_options (<["ropeLength" := field o "_ropeLength"]> opts) base
  | Trampoline => with_options (<["width" := field o "_width"]> opts) base
  | Domino => base
  | Balloon => with_options (<["colorIndex" := field o "_colorIndex"]> opts) base
  | Bucket =>
      with_options
        (<["catchType" := field o "_catchType"]>
           (<["height" := field o "_height"]>
              (<["width" := field o "_width"]> opts))) base
  | Candle => base
  | Rope =>
      with_options
        (<["endPoint" := field o "_endPoint"]> (<["length" := field o "_length"]> opts)) base
  | Scissors => base
  | Mouse =>
      with_options
        (<["direction" := field o "_direction"]> (<["speed" := field o "_speed"]> opts)) base
  end.

(** The static [deserialize(data)] of each class: a fresh instance built from
    [data.x], [data.y] and an options object holding [angle], [isFixed] and the
    options that class passes on. *)
Definition deserialize (k : Kind) (data : Data) (rnd : Q) : BaseObject :=
  let x := d_x data in
  let y := d_y data in
  let pose := pose_options data in
  match k with
  | Ball =>
      Ball_new x y (<["variant" := js_or (dget data "variant") (JString "bowling")]> pose)
  | Ramp => Ramp_new x y (<["width" := js_or (dget data "width") RAMP_WIDTH]> pose)
  | Conveyor =>
      Conveyor_new x y
        (<["width" := js_or (dget data "width") CONVEYOR_WIDTH]>
           (<["speed" := js_nullish (dget data "speed") (JNumber 2)]> pose))
  | Fan =>
      Fan_new x y
        (<["windForce" := js_or (dget data "windForce") WIND_FORCE]>
           (<["windRange" := js_or (dget data "windRange") WIND_RANGE]> pose))
  | Spring =>
      Spring_new x y (<["launchForce" := js_or (dget data "launchForce") LAUNCH_FORCE]> pose)
  | Gear =>
      Gear_new x y
        (<["teeth" := js_or (dget data "teeth") GEAR_TEETH]>
           (<["angularSpeed" := js_nullish (dget data "angularSpeed") (JNumber 0.03)]>
              (<["radius" := js_or (dget data "radius") GEAR_RADIUS]> pose)))
  | Pulley =>
      Pulley_new x y (<["ropeLength" := js_or (dget data "ropeLength") (JNumber 150)]> pose)
  | Trampoline =>
      Trampoline_new x y (<["width" := js_or (dget data "width") TRAMP_WIDTH]> pose)
  | Domino => Domino_new x y pose
  | Balloon => Balloon_new x y (<["colorIndex" := dget data "colorIndex"]> pose) rnd
  | Bucket =>
      Bucket_new x y
        (<["catchType" := js_or (dget data "catchType") JNull]>
           (<["height" := js_or (dget data "height") BUCKET_HEIGHT]>
              (<["width" := js_or (dget data "width") BUCKET_WIDTH]> pose)))
  | Candle => Candle_new x y pose
  | Rope =>
      Rope_new x y
        (<["endPoint" := dget data "endPoint"]>
           (<["length" := js_or (dget data "length") (JNumber 100)]> pose))
  | Scissors => Scissors_new x y pose
  | Mouse =>
      Mouse_new x y
        (<["direction" := js_or (dget data "direction") (JNumber 1)]>
           (<["speed" := js_or (dget data "speed") MOUSE_SPEED]> pose))
  end.

(** What the round trip is required to preserve: the kind, the pose, the fixed
    flag and the kind-specific option fields. *)
Definition same_entity (a b : BaseObject) : Prop :=
  kind a = kind b ∧ _x a = _x b ∧ _y a = _y b ∧ _angle a = _angle b ∧
  _isFixed a = _isFixed b ∧ fields a = fields b.

(** [deserialize(serialize(e))] through the class of [e]. *)
Definition round_trip (e : BaseObject) (rnd : Q) : BaseObject :=
  deserialize (kind e) (serialize e) rnd.

(** *** Sample objects *)

(** The ball of the specification's example: built at (100, 200) with the
    tennis variant. *)
Definition tennis_ball : BaseObject :=
  Ball_new (JNumber 100) (JNumber 200) {["variant" := JString "tennis"]}.

(** A balloon built with [radius: 30]. *)
Definition big_balloon : BaseObject :=
  Balloon_new (JNumber 200) (JNumber 100)
    (<["colorIndex" := JNumber 2]> {["radius" := JNumber 30]}) 0.

(** An object whose [_angle] and [_isFixed] are values the constructor's
    defaults leave alone: [angle || 0] is [angle] and [isFixed || false] is
    [isFixed]. Every constructor leaves such an object. *)
Definition normal (e : BaseObject) : Prop :=
  js_or (_angle e) (JNumber 0) = _angle e ∧ js_or (_isFixed e) (JBool false) = _isFixed e.

(** [setAngle(angle)] as the class [k] has it: [Bucket] and [Candle] stay
    upright ([super.setAngle(0)]), the other classes pass the angle on to
    [BaseObject] (and to their bodies). *)
Definition Class_setAngle (k : Kind) (a : jsval) (o : BaseObject) : BaseObject :=
  match k with
  | Bucket | Candle => setAngle (JNumber 0) o
  | _ => setAngle a o
  end.

(** An object placed by the editor: [o.setPosition(x, y); o.setAngle(a)]. *)
Definition place (x y a : jsval) (o : BaseObject) : BaseObject :=
  Class_setAngle (kind o) a (setPosition x y o).

End Objects.

(* ===================================================================== *)
(** ** ObjectRegistry: the catalog of object kinds *)
(* ===================================================================== *)

Module ObjectRegistry.
Import JS.

(** The completion of a call: a value, or an [Error] thrown to the caller. *)
Inductive completion (A : Type) : Type :=
| Return (a : A)
| Throw (message : string).
Arguments Return {A} a.
Arguments Throw {A} message.

(** A registered class: [new ObjectClass(x, y, options)] and the static
    [ObjectClass.deserialize(data)]. Either may throw. *)
Record ObjectClass : Type := {
  construct : jsval → jsval → jsobject → completion Objects.BaseObject;
  static_deserialize : Objects.Data → completion Objects.BaseObject;
}.

Record Metadata : Type := {
  displayName : string;
  category : string;
  description : option string;
}.

(** An entry [{ ObjectClass, metadata }] of the [_registry] map. *)
Record Entry : Type := {
  entry_class : ObjectClass;
  entry_metadata : Metadata;
}.

(** The registry: its [_registry] map and the warnings it wrote to the
    console. *)
Record ObjectRegistry : Type := {
  _registry : gmap string Entry;
  console : list string;
}.

(** [new ObjectRegistry()] *)
Definition empty : ObjectRegistry := {| _registry := ∅; console := [] |}.

(** [register(type, ObjectClass, metadata)] *)
Definition register (type : string) (cls : ObjectClass) (metadata : Metadata)
    (r : ObjectRegistry) : ObjectRegistry :=
  let console' :=
    if decide (is_Some (_registry r !! type))
    then console r ++ ["[ObjectRegistry] Overwriting existing type: " +:+ type]
    else console r in
  {| _registry := <[type := {| entry_class := cls; entry_metadata := metadata |}]> (_registry r);
     console := console' |}.

(** The messages of the two errors thrown for an unregistered type; the
    specification calls either one UnknownKindError. *)
Definition unknown_type_message (type : string) : string :=
  "[ObjectRegistry] Unknown object type: " +:+ dquote +:+ type +:+ dquote.

Definition unknown_deserialize_message (type : string) : string :=
  "[ObjectRegistry] Cannot deserialize unknown type: " +:+ dquote +:+ type +:+ dquote.

Definition UnknownKindError {A} (c : completion A) (type : string) : Prop :=
  c = Throw (unknown_type_message type) ∨ c = Throw (unknown_deserialize_message type).

(** [create(type, x, y, options = {})]: [options] is [None] when the caller
    leaves the argument out. *)
Definition create (r : ObjectRegistry) (type : string) (x y : jsval)
    (options : option jsobject) : completion Objects.BaseObject :=
  match _registry r !! type with
  | None => Throw (unknown_type_message type)
  | Some entry => construct (entry_class entry) x y (default ∅ options)
  end.

(** [deserialize(data)] *)
Definition deserialize (r : ObjectRegistry) (data : Objects.Data)
    : completion Objects.BaseObject :=
  match _registry r !! Objects.d_type data with
  | None => Throw (unknown_deserialize_message (Objects.d_type data))
  | Some entry => static_deserialize (entry_class entry) data
  end.

(** [has(type)] *)
Definition has (r : ObjectRegistry) (type : string) : bool :=
  bool_decide (is_Some (_registry r !! type)).

(** A sequence of [register] calls, oldest first, run on a registry. *)
Definition register_all (regs : list (string * ObjectClass * Metadata))
    (r : ObjectRegistry) : ObjectRegistry :=
  foldl (λ acc reg, register reg.1.1 reg.1.2 reg.2 acc) r regs.

(** The types a sequence of [register] calls names. *)
Definition registered_types (regs : list (string * ObjectClass * Metadata)) : list string :=
  (λ reg, reg.1.1) <$> regs.

(** The class [Ball] as the registry sees it, and its registration by
    [registerAllObjects()]. *)
Definition Ball_class : ObjectClass :=
  {| construct := λ x y options, Return (Objects.Ball_new x y options);
     static_deserialize := λ data, Return (Objects.deserialize Objects.Ball data 0) |}.

Definition Ball_registration : string * ObjectClass * Metadata :=
  ("ball", Ball_class,
   {| displayName := "Bowling Ball"; category := "balls";
      description := Some "Heavy ball — rolls, bounces, and smashes." |}).

End ObjectRegistry.

(* ===================================================================== *)
(** ** ObjectRegistry: the catalog in registration order *)
(* ===================================================================== *)

(** [getAll()] and [getCategories()] iterate the [_registry] map, so that their
    results depend on the order of registration, which the finite map of the
    module above forgets. This module keeps the entries in that order. *)
Module Catalog.
Import JS ObjectRegistry.

Section Registry.
Context {Class : Type}.

(** The [_registry] map with its iteration order: a JavaScript [Map] lists its
    entries in the order in which their keys were first set, and setting a key
    again replaces the value where it stands. *)
Definition Registry : Type := list (string * (Class * Metadata)).

Definition Map_has (type : string) (r : Registry) : bool := bool_decide (type ∈ r.*1).

Definition Map_set (type : string) (entry : Class * Metadata) (r : Registry) : Registry :=
  if Map_has type r
  then (λ p : string * (Class * Metadata), if decide (p.1 = type) then (type, entry) else p) <$> r
  else r ++ [(type, entry)].

Definition Map_get (type : string) (r : Registry) : option (Class * Metadata) :=
  ip ← list_find (λ p : string * (Class * Metadata), p.1 = type) r; Some ip.2.2.

(** The registry and the console. *)
Record State : Type := {
  registry : Registry;
  warnings : list string;
}.

Definition new : State := {| registry := []; warnings := [] |}.

(** [register(type, ObjectClass, metadata)] *)
Definition register (type : string) (cls : Class) (metadata : Metadata) (s : State) : State :=
  {| registry := Map_set type (cls, metadata) (registry s);
     warnings :=
       if Map_has type (registry s)
       then warnings s ++ ["[ObjectRegistry] Overwriting existing type: " +:+ type]
       else warnings s |}.

(** An item [{ type, ...metadata }] of [getAll()]. *)
Record Item : Type := {
  item_type : string;
  item_displayName : string;
  item_category : string;
  item_description : option string;
}.

(** [getAll()] *)
Definition getAll (s : State) : list Item :=
  (λ p : string * (Class * Metadata),
     {| item_type := p.1;
        item_displayName := displayName p.2.2;
        item_category := category p.2.2;
        item_description := description p.2.2 |}) <$> registry s.

(** [getByCategory(category)] *)
Definition getByCategory (cat : string) (s : State) : list Item :=
  filter (λ item, item_category item = cat) (getAll s).

(** [getCategories()]: the categories in the order in which a [Set] first
    receives them. *)
Definition getCategories (s : State) : list string :=
  foldl (λ cats (p : string * (Class * Metadata)),
           if decide (category p.2.2 ∈ cats) then cats else cats ++ [category p.2.2])
        [] (registry s).

(** [has(type)] *)
Definition has (s : State) (type : string) : bool := Map_has type (registry s).

(** A run of [register] calls, oldest first. *)
Definition register_all (regs : list (string * Class * Metadata)) (s : State) : State :=
  foldl (λ acc reg, register reg.1.1 reg.1.2 reg.2 acc) s regs.

End Registry.
Arguments Registry : clear implicits.
Arguments State : clear implicits.

(** The classes [registerAllObjects()] registers: the fifteen classes of
    [js/objects] and the two subclasses of [Ball] it declares in place. *)
Inductive ClassName : Type :=
| Std (k : Objects.Kind)
| TennisBall
| Baseball.

(** [get type()] of each of them. *)
Definition type_getter (c : ClassName) : string :=
  match c with
  | Std k => Objects.type_of k
  | TennisBall => "tennis-ball"
  | Baseball => "baseball"
  end.

Definition meta (name cat descr : string) : Metadata :=
  {| displayName := name; category := cat; description := Some descr |}.

(** [registerAllObjects()] *)
Definition registerAllObjects (s : State ClassName) : State ClassName :=
  register_all
    [ ("ball", Std Objects.Ball,
       meta "Bowling Ball" "balls" "Heavy ball — rolls, bounces, and smashes.");
      ("tennis-ball", TennisBall, meta "Tennis Ball" "balls" "Light bouncy ball.");
      ("baseball", Baseball, meta "Baseball" "balls" "Medium-weight ball.");
      ("ramp", Std Objects.Ramp,
       meta "Ramp" "surfaces" "Angled surface — redirect rolling objects.");
      ("conveyor", Std Objects.Conveyor,
       meta "Conveyor Belt" "surfaces" "Moving belt that pushes objects along.");
      ("trampoline", Std Objects.Trampoline,
       meta "Trampoline" "surfaces" "Bouncy surface — launches objects skyward.");
      ("fan", Std Objects.Fan, meta "Fan" "machines" "Blows wind to push objects away.");
      ("spring", Std Objects.Spring,
       meta "Spring" "machines" "Compressed launcher — flings objects upward.");
      ("gear", Std Objects.Gear,
       meta "Gear" "machines" "Rotating wheel — meshes with adjacent gears.");
      ("pulley", Std Objects.Pulley,
       meta "Pulley" "machines"
         "Two platforms linked by ropes — one goes up, the other goes down.");
      ("domino", Std Objects.Domino,
       meta "Domino" "triggers" "Thin tile that topples over — chain reaction!");
      ("balloon", Std Objects.Balloon,
       meta "Balloon" "triggers" "Floats upward — pop with scissors or flame.");
      ("bucket", Std Objects.Bucket,
       meta "Bucket" "triggers" "Goal container — catch objects inside.");
      ("candle", Std Objects.Candle,
       meta "Candle" "triggers" "Flickering flame — burns ropes, pops balloons.");
      ("rope", Std Objects.Rope,
       meta "Rope" "triggers" "Flexible connector — attach objects together.");
      ("scissors", Std Objects.Scissors,
       meta "Scissors" "triggers" "Sharp blades — cut ropes, pop balloons.");
      ("mouse", Std Objects.Mouse,
       meta "Mouse" "triggers" "Walks left and right — adds life to puzzles.") ]
    s.

(** The entry of the [ObjectRegistry] model above that an entry of the
    ordered registry stands for. *)
Definition to_entry (p : string * (ObjectClass * Metadata)) : string * Entry :=
  (p.1, {| entry_class := p.2.1; entry_metadata := p.2.2 |}).

End Catalog.

(* ===================================================================== *)
(** ** EventBus: publish/subscribe *)
(* ===================================================================== *)

Module EventBus.
Import JS.

(** A listener function, by identity: a function of some module ([Fn]), or
    the wrapper closure built by one call of [once] around such a function
    ([OnceWrapper], told apart from other wrappers by the serial number of the
    call; wrappers are not handed out, so none is wrapped again). *)
Inductive callback : Type :=
| Fn (id : nat)
| OnceWrapper (serial : nat) (event : string) (inner : nat).

#[export] Instance callback_eq_dec : EqDecision callback.
Proof. solve_decision. Defined.

(** A JavaScript [Set] of callbacks: its entries in insertion order. [delete]
    empties the slot of an entry and [add] appends one, so that an iterator,
    which walks the slots by index, skips what was deleted ahead of it and
    reaches what was added behind it. *)
Abbreviation JSSet := (list (option callback)).

Definition set_has (s : JSSet) (c : callback) : bool := bool_decide (Some c ∈ s).

Definition set_add (c : callback) (s : JSSet) : JSSet :=
  if set_has s c then s else s ++ [Some c].

Definition set_delete (c : callback) (s : JSSet) : JSSet :=
  (λ slot, if decide (slot = Some c) then None else slot) <$> s.

Definition set_values (s : JSSet) : list callback := omap id s.

Definition set_size (s : JSSet) : nat := length (set_values s).

(** The bus: [_listeners] maps an event to the address of its [Set] object,
    [sets] holds the [Set] objects (one that left the map is still there for an
    [emit] that is iterating it), and [console] the errors logged by [emit]. *)
Record EventBus : Type := mkBus {
  _listeners : gmap string nat;
  sets : gmap nat JSSet;
  next_set : nat;
  next_serial : nat;
  console : list string;
}.

(** [new EventBus()] *)
Definition empty : EventBus :=
  {| _listeners := ∅; sets := ∅; next_set := 0; next_serial := 0; console := [] |}.

Definition with_sets (f : gmap nat JSSet → gmap nat JSSet) (bus : EventBus) : EventBus :=
  {| _listeners := _listeners bus; sets := f (sets bus); next_set := next_set bus;
     next_serial := next_serial bus; console := console bus |}.

(** The [Set] object at an address ([[]] for an address never allocated). *)
Definition set_at (bus : EventBus) (a : nat) : JSSet := default [] (sets bus !! a).

(** [on(event, callback)] *)
Definition on (event : string) (cb : callback) (bus : EventBus) : EventBus :=
  let bus1 :=
    match _listeners bus !! event with
    | Some _ => bus
    | None =>
        {| _listeners := <[event := next_set bus]> (_listeners bus);
           sets := <[next_set bus := []]> (sets bus);
           next_set := S (next_set bus);
           next_serial := next_serial bus;
           console := console bus |}
    end in
  match _listeners bus1 !! event with
  | Some a => with_sets (alter (set_add cb) a) bus1
  | None => bus1
  end.

(** [off(event, callback)] *)
Definition off (event : string) (cb : callback) (bus : EventBus) : EventBus :=
  match _listeners bus !! event with
  | None => bus
  | Some a =>
      let bus1 := with_sets (alter (set_delete cb) a) bus in
      if Nat.eqb (set_size (set_at bus1 a)) 0
      then {| _listeners := delete event (_listeners bus1); sets := sets bus1;
              next_set := next_set bus1; next_serial := next_serial bus1;
              console := console bus1 |}
      else bus1
  end.

(** [once(event, callback)]: subscribes a fresh wrapper. *)
Definition once (event : string) (cb : nat) (bus : EventBus) : EventBus :=
  let wrapper := OnceWrapper (next_serial bus) event cb in
  on event wrapper
    {| _listeners := _listeners bus; sets := sets bus; next_set := next_set bus;
       next_serial := S (next_serial bus); console := console bus |}.

(** [clear(event)]: one event, or every event when [event] is left out or is
    the empty string. *)
Definition clear (event : option string) (bus : EventBus) : EventBus :=
  let listeners' :=
    match event with
    | Some ev => if String.eqb ev EmptyString then ∅ else delete ev (_listeners bus)
    | None => ∅
    end in
  {| _listeners := listeners'; sets := sets bus; next_set := next_set bus;
     next_serial := next_serial bus; console := console bus |}.

(** How a call of a listener ends. *)
Inductive completion : Type :=
| Normal
| Thrown (err : string).

Section Emit.

(** The data passed to listeners, and what the body of each module function
    does when called: it may use the bus (subscribe, unsubscribe) and it
    returns or throws. *)
Context {payload : Type}.
Variable run : nat → payload → EventBus → completion * EventBus.

(** Calling a listener: a [once] wrapper unsubscribes itself, then calls the
    function it wraps. *)
Definition invoke (cb : callback) (data : payload) (bus : EventBus) : completion * EventBus :=
  match cb with
  | Fn id => run id data bus
  | OnceWrapper _ event inner => run inner data (off event cb bus)
  end.

(** [console.error(...)] in the [catch] block. *)
Definition console_error (event err : string) (bus : EventBus) : EventBus :=
  {| _listeners := _listeners bus; sets := sets bus; next_set := next_set bus;
     next_serial := next_serial bus;
     console :=
       console bus
       ++ ["[EventBus] Error in listener for " +:+ dquote +:+ event +:+ dquote +:+ ": " +:+ err] |}.

(** [try { callback(data) } catch (err) { console.error(...) }] *)
Definition try_call (event : string) (cb : callback) (data : payload) (bus : EventBus)
    : EventBus :=
  match invoke cb data bus with
  | (Normal, bus') => bus'
  | (Thrown err, bus') => console_error event err bus'
  end.

(** [for (const callback of listeners) ...] over the [Set] object at address
    [a], from slot [i] on. The result is the completion of the loop, the
    listeners called, in order, and the bus; [None] when [fuel] slots were
    visited and the iterator is not exhausted (listeners keep subscribing). *)
Fixpoint emit_loop (fuel : nat) (event : string) (a i : nat) (data : payload)
    (bus : EventBus) (called : list callback)
    : option (completion * list callback * EventBus) :=
  match set_at bus a !! i with
  | None => Some (Normal, called, bus)
  | Some slot =>
      match fuel with
      | O => None
      | S fuel' =>
          match slot with
          | None => emit_loop fuel' event a (S i) data bus called
          | Some cb =>
              emit_loop fuel' event a (S i) data (try_call event cb data bus) (called ++ [cb])
          end
      end
  end.

(** [emit(event, data)] *)
Definition emit (fuel : nat) (event : string) (data : payload) (bus : EventBus)
    : option (completion * list callback * EventBus) :=
  match _listeners bus !! event with
  | None => Some (Normal, [], bus)
  | Some a => emit_loop fuel event a 0 data bus []
  end.

(** The proviso under which [emit] calls every listener. Along the loop over
    the [Set] object at [a], from slot [i] on, as [emit_loop] runs it: no
    call empties a slot ahead of it that holds a listener. A call may
    unsubscribe the listener it is made for and the listeners called before
    it, and it may subscribe listeners; what it does not do is unsubscribe a
    listener of the event that is still to be called. ([fuel] bounds the
    slots looked at, as in [emit_loop].) *)
Fixpoint spares_later (fuel : nat) (event : string) (a i : nat) (data : payload)
    (bus : EventBus) : Prop :=
  match set_at bus a !! i with
  | None => True
  | Some slot =>
      match fuel with
      | O => True
      | S fuel' =>
          match slot with
          | None => spares_later fuel' event a (S i) data bus
          | Some cb =>
              let bus' := try_call event cb data bus in
              (∀ j c, i < j → set_at bus a !! j = Some (Some c) →
                      set_at bus' a !! j = Some (Some c)) ∧
              spares_later fuel' event a (S i) data bus'
          end
      end
  end.

(** Along the same loop, no call subscribes a listener to the event: the
    [Set] object at [a] has as many slots after each call as before. *)
Fixpoint adds_none (fuel : nat) (event : string) (a i : nat) (data : payload)
    (bus : EventBus) : Prop :=
  match set_at bus a !! i with
  | None => True
  | Some slot =>
      match fuel with
      | O => True
      | S fuel' =>
          match slot with
          | None => adds_none fuel' event a (S i) data bus
          | Some cb =>
              let bus' := try_call event cb data bus in
              length (set_at bus' a) = length (set_at bus a) ∧
              adds_none fuel' event a (S i) data bus'
          end
      end
  end.

(** The two provisos for [emit(event, data)] on [bus]. *)
Definition unsubscribes_none_ahead (fuel : nat) (event : string) (data : payload)
    (bus : EventBus) : Prop :=
  match _listeners bus !! event with
  | None => True
  | Some a => spares_later fuel event a 0 data bus
  end.

Definition subscribes_none (fuel : nat) (event : string) (data : payload)
    (bus : EventBus) : Prop :=
  match _listeners bus !! event with
  | None => True
  | Some a => adds_none fuel event a 0 data bus
  end.

End Emit.

(** The slots of the [Set] of [event], and the listeners subscribed to it. *)
Definition slots_of (bus : EventBus) (event : string) : JSSet :=
  match _listeners bus !! event with
  | None => []
  | Some a => set_at bus a
  end.

Definition listeners_of (bus : EventBus) (event : string) : list callback :=
  set_values (slots_of bus event).

(** Two functions subscribed to one event, the first of which unsubscribes
    the second when called. *)
Definition two_listeners : EventBus := on "tick" (Fn 1) (on "tick" (Fn 0) empty).

Definition unsubscribing_run (id : nat) (data : unit) (bus : EventBus)
    : completion * EventBus :=
  match id with
  | O => (Normal, off "tick" (Fn 1) bus)
  | _ => (Normal, bus)
  end.

(** Functions of which the first unsubscribes itself and then throws. *)
Definition leaving_run (id : nat) (data : unit) (bus : EventBus) : completion * EventBus :=
  match id with
  | O => (Thrown "boom", off "tick" (Fn 0) bus)
  | _ => (Normal, bus)
  end.

(** Functions that leave the bus alone; the first one throws. *)
Definition throwing_run (id : nat) (data : unit) (bus : EventBus) : completion * EventBus :=
  match id with
  | O => (Thrown "boom", bus)
  | _ => (Normal, bus)
  end.

(** *** Buses built by the public interface *)

(** The calls a module makes on the bus outside of [emit]. *)
Inductive Op : Type :=
| On (event : string) (f : nat)
| Off (event : string) (f : nat)
| Once (event : string) (f : nat)
| Clear (event : option string).

Definition apply_op (op : Op) (bus : EventBus) : EventBus :=
  match op with
  | On ev f => on ev (Fn f) bus
  | Off ev f => off ev (Fn f) bus
  | Once ev f => once ev f bus
  | Clear ev => clear ev bus
  end.

(** A run of such calls, oldest first. *)
Definition run_ops (ops : list Op) (bus : EventBus) : EventBus :=
  foldl (λ b op, apply_op op b) bus ops.

(** Every event of the map has a [Set] object of its own in the store. *)
Definition allocated (bus : EventBus) : Prop :=
  (∀ ev a, _listeners bus !! ev = Some a → a < next_set bus ∧ is_Some (sets bus !! a)) ∧
  (∀ ev ev' a, _listeners bus !! ev = Some a → _listeners bus !! ev' = Some a → ev = ev').

(** An event is in the map exactly when it has a listener, no listener is
    subscribed twice, and a [once] wrapper sits in the [Set] of the event it
    was built for. *)
Definition tidy (bus : EventBus) : Prop :=
  ∀ ev,
    (is_Some (_listeners bus !! ev) ↔ listeners_of bus ev ≠ []) ∧
    NoDup (listeners_of bus ev) ∧
    ∀ n ev' f, OnceWrapper n ev' f ∈ listeners_of bus ev → ev' = ev ∧ n < next_serial bus.

Definition wf (bus : EventBus) : Prop := allocated bus ∧ tidy bus.

(** *** Listeners that leave the bus alone *)

(** Function bodies that do not use the bus: function [id] called with [data]
    ends as [outcome id data] says. *)
Definition quiet_with {payload : Type} (outcome : nat → payload → completion)
    (run : nat → payload → EventBus → completion * EventBus) : Prop :=
  ∀ id data bus, run id data bus = (outcome id data, bus).

(** A listener subscribed by [on], as opposed to a [once] wrapper. *)
Definition is_plain (cb : callback) : Prop :=
  match cb with Fn _ => True | OnceWrapper _ _ _ => False end.

#[export] Instance is_plain_dec cb : Decision (is_plain cb).
Proof. destruct cb; simpl; apply _. Defined.

(** The function a listener ends up calling. *)
Definition target (cb : callback) : nat :=
  match cb with Fn id => id | OnceWrapper _ _ inner => inner end.

(** The line [emit] logs for a listener, if its function throws. *)
Definition error_line {payload : Type} (outcome : nat → payload → completion)
    (event : string) (data : payload) (cb : callback) : option string :=
  match outcome (target cb) data with
  | Normal => None
  | Thrown err =>
      Some ("[EventBus] Error in listener for " +:+ dquote +:+ event +:+ dquote +:+ ": " +:+ err)
  end.

(** A slot once its [once] wrapper has run. *)
Definition retire (slot : option callback) : option callback :=
  match slot with
  | Some (OnceWrapper _ _ _) => None
  | _ => slot
  end.

(** The bus [b] when the loop of [emit], started on [bus] for the event [ev]
    whose [Set] is at [a], has visited the first [i] slots and the listeners
    are quiet: the wrappers among the visited slots are gone, nothing else
    changed, and the event left the map if its [Set] became empty. *)
Definition core (ev : string) (bus : EventBus) (a i : nat) (b : EventBus) : Prop :=
  set_at b a = (retire <$> take i (set_at bus a)) ++ drop i (set_at bus a) ∧
  is_Some (sets b !! a) ∧
  (∀ ev', ev' ≠ ev → _listeners b !! ev' = _listeners bus !! ev') ∧
  (∀ a', a' ≠ a → sets b !! a' = sets bus !! a') ∧
  ((_listeners b !! ev = Some a ∧ set_values (set_at b a) ≠ []) ∨
   (_listeners b !! ev = None ∧ set_values (set_at b a) = [])) ∧
  next_set b = next_set bus ∧ next_serial b = next_serial bus.

(** The console at that point: one line for each visited listener that
    threw. *)
Definition logged {payload : Type} (outcome : nat → payload → completion)
    (ev : string) (data : payload) (bus : EventBus) (a i : nat) (b : EventBus) : Prop :=
  console b
  = console bus ++ omap (error_line outcome ev data) (set_values (take i (set_at bus a))).

Definition visited {payload : Type} (outcome : nat → payload → completion)
    (ev : string) (data : payload) (bus : EventBus) (a i : nat) (b : EventBus) : Prop :=
  core ev bus a i b ∧ logged outcome ev data bus a i b.

(** How the functions of [throwing_run] end. *)
Definition throwing_outcome (id : nat) (data : unit) : completion :=
  match id with
  | O => Thrown "boom"
  | _ => Normal
  end.

(** Three listeners of one event, the second subscribed with [once], and a
    listener of another event. *)
Definition sample_ops : list Op := [On "tick" 0; Once "tick" 1; On "tick" 2; On "tock" 3].

End EventBus.

(* ===================================================================== *)
(** ** PhysicsEngine: the Matter.js wrapper *)
(* ===================================================================== *)

Module PhysicsEngine.

(** Matter bodies, constraints and game objects are mutable JavaScript objects
    shared between the engine, the solver and the object classes: they are
    named by their identity ([body.id], the constraint's id, [BaseObject._id])
    and live in a store. *)
Abbreviation body_id := nat.
Abbreviation constraint_id := nat.
Abbreviation object_ref := nat.

#[export] Instance Q_eq_dec : EqDecision Q.
Proof. solve_decision. Defined.

Record Vector : Type := mkVector { vx : Q; vy : Q }.

#[export] Instance Vector_eq_dec : EqDecision Vector.
Proof. solve_decision. Defined.

(** The fields of a [Matter.Body] the engine reads and writes. *)
Record Body : Type := mkBody {
  position : Vector;
  angle : Q;
  velocity : Vector;
  angularVelocity : Q;
  isSleeping : bool;
  isStatic : bool;
  label : string;
}.

(** The Matter.js setters used by [restoreSnapshot], as assignments of the
    field they are named after: what the setters come to when the arithmetic
    is exact (see [Matter] below for what they do otherwise). *)
Definition Body_setPosition (p : Vector) (b : Body) : Body :=
  {| position := p; angle := angle b; velocity := velocity b;
     angularVelocity := angularVelocity b; isSleeping := isSleeping b;
     isStatic := isStatic b; label := label b |}.

Definition Body_setAngle (a : Q) (b : Body) : Body :=
  {| position := position b; angle := a; velocity := velocity b;
     angularVelocity := angularVelocity b; isSleeping := isSleeping b;
     isStatic := isStatic b; label := label b |}.

Definition Body_setVelocity (v : Vector) (b : Body) : Body :=
  {| position := position b; angle := angle b; velocity := v;
     angularVelocity := angularVelocity b; isSleeping := isSleeping b;
     isStatic := isStatic b; label := label b |}.

Definition Body_setAngularVelocity (w : Q) (b : Body) : Body :=
  {| position := position b; angle := angle b; velocity := velocity b;
     angularVelocity := w; isSleeping := isSleeping b;
     isStatic := isStatic b; label := label b |}.

Definition Sleeping_set (flag : bool) (b : Body) : Body :=
  {| position := position b; angle := angle b; velocity := velocity b;
     angularVelocity := angularVelocity b; isSleeping := flag;
     isStatic := isStatic b; label := label b |}.

(** Matter.js is a library outside these sources, and its setters are not
    quite assignments: [Body.setPosition] adds to the position the difference
    between the new position and the old one, and [Body.setVelocity] stores
    the velocity it derives from the position and the previous position, in
    floating point, so that a moved body need not hold the very number it was
    given. What the setters do to a body is therefore a parameter of the
    properties that tell which setters [restoreSnapshot] and the hooks call,
    on which body and with which values. A setter is given the body it is
    called on (which body it is, and the fields the engine reads) and the
    value. *)
Record Matter : Type := mkMatter {
  Matter_setPosition : body_id → Vector → Body → Body;
  Matter_setAngle : body_id → Q → Body → Body;
  Matter_setVelocity : body_id → Vector → Body → Body;
  Matter_setAngularVelocity : body_id → Q → Body → Body;
  Matter_Sleeping_set : body_id → bool → Body → Body;
}.

(** The setters in exact arithmetic. *)
Definition assignments : Matter :=
  {| Matter_setPosition := λ _, Body_setPosition;
     Matter_setAngle := λ _, Body_setAngle;
     Matter_setVelocity := λ _, Body_setVelocity;
     Matter_setAngularVelocity := λ _, Body_setAngularVelocity;
     Matter_Sleeping_set := λ _, Sleeping_set |}.

(** [Bodies.rectangle(x, y, w, h, { isStatic: true, label })]: a body at rest
    (its extent is not read by the engine). *)
Definition Bodies_rectangle_static (x y : Q) (lbl : string) : Body :=
  {| position := mkVector x y; angle := 0%Q; velocity := mkVector 0%Q 0%Q;
     angularVelocity := 0%Q; isSleeping := false; isStatic := true; label := lbl |}.

(** What the engine reads of a game object: its class state ([base]), the
    Matter bodies and constraints its constructor built, in the order its
    getters list them, [Balloon]'s [_popped] flag ([false] elsewhere), and
    whether [dispose()] has run on it: the fields that referred to its bodies
    and constraints then hold [null], and [_bodies] and [_constraints] tell
    what they referred to. *)
Record GameObject : Type := mkGameObject {
  base : Objects.BaseObject;
  _bodies : list body_id;
  _constraints : list constraint_id;
  _popped : bool;
  _disposed : bool;
}.

(** [get bodies()]: [Balloon] answers [this._popped ? [] : [this._body]], the
    other classes list their bodies. (For an object disposed of, these are
    the places of the list, which then hold [null]: see [lists_null_body].) *)
Definition bodies (o : GameObject) : list body_id :=
  match Objects.kind (base o) with
  | Objects.Balloon => if _popped o then [] else _bodies o
  | _ => _bodies o
  end.

(** [get constraints()] *)
Definition constraints (o : GameObject) : list constraint_id := _constraints o.

(** [Balloon.pop()], as far as the engine can tell. *)
Definition pop (o : GameObject) : GameObject :=
  {| base := base o; _bodies := _bodies o; _constraints := _constraints o; _popped := true;
     _disposed := _disposed o |}.

(** [dispose()]: every class sets the fields that refer to its bodies to
    [null] ([Pulley] those that refer to its constraints too); [Rope] sets its
    anchor to [null] and empties its arrays of segments and constraints. *)
Definition GameObject_dispose (o : GameObject) : GameObject :=
  {| base := base o; _bodies := _bodies o; _constraints := _constraints o;
     _popped := _popped o; _disposed := true |}.

(** Whether [get bodies()] lists a [null], and whether [get constraints()]
    does. After [dispose()], [bodies] is [[null]] for a rope (the anchor),
    [[]] for a popped balloon, and a [null] for each body elsewhere;
    [constraints] is [[]] for a rope and a [null] for each constraint
    elsewhere. *)
Definition lists_null_body (o : GameObject) : bool :=
  _disposed o &&
  match Objects.kind (base o) with
  | Objects.Rope => true
  | _ => match bodies o with [] => false | _ :: _ => true end
  end.

Definition lists_null_constraint (o : GameObject) : bool :=
  _disposed o &&
  match Objects.kind (base o) with
  | Objects.Rope => false
  | _ => match constraints o with [] => false | _ :: _ => true end
  end.

(** The store: game objects, Matter bodies, and Matter's id counter. *)
Record Memory : Type := mkMemory {
  heap_objects : gmap object_ref GameObject;
  heap_bodies : gmap body_id Body;
  next_id : nat;
}.

(** [gameObject.dispose()] in the store. *)
Definition dispose_object (o : object_ref) (mem : Memory) : Memory :=
  {| heap_objects := alter GameObject_dispose o (heap_objects mem);
     heap_bodies := heap_bodies mem;
     next_id := next_id mem |}.

(** An argument at a call site of a hook: a number, or the engine ([this]). *)
Inductive Arg : Type :=
| ArgNumber (q : Q)
| ArgEngine.

#[export] Instance Arg_eq_dec : EqDecision Arg.
Proof. solve_decision. Defined.

(** A contact pair of a [collisionStart] event. *)
Record Pair : Type := mkPair { bodyA : body_id; bodyB : body_id }.

#[export] Instance Pair_eq_dec : EqDecision Pair.
Proof. solve_decision. Defined.

(** The calls the engine makes into the object classes. *)
Inductive Call : Type :=
| OnBeforeUpdate (o : object_ref) (args : list Arg)
| OnAfterUpdate (o : object_ref) (args : list Arg)
| OnCollision (o other : object_ref) (pair : Pair)
| Dispose (o : object_ref).

#[export] Instance Call_eq_dec : EqDecision Call.
Proof. solve_decision. Defined.

(** What a run of the engine does, in order: calls into the classes, the
    solver's update, and events emitted on the bus. *)
Inductive Event : Type :=
| Called (c : Call)
| EngineUpdate (dt : Q)
| Emitted (event : string) (subjects : list object_ref).

#[export] Instance Event_eq_dec : EqDecision Event.
Proof. solve_decision. Defined.

Record BodyState : Type := mkBodyState {
  bs_id : body_id;
  bs_position : Vector;
  bs_angle : Q;
  bs_velocity : Vector;
  bs_angularVelocity : Q;
}.

Record SnapshotEntry : Type := mkSnapshotEntry {
  serialized : Objects.Data;
  bodyStates : list BodyState;
}.

Record EngineConfig : Type := mkConfig {
  width : Q;
  height : Q;
  gravity : Vector;
  enableSleeping : bool;
}.

(** The engine: the solver's world ([world_bodies], [world_constraints]),
    the set of tracked objects in insertion order, the body-to-object map, the
    snapshot ([None] for [null]), the store, and the trace of what it did. *)
Record PhysicsEngine : Type := mkEngine {
  config : EngineConfig;
  timeScale : Q;
  world_bodies : list body_id;
  world_constraints : list constraint_id;
  _objects : list object_ref;
  _bodyToObject : gmap body_id object_ref;
  _snapshot : option (list SnapshotEntry);
  memory : Memory;
  trace : list Event;
}.

Definition set_timeScale (v : Q) (e : PhysicsEngine) : PhysicsEngine :=
  {| config := config e; timeScale := v; world_bodies := world_bodies e; world_constraints := world_constraints e; _objects := _objects e; _bodyToObject := _bodyToObject e; _snapshot := _snapshot e; memory := memory e; trace := trace e |}.

Definition set_world_bodies (v : list body_id) (e : PhysicsEngine) : PhysicsEngine :=
  {| config := config e; timeScale := timeScale e; world_bodies := v; world_constraints := world_constraints e; _objects := _objects e; _bodyToObject := _bodyToObject e; _snapshot := _snapshot e; memory := memory e; trace := trace e |}.

Definition set_world_constraints (v : list constraint_id) (e : PhysicsEngine) : PhysicsEngine :=
  {| config := config e; timeScale := timeScale e; world_bodies := world_bodies e; world_constraints := v; _objects := _objects e; _bodyToObject := _bodyToObject e; _snapshot := _snapshot e; memory := memory e; trace := trace e |}.

Definition set_objects (v : list object_ref) (e : PhysicsEngine) : PhysicsEngine :=
  {| config := config e; timeScale := timeScale e; world_bodies := world_bodies e; world_constraints := world_constraints e; _objects := v; _bodyToObject := _bodyToObject e; _snapshot := _snapshot e; memory := memory e; trace := trace e |}.

Definition set_bodyToObject (v : gmap body_id object_ref) (e : PhysicsEngine) : PhysicsEngine :=
  {| config := config e; timeScale := timeScale e; world_bodies := world_bodies e; world_constraints := world_constraints e; _objects := _objects e; _bodyToObject := v; _snapshot := _snapshot e; memory := memory e; trace := trace e |}.

Definition set_snapshot (v : option (list SnapshotEntry)) (e : PhysicsEngine) : PhysicsEngine :=
  {| config := config e; timeScale := timeScale e; world_bodies := world_bodies e; world_constraints := world_constraints e; _objects := _objects e; _bodyToObject := _bodyToObject e; _snapshot := v; memory := memory e; trace := trace e |}.

Definition set_memory (v : Memory) (e : PhysicsEngine) : PhysicsEngine :=
  {| config := config e; timeScale := timeScale e; world_bodies := world_bodies e; world_constraints := world_constraints e; _objects := _objects e; _bodyToObject := _bodyToObject e; _snapshot := _snapshot e; memory := v; trace := trace e |}.

Definition set_trace (v : list Event) (e : PhysicsEngine) : PhysicsEngine :=
  {| config := config e; timeScale := timeScale e; world_bodies := world_bodies e; world_constraints := world_constraints e; _objects := _objects e; _bodyToObject := _bodyToObject e; _snapshot := _snapshot e; memory := memory e; trace := v |}.

(** The methods of the tracked objects: which of the optional hooks an object
    has, and what each call does to the store. A call reads the engine it is
    made from and returns the store it leaves, or [None] when it throws. *)
Record Methods : Type := mkMethods {
  has_onBeforeUpdate : object_ref → bool;
  has_onAfterUpdate : object_ref → bool;
  has_onCollision : object_ref → bool;
  has_dispose : object_ref → bool;
  run : Call → PhysicsEngine → option Memory;
}.

(** The rigid-body solver, [Engine.update(engine, dt)], in the two phases the
    [collisionStart] event separates: detection, which yields the bodies and
    the pairs that started to touch, and resolution. *)
Record Solver : Type := mkSolver {
  detect : Q → PhysicsEngine → gmap body_id Body * list Pair;
  resolve : Q → PhysicsEngine → gmap body_id Body;
}.

Definition set_heap_bodies (h : gmap body_id Body) (e : PhysicsEngine) : PhysicsEngine :=
  set_memory
    {| heap_objects := heap_objects (memory e); heap_bodies := h;
       next_id := next_id (memory e) |} e.

Definition lookup_object (e : PhysicsEngine) (o : object_ref) : option GameObject :=
  heap_objects (memory e) !! o.

(** [eventBus.emit(event, ...)] *)
Definition emit_event (event : string) (subjects : list object_ref) (e : PhysicsEngine)
    : PhysicsEngine :=
  set_trace (trace e ++ [Emitted event subjects]) e.

(** A call into an object class. *)
Definition call (m : Methods) (c : Call) (e : PhysicsEngine) : option PhysicsEngine :=
  mem ← run m c e;
  Some (set_trace (trace e ++ [Called c]) (set_memory mem e)).

(** [for (const x of l) f(x)], stopping at the first call that throws. *)
Fixpoint for_each {A S : Type} (f : A → S → option S) (l : list A) (s : S) : option S :=
  match l with
  | [] => Some s
  | x :: l' => s' ← f x s; for_each f l' s'
  end.

(** [Set.add] and [Set.delete] on the tracked objects. *)
Definition objects_add (o : object_ref) (l : list object_ref) : list object_ref :=
  if decide (o ∈ l) then l else l ++ [o].

Definition objects_delete (o : object_ref) (l : list object_ref) : list object_ref :=
  filter (λ o', o' ≠ o) l.

(** [Composite.add(world, x)] appends; [Composite.remove(world, x)] takes out
    the first occurrence of [x], if any. *)
Definition Composite_add (x : nat) (l : list nat) : list nat := l ++ [x].

Fixpoint Composite_remove (x : nat) (l : list nat) : list nat :=
  match l with
  | [] => []
  | y :: l' => if decide (y = x) then l' else y :: Composite_remove x l'
  end.

(** *** Construction and boundaries *)

(** [_addBoundaries()]: floor, left, right, ceiling. *)
Definition _addBoundaries (e : PhysicsEngine) : PhysicsEngine :=
  let w := width (config e) in
  let h := height (config e) in
  let wallThickness : Q := 50%Q in
  let n := next_id (memory e) in
  let walls :=
    [ Bodies_rectangle_static (w / 2)%Q (h + wallThickness / 2)%Q "wall-floor";
      Bodies_rectangle_static (- wallThickness / 2)%Q (h / 2)%Q "wall-left";
      Bodies_rectangle_static (w + wallThickness / 2)%Q (h / 2)%Q "wall-right";
      Bodies_rectangle_static (w / 2)%Q (- wallThickness / 2)%Q "wall-ceiling" ] in
  let heap :=
    foldl (λ hp ib, <[n + ib.1 := ib.2]> hp) (heap_bodies (memory e)) (imap pair walls) in
  set_world_bodies (world_bodies e ++ seq n 4)
    (set_memory
       {| heap_objects := heap_objects (memory e); heap_bodies := heap;
          next_id := n + 4 |} e).

(** The ids of the four walls of an engine built on a store whose id counter
    stood at [n]. *)
Definition boundary_walls (n : nat) : list body_id := seq n 4.

Record EngineOptions : Type := {
  gravityX : option Q;
  gravityY : option Q;
  opt_enableSleeping : option bool;
}.

(** [new PhysicsEngine(width, height, opts)] in the store [mem]. *)
Definition create (w h : Q) (opts : EngineOptions) (mem : Memory) : PhysicsEngine :=
  _addBoundaries
    {| config :=
         {| width := w; height := h;
            gravity := mkVector (default 0%Q (gravityX opts)) (default 1%Q (gravityY opts));
            enableSleeping := default true (opt_enableSleeping opts) |};
       timeScale := 1%Q;
       world_bodies := [];
       world_constraints := [];
       _objects := [];
       _bodyToObject := ∅;
       _snapshot := None;
       memory := mem;
       trace := [] |}.

(** *** Object lifecycle *)

(** [addObject(gameObject)]. ([gameObject.constraints] is an array, hence
    truthy; a reference always names an object of the store.)
    [Composite.add(this.world, null)] and [body.id] of [null] throw, so the
    call throws ([None]) for an object that lists a [null]. *)
Definition addObject (o : object_ref) (e : PhysicsEngine) : option PhysicsEngine :=
  match lookup_object e o with
  | None => Some e
  | Some obj =>
      if lists_null_body obj || lists_null_constraint obj then None else
      let e1 := set_objects (objects_add o (_objects e)) e in
      let e2 :=
        foldl (λ acc b,
                 set_bodyToObject (<[b := o]> (_bodyToObject acc))
                   (set_world_bodies (Composite_add b (world_bodies acc)) acc))
              e1 (bodies obj) in
      let e3 :=
        foldl (λ acc c, set_world_constraints (Composite_add c (world_constraints acc)) acc)
              e2 (constraints obj) in
      Some (emit_event "physics:object-added" [o] e3)
  end.

(** [removeObject(gameObject)]. [Composite.remove(this.world, null)] throws,
    so the call throws for an object that lists a [null]. *)
Definition removeObject (m : Methods) (o : object_ref) (e : PhysicsEngine)
    : option PhysicsEngine :=
  match lookup_object e o with
  | None => Some e
  | Some obj =>
      if lists_null_body obj || lists_null_constraint obj then None else
      let e1 :=
        foldl (λ acc c, set_world_constraints (Composite_remove c (world_constraints acc)) acc)
              e (constraints obj) in
      let e2 :=
        foldl (λ acc b,
                 set_bodyToObject (delete b (_bodyToObject acc))
                   (set_world_bodies (Composite_remove b (world_bodies acc)) acc))
              e1 (bodies obj) in
      let e3 := set_objects (objects_delete o (_objects e2)) e2 in
      e4 ← (if has_dispose m o then call m (Dispose o) e3 else Some e3);
      Some (emit_event "physics:object-removed" [o] e4)
  end.

(** [clear()]: iterates over a copy of the set. *)
Definition clear (m : Methods) (e : PhysicsEngine) : option PhysicsEngine :=
  for_each (removeObject m) (_objects e) e.

(** *** Simulation *)

(** The [collisionStart] listener installed by [_setupCollisionEvents()],
    for one pair and for the pairs of an event. *)
Definition on_pair (m : Methods) (pair : Pair) (e : PhysicsEngine) : option PhysicsEngine :=
  match _bodyToObject e !! bodyA pair, _bodyToObject e !! bodyB pair with
  | Some objA, Some objB =>
      e1 ← (if has_onCollision m objA then call m (OnCollision objA objB pair) e else Some e);
      e2 ← (if has_onCollision m objB then call m (OnCollision objB objA pair) e1 else Some e1);
      Some (emit_event "physics:collision" [objA; objB] e2)
  | _, _ => Some e
  end.

Definition collisionStart (m : Methods) (pairs : list Pair) (e : PhysicsEngine)
    : option PhysicsEngine :=
  for_each (on_pair m) pairs e.

(** [Engine.update(this.engine, dt)] *)
Definition Engine_update (m : Methods) (s : Solver) (dt : Q) (e : PhysicsEngine)
    : option PhysicsEngine :=
  let '(heap, pairs) := detect s dt e in
  let e1 := set_trace (trace e ++ [EngineUpdate dt]) (set_heap_bodies heap e) in
  e2 ← collisionStart m pairs e1;
  Some (set_heap_bodies (resolve s dt e2) e2).

(** [obj.onBeforeUpdate(dt, this)] and [obj.onAfterUpdate(dt, this)], when the
    object has the method. *)
Definition before_update (m : Methods) (dt : Q) (o : object_ref) (e : PhysicsEngine)
    : option PhysicsEngine :=
  if has_onBeforeUpdate m o
  then call m (OnBeforeUpdate o [ArgNumber dt; ArgEngine]) e
  else Some e.

Definition after_update (m : Methods) (dt : Q) (o : object_ref) (e : PhysicsEngine)
    : option PhysicsEngine :=
  if has_onAfterUpdate m o
  then call m (OnAfterUpdate o [ArgNumber dt; ArgEngine]) e
  else Some e.

(** [step(dt)] *)
Definition step (m : Methods) (s : Solver) (dt : Q) (e : PhysicsEngine)
    : option PhysicsEngine :=
  e1 ← for_each (before_update m dt) (_objects e) e;
  e2 ← Engine_update m s dt e1;
  for_each (after_update m dt) (_objects e2) e2.

(** [setTimeScale(scale)] *)
Definition setTimeScale (scale : Q) (e : PhysicsEngine) : PhysicsEngine :=
  set_timeScale scale e.

(** *** Snapshot and restore *)

Definition body_state (e : PhysicsEngine) (b : body_id) : option BodyState :=
  body ← heap_bodies (memory e) !! b;
  Some {| bs_id := b;
          bs_position := position body;
          bs_angle := angle body;
          bs_velocity := velocity body;
          bs_angularVelocity := angularVelocity body |}.

Definition snapshot_entry (e : PhysicsEngine) (o : object_ref) : option SnapshotEntry :=
  obj ← lookup_object e o;
  Some {| serialized := Objects.serialize (base obj);
          bodyStates := omap (body_state e) (bodies obj) |}.

(** [takeSnapshot()], of tracked objects that have their bodies ([b.id]
    throws on a [null]). *)
Definition takeSnapshot (e : PhysicsEngine) : PhysicsEngine :=
  set_snapshot (Some (omap (snapshot_entry e) (_objects e))) e.

(** The five setter calls on a body found for a [bodyState], with the
    setters of exact arithmetic. *)
Definition restore_body (bs : BodyState) (b : Body) : Body :=
  Sleeping_set false
    (Body_setAngularVelocity (bs_angularVelocity bs)
       (Body_setVelocity (bs_velocity bs)
          (Body_setAngle (bs_angle bs)
             (Body_setPosition (bs_position bs) b)))).

(** [const body = obj.bodies.find(b => b.id === bodyState.id); if (body) ...] *)
Definition restore_bodyState (obj : GameObject) (e : PhysicsEngine) (bs : BodyState)
    : PhysicsEngine :=
  if decide (bs_id bs ∈ bodies obj)
  then set_heap_bodies (alter (restore_body bs) (bs_id bs) (heap_bodies (memory e))) e
  else e.

(** The loop over [i < this._snapshot.length && i < objectArray.length]. *)
Fixpoint restore_loop (snap : list SnapshotEntry) (objectArray : list object_ref)
    (e : PhysicsEngine) : PhysicsEngine :=
  match snap, objectArray with
  | entry :: snap', o :: objectArray' =>
      let e' :=
        match lookup_object e o with
        | Some obj => foldl (restore_bodyState obj) e (bodyStates entry)
        | None => e
        end in
      restore_loop snap' objectArray' e'
  | _, _ => e
  end.

(** [restoreSnapshot()], with the setters of exact arithmetic and for
    tracked objects that have their bodies (see [restoreSnapshot_with] for
    Matter's setters and for objects disposed of). *)
Definition restoreSnapshot (e : PhysicsEngine) : PhysicsEngine :=
  match _snapshot e with
  | None => e
  | Some snap => restore_loop snap (_objects e) e
  end.

(** [restoreSnapshot()] again, with Matter's setters a parameter and the
    objects' [null] references accounted for: the five setter calls on a body
    found for a [bodyState]. *)
Definition restore_body_with (M : Matter) (bs : BodyState) (b : Body) : Body :=
  let id := bs_id bs in
  Matter_Sleeping_set M id false
    (Matter_setAngularVelocity M id (bs_angularVelocity bs)
       (Matter_setVelocity M id (bs_velocity bs)
          (Matter_setAngle M id (bs_angle bs)
             (Matter_setPosition M id (bs_position bs) b)))).

(** [const body = obj.bodies.find(b => b.id === bodyState.id); if (body) ...]:
    [b.id] throws on a [null] of the list. *)
Definition restore_bodyState_with (M : Matter) (obj : GameObject) (bs : BodyState)
    (e : PhysicsEngine) : option PhysicsEngine :=
  if lists_null_body obj then None
  else if decide (bs_id bs ∈ bodies obj)
  then Some (set_heap_bodies
               (alter (restore_body_with M bs) (bs_id bs) (heap_bodies (memory e))) e)
  else Some e.

Fixpoint restore_loop_with (M : Matter) (snap : list SnapshotEntry)
    (objectArray : list object_ref) (e : PhysicsEngine) : option PhysicsEngine :=
  match snap, objectArray with
  | entry :: snap', o :: objectArray' =>
      e' ← match lookup_object e o with
           | Some obj => for_each (restore_bodyState_with M obj) (bodyStates entry) e
           | None => Some e
           end;
      restore_loop_with M snap' objectArray' e'
  | _, _ => Some e
  end.

Definition restoreSnapshot_with (M : Matter) (e : PhysicsEngine) : option PhysicsEngine :=
  match _snapshot e with
  | None => Some e
  | Some snap => restore_loop_with M snap (_objects e) e
  end.

(** [clearSnapshot()] and [hasSnapshot()] *)
Definition clearSnapshot (e : PhysicsEngine) : PhysicsEngine := set_snapshot None e.


(** [getObjects()] and [getObjectForBody(body)] *)
Definition getObjects (e : PhysicsEngine) : list object_ref := _objects e.

Definition getObjectForBody (e : PhysicsEngine) (b : body_id) : option object_ref :=
  _bodyToObject e !! b.

(** *** Notions used to state properties *)

(** No call into the object classes throws. *)
Definition hooks_return (m : Methods) : Prop := ∀ c e, is_Some (run m c e).


(** The arguments of the [onBeforeUpdate] calls of a trace. *)
Definition before_update_args (tr : list Event) : list (object_ref * list Arg) :=
  omap (λ ev, match ev with
              | Called (OnBeforeUpdate o args) => Some (o, args)
              | _ => None
              end) tr.




(** Body ownership: every body of the solver's world is a boundary wall or
    is mapped by the lookup to a tracked object. *)
Definition owner_tracked (e : PhysicsEngine) (b : body_id) : bool :=
  match _bodyToObject e !! b with
  | Some o => bool_decide (o ∈ _objects e)
  | None => false
  end.

Definition ownership_invariant (walls : list body_id) (e : PhysicsEngine) : Prop :=
  ∀ b, b ∈ world_bodies e → b ∈ walls ∨ owner_tracked e b = true.

(** The body states [restoreSnapshot] writes back, in order: for the entry
    and the tracked object at each common position, the body states of the
    entry whose body the object lists. *)
Fixpoint writes_of (objs : gmap object_ref GameObject) (snap : list SnapshotEntry)
    (objectArray : list object_ref) : list BodyState :=
  match snap, objectArray with
  | entry :: snap', o :: objectArray' =>
      match objs !! o with
      | Some obj => filter (λ bs, bs_id bs ∈ bodies obj) (bodyStates entry)
      | None => []
      end ++ writes_of objs snap' objectArray'
  | _, _ => []
  end.

Definition write_all (ws : list BodyState) (h : gmap body_id Body) : gmap body_id Body :=
  foldl (λ h bs, alter (restore_body bs) (bs_id bs) h) h ws.

(** What a sequence of writes does to the body [k]. *)
Definition apply_writes (ws : list BodyState) (k : body_id) (b : Body) : Body :=
  foldl (λ b bs, if decide (bs_id bs = k) then restore_body bs b else b) b ws.

(** The same with Matter's setters a parameter. *)
Definition write_all_with (M : Matter) (ws : list BodyState) (h : gmap body_id Body)
    : gmap body_id Body :=
  foldl (λ h bs, alter (restore_body_with M bs) (bs_id bs) h) h ws.


(** No tracked object has been disposed of (every tracked reference names
    an object). *)
Definition tracked_live (e : PhysicsEngine) : Prop :=
  ∀ o, o ∈ _objects e → ∃ obj, lookup_object e o = Some obj ∧ _disposed obj = false.

(** The events the [collisionStart] listener produces for one pair, given
    the body-to-object map. *)
Definition pair_events (m : Methods) (btm : gmap body_id object_ref) (q : Pair) : list Event :=
  match btm !! bodyA q, btm !! bodyB q with
  | Some a, Some b =>
      (if has_onCollision m a then [Called (OnCollision a b q)] else [])
      ++ (if has_onCollision m b then [Called (OnCollision b a q)] else [])
      ++ [Emitted "physics:collision" [a; b]]
  | _, _ => []
  end.

(** The [onBeforeUpdate] and [onAfterUpdate] calls of a step over the tracked
    objects [objs]. *)
Definition before_calls (m : Methods) (dt : Q) (objs : list object_ref) : list Event :=
  (λ o, Called (OnBeforeUpdate o [ArgNumber dt; ArgEngine]))
    <$> filter (λ o, has_onBeforeUpdate m o = true) objs.

Definition after_calls (m : Methods) (dt : Q) (objs : list object_ref) : list Event :=
  (λ o, Called (OnAfterUpdate o [ArgNumber dt; ArgEngine]))
    <$> filter (λ o, has_onAfterUpdate m o = true) objs.

(** *** Sample worlds *)

(** Hooks that accept any argument and change nothing. *)
Definition permissive : Methods :=
  {| has_onBeforeUpdate := λ _, true;
     has_onAfterUpdate := λ _, false;
     has_onCollision := λ _, true;
     has_dispose := λ _, true;
     run := λ _ e, Some (memory e) |}.

Definition kind_of (e : PhysicsEngine) (o : object_ref) : option Objects.Kind :=
  obj ← lookup_object e o; Some (Objects.kind (base obj)).

(** [Mouse.onBeforeUpdate(engine)] starts with [this._isGrounded(engine)],
    which reads [engine.world] and hands it to [Composite.allBodies]: that
    throws unless [engine] is the engine. For a mouse in mid-air the hook then
    returns at once, which is the case kept here. *)
Definition Mouse_onBeforeUpdate (args : list Arg) (e : PhysicsEngine) : option Memory :=
  match args with
  | ArgEngine :: _ => Some (memory e)
  | _ => None
  end.

(** [Balloon.onCollision(other, pair)]: pops on scissors or a candle. *)
Definition Balloon_onCollision (o other : object_ref) (e : PhysicsEngine) : option Memory :=
  match lookup_object e o, kind_of e other with
  | Some obj, Some k =>
      if negb (_popped obj)
         && match k with Objects.Scissors | Objects.Candle => true | _ => false end
      then Some {| heap_objects := <[o := pop obj]> (heap_objects (memory e));
                   heap_bodies := heap_bodies (memory e);
                   next_id := next_id (memory e) |}
      else Some (memory e)
  | _, _ => Some (memory e)
  end.

(** The methods of the classes that appear in the sample worlds: the hooks
    of [Mouse] and [Balloon] above; [Ball] and [Scissors] inherit the empty
    hooks of [BaseObject]; no class has [onAfterUpdate]; [dispose()] drops the
    object's references to its bodies. *)
Definition sample_methods : Methods :=
  {| has_onBeforeUpdate := λ _, true;
     has_onAfterUpdate := λ _, false;
     has_onCollision := λ _, true;
     has_dispose := λ _, true;
     run := λ c e,
       match c with
       | OnBeforeUpdate o args =>
           match kind_of e o with
           | Some Objects.Mouse => Mouse_onBeforeUpdate args e
           | _ => Some (memory e)
           end
       | OnCollision o other _ =>
           match kind_of e o with
           | Some Objects.Balloon => Balloon_onCollision o other e
           | _ => Some (memory e)
           end
       | OnAfterUpdate _ _ => Some (memory e)
       | Dispose o => Some (dispose_object o (memory e))
       end |}.

(** The methods of [Ball], for worlds of balls: the empty hooks of
    [BaseObject], and [dispose()]. *)
Definition ball_methods : Methods :=
  {| has_onBeforeUpdate := λ _, true;
     has_onAfterUpdate := λ _, false;
     has_onCollision := λ _, true;
     has_dispose := λ _, true;
     run := λ c e,
       match c with
       | Dispose o => Some (dispose_object o (memory e))
       | _ => Some (memory e)
       end |}.

(** A solver step in which nothing moves, reporting the given new contacts. *)
Definition contact_solver (pairs : list Pair) : Solver :=
  {| detect := λ _ e, (heap_bodies (memory e), pairs);
     resolve := λ _ e, heap_bodies (memory e) |}.

Definition idle_solver : Solver := contact_solver [].


Definition no_options : EngineOptions :=
  {| gravityX := None; gravityY := None; opt_enableSleeping := None |}.

Definition body_at (x y : Q) (lbl : string) : Body :=
  {| position := mkVector x y; angle := 0%Q; velocity := mkVector 0%Q 0%Q;
     angularVelocity := 0%Q; isSleeping := false; isStatic := false; label := lbl |}.

Definition object_at (k : Objects.Kind) (x y : Q) (bs : list body_id) : GameObject :=
  {| base := Objects.new k (JS.JNumber x) (JS.JNumber y) ∅ 0;
     _bodies := bs; _constraints := []; _popped := false; _disposed := false |}.

(** Two objects, with one body each (10 and 11), on an 800 by 600 playfield
    whose walls get the ids 12 to 15. *)
Definition sample_memory (k1 k2 : Objects.Kind) : Memory :=
  {| heap_objects := <[2 := object_at k2 200 100 [11]]> {[1 := object_at k1 100 100 [10]]};
     heap_bodies := <[11 := body_at 200 100 "second"]> {[10 := body_at 100 100 "first"]};
     next_id := 12 |}.

Definition sample_world (k1 k2 : Objects.Kind) : PhysicsEngine :=
  let e := create 800 600 no_options (sample_memory k1 k2) in
  default e (addObject 1 e ≫= addObject 2).

Definition two_balls : PhysicsEngine := sample_world Objects.Ball Objects.Ball.

Definition balloon_and_scissors : PhysicsEngine :=
  sample_world Objects.Balloon Objects.Scissors.

Definition mouse_and_ball : PhysicsEngine := sample_world Objects.Mouse Objects.Ball.


(** *** What the hooks leave alone *)

(** Two engine states that track the same objects, bodies and constraints and
    hold the same snapshot. *)
Definition same_tracking (e e' : PhysicsEngine) : Prop :=
  config e' = config e ∧ timeScale e' = timeScale e ∧
  world_bodies e' = world_bodies e ∧ world_constraints e' = world_constraints e ∧
  _objects e' = _objects e ∧ _bodyToObject e' = _bodyToObject e ∧
  _snapshot e' = _snapshot e.

(** The hooks of a step ([onBeforeUpdate], [onCollision], [onAfterUpdate])
    leave the game objects as they are: which bodies and constraints an
    object has, whether it is popped or disposed of (hooks move bodies, they
    do not rebuild objects; a balloon that pops is the exception). *)
Definition is_Dispose (c : Call) : bool :=
  match c with Dispose _ => true | _ => false end.

Definition updates_keep_objects (m : Methods) : Prop :=
  ∀ c e mem, is_Dispose c = false → run m c e = Some mem →
             heap_objects mem = heap_objects (memory e).

(** The [dispose()] the engine calls is the one of the classes. *)
Definition class_dispose (m : Methods) : Prop :=
  ∀ o e, run m (Dispose o) e = Some (dispose_object o (memory e)).

Definition same_objects (e e' : PhysicsEngine) : Prop :=
  heap_objects (memory e') = heap_objects (memory e).

(** *** Reading the trace of [removeObject] and [clear] *)

(** The objects announced with [physics:object-removed], in order. *)
Definition removed_objects (tr : list Event) : list object_ref :=
  omap (λ ev, match ev with
              | Emitted "physics:object-removed" [o] => Some o
              | _ => None
              end) tr.

(** The objects whose [dispose()] was called, in order. *)
Definition disposed_objects (tr : list Event) : list object_ref :=
  omap (λ ev, match ev with
              | Called (Dispose o) => Some o
              | _ => None
              end) tr.

(** [if (gameObject.dispose) gameObject.dispose()], in the trace. *)
Definition dispose_events (m : Methods) (o : object_ref) : list Event :=
  if has_dispose m o then [Called (Dispose o)] else [].

(** The bodies of the objects of a list. *)
Definition listed_bodies (e : PhysicsEngine) (l : list object_ref) : list body_id :=
  concat (omap (λ o, bodies <$> lookup_object e o) l).

(** *** The tracking invariant *)

(** No body is in the world twice, every body of the world is a wall or has
    an owner, the owner of a body is a tracked object that lists the body,
    and no tracked object has been disposed of. *)
Definition well_tracked (walls : list body_id) (e : PhysicsEngine) : Prop :=
  NoDup (world_bodies e) ∧
  (∀ b, b ∈ world_bodies e → b ∈ walls ∨ is_Some (_bodyToObject e !! b)) ∧
  (∀ b o, _bodyToObject e !! b = Some o →
     o ∈ _objects e ∧ ∃ obj, lookup_object e o = Some obj ∧ b ∈ bodies obj) ∧
  NoDup (_objects e) ∧ tracked_live e.

(** A world with its walls only; the two balls of [sample_memory] exist but
    are not added. *)
Definition empty_world : PhysicsEngine :=
  create 800 600 no_options (sample_memory Objects.Ball Objects.Ball).


End PhysicsEngine.

(* ===================================================================== *)
(** ** GameLoop: the play/pause/reset state machine *)
(* ===================================================================== *)

Module GameLoop.
Import PhysicsEngine.

(** [LoopState] *)
Inductive LoopState : Type := STOPPED | RUNNING | PAUSED.

#[export] Instance LoopState_eq_dec : EqDecision LoopState.
Proof. solve_decision. Defined.

(** What the loop does to its collaborators, in order: the calls on the
    engine, the render callback, events on the bus, and the host's frame
    scheduler. *)
Inductive Effect : Type :=
| TakeSnapshot
| RestoreSnapshot
| ClearSnapshot
| Step (dt : Q)
| SetTimeScale (scale : Q)
| Render
| Emit (event : string) (payload : list (string * Q))
| RequestAnimationFrame (handle : nat)
| CancelAnimationFrame (handle : nat).

#[export] Instance Effect_eq_dec : EqDecision Effect.
Proof. solve_decision. Defined.

(** The loop. [next_handle] is the handle the host's
    [requestAnimationFrame] returns next; [_rafId] is [None] for [null]. *)
Record GameLoop : Type := mkLoop {
  physics : PhysicsEngine;
  _state : LoopState;
  _rafId : option nat;
  _elapsed : Q;
  _lastTimestamp : Q;
  _speed : Q;
  _maxDt : Q;
  next_handle : nat;
  effects : list Effect;
}.

Definition set_physics (v : PhysicsEngine) (g : GameLoop) : GameLoop :=
  {| physics := v; _state := _state g; _rafId := _rafId g; _elapsed := _elapsed g; _lastTimestamp := _lastTimestamp g; _speed := _speed g; _maxDt := _maxDt g; next_handle := next_handle g; effects := effects g |}.

Definition set_state (v : LoopState) (g : GameLoop) : GameLoop :=
  {| physics := physics g; _state := v; _rafId := _rafId g; _elapsed := _elapsed g; _lastTimestamp := _lastTimestamp g; _speed := _speed g; _maxDt := _maxDt g; next_handle := next_handle g; effects := effects g |}.

Definition set_rafId (v : option nat) (g : GameLoop) : GameLoop :=
  {| physics := physics g; _state := _state g; _rafId := v; _elapsed := _elapsed g; _lastTimestamp := _lastTimestamp g; _speed := _speed g; _maxDt := _maxDt g; next_handle := next_handle g; effects := effects g |}.

Definition set_elapsed (v : Q) (g : GameLoop) : GameLoop :=
  {| physics := physics g; _state := _state g; _rafId := _rafId g; _elapsed := v; _lastTimestamp := _lastTimestamp g; _speed := _speed g; _maxDt := _maxDt g; next_handle := next_handle g; effects := effects g |}.

Definition set_lastTimestamp (v : Q) (g : GameLoop) : GameLoop :=
  {| physics := physics g; _state := _state g; _rafId := _rafId g; _elapsed := _elapsed g; _lastTimestamp := v; _speed := _speed g; _maxDt := _maxDt g; next_handle := next_handle g; effects := effects g |}.

Definition set_speed (v : Q) (g : GameLoop) : GameLoop :=
  {| physics := physics g; _state := _state g; _rafId := _rafId g; _elapsed := _elapsed g; _lastTimestamp := _lastTimestamp g; _speed := v; _maxDt := _maxDt g; next_handle := next_handle g; effects := effects g |}.

Definition set_next_handle (v : nat) (g : GameLoop) : GameLoop :=
  {| physics := physics g; _state := _state g; _rafId := _rafId g; _elapsed := _elapsed g; _lastTimestamp := _lastTimestamp g; _speed := _speed g; _maxDt := _maxDt g; next_handle := v; effects := effects g |}.

Definition set_effects (v : list Effect) (g : GameLoop) : GameLoop :=
  {| physics := physics g; _state := _state g; _rafId := _rafId g; _elapsed := _elapsed g; _lastTimestamp := _lastTimestamp g; _speed := _speed g; _maxDt := _maxDt g; next_handle := next_handle g; effects := v |}.

Definition log (fx : list Effect) (g : GameLoop) : GameLoop :=
  set_effects (effects g ++ fx) g.

(** [new GameLoop(physics, renderCallback)] *)
Definition create (p : PhysicsEngine) (host_handle : nat) : GameLoop :=
  {| physics := p; _state := STOPPED; _rafId := None; _elapsed := 0%Q;
     _lastTimestamp := 0%Q; _speed := 1%Q; _maxDt := 50%Q;
     next_handle := host_handle; effects := [] |}.

(** [this._rafId = requestAnimationFrame(this._frame)] *)
Definition requestFrame (g : GameLoop) : GameLoop :=
  log [RequestAnimationFrame (next_handle g)]
    (set_next_handle (S (next_handle g)) (set_rafId (Some (next_handle g)) g)).

(** [if (this._rafId !== null) { cancelAnimationFrame(this._rafId); this._rafId = null; }] *)
Definition cancelFrame (g : GameLoop) : GameLoop :=
  match _rafId g with
  | Some h => log [CancelAnimationFrame h] (set_rafId None g)
  | None => g
  end.

(** [play()] *)
Definition play (g : GameLoop) : GameLoop :=
  match _state g with
  | RUNNING => g
  | st =>
      let g1 :=
        match st with
        | STOPPED =>
            set_elapsed 0%Q (log [TakeSnapshot] (set_physics (takeSnapshot (physics g)) g))
        | _ => g
        end in
      let g2 := requestFrame (set_lastTimestamp 0%Q (set_state RUNNING g1)) in
      log [Emit "loop:play" [("elapsed", _elapsed g2)]] g2
  end.

(** [pause()] *)
Definition pause (g : GameLoop) : GameLoop :=
  match _state g with
  | RUNNING =>
      let g1 := cancelFrame (set_state PAUSED g) in
      log [Emit "loop:pause" [("elapsed", _elapsed g1)]] g1
  | _ => g
  end.

(** [reset()] *)
Definition reset (g : GameLoop) : GameLoop :=
  let g1 := cancelFrame g in
  let g2 := set_lastTimestamp 0%Q (set_elapsed 0%Q (set_state STOPPED g1)) in
  let g3 := log [RestoreSnapshot] (set_physics (restoreSnapshot (physics g2)) g2) in
  let g4 := log [ClearSnapshot] (set_physics (clearSnapshot (physics g3)) g3) in
  log [Render; Emit "loop:reset" []] g4.

(** [reset()] again, with Matter's setters a parameter (see
    [PhysicsEngine.Matter]); it throws when [restoreSnapshot()] does. *)
Definition reset_with (M : Matter) (g : GameLoop) : option GameLoop :=
  let g1 := cancelFrame g in
  let g2 := set_lastTimestamp 0%Q (set_elapsed 0%Q (set_state STOPPED g1)) in
  p ← restoreSnapshot_with M (physics g2);
  let g3 := log [RestoreSnapshot] (set_physics p g2) in
  let g4 := log [ClearSnapshot] (set_physics (clearSnapshot (physics g3)) g3) in
  Some (log [Render; Emit "loop:reset" []] g4).

(** [cycleSpeed()] *)
Definition cycleSpeed (g : GameLoop) : GameLoop :=
  let speed : Q := if Qeq_bool (_speed g) 1 then 2%Q else 1%Q in
  let g1 := set_speed speed g in
  let g2 := log [SetTimeScale speed] (set_physics (setTimeScale speed (physics g1)) g1) in
  log [Emit "loop:speed" [("speed", speed)]] g2.

(** The [dt] computed by [_frame(timestamp)] from [this._lastTimestamp]. *)
Definition frame_dt (maxDt lastTimestamp timestamp : Q) : Q :=
  let last := if Qeq_bool lastTimestamp 0 then timestamp else lastTimestamp in
  let dt := (timestamp - last)%Q in
  let dt := if Qle_bool dt maxDt then dt else maxDt in
  if Qle_bool dt 0 then 16.67%Q else dt.

(** [_frame(timestamp)]; [None] when a hook throws out of [physics.step]. *)
Definition _frame (m : Methods) (s : Solver) (timestamp : Q) (g : GameLoop)
    : option GameLoop :=
  match _state g with
  | RUNNING =>
      let dt := frame_dt (_maxDt g) (_lastTimestamp g) timestamp in
      let g1 := set_lastTimestamp timestamp g in
      p ← step m s dt (physics g1);
      let g2 := log [Step dt] (set_physics p g1) in
      let g3 := set_elapsed (_elapsed g2 + dt)%Q g2 in
      let g4 := log [Render; Emit "loop:frame" [("dt", dt); ("elapsed", _elapsed g3)]] g3 in
      Some (requestFrame g4)
  | _ => Some g
  end.

(** [dispose()] *)
Definition dispose (g : GameLoop) : GameLoop := set_state STOPPED (cancelFrame g).

(** The frames the host delivers, in order, to a loop. *)
Fixpoint frames (m : Methods) (s : Solver) (timestamps : list Q) (g : GameLoop)
    : option GameLoop :=
  match timestamps with
  | [] => Some g
  | t :: rest => g' ← _frame m s t g; frames m s rest g'
  end.

(** The calls a user of the loop and the host make, and a run of them in
    order. *)
Inductive Command : Type :=
| DoPlay
| DoPause
| DoReset
| DoCycleSpeed
| DoFrame (timestamp : Q)
| DoDispose.

Definition run_command (m : Methods) (s : Solver) (c : Command) (g : GameLoop)
    : option GameLoop :=
  match c with
  | DoPlay => Some (play g)
  | DoPause => Some (pause g)
  | DoReset => Some (reset g)
  | DoCycleSpeed => Some (cycleSpeed g)
  | DoFrame t => _frame m s t g
  | DoDispose => Some (dispose g)
  end.

Definition run_commands (m : Methods) (s : Solver) (cs : list Command) (g : GameLoop)
    : option GameLoop :=
  for_each (run_command m s) cs g.

(** *** Notions used to state properties *)


Definition steps_of (fx : list Effect) : list Q :=
  omap (λ x, match x with Step dt => Some dt | _ => None end) fx.

(** The [dt] of a frame in terms of the timestamp the loop holds from before
    ([0] when it holds none) and the timestamp of the frame. *)
Definition clamped_dt (previous timestamp : Q) : Q :=
  if Qeq_bool previous 0 then 16.67%Q
  else
    let raw := (timestamp - previous)%Q in
    if Qle_bool raw 0 then 16.67%Q
    else if Qle_bool raw 50 then raw else 50%Q.

(** The [dt] of a frame in the words of the specification: nominal on the
    first frame after starting and when the raw delta is not positive,
    otherwise the raw delta capped at 50 ms. *)
Definition specified_dt (first_frame : bool) (previous timestamp : Q) : Q :=
  if first_frame then 16.67%Q
  else
    let raw := (timestamp - previous)%Q in
    if Qle_bool raw 0 then 16.67%Q
    else if Qle_bool raw 50 then raw else 50%Q.

(** A loop over the sample world of two balls. *)
Definition sample_loop : GameLoop := create two_balls 1.

(** *** Reading the effects of a run *)

(** The simulated time since the snapshot was last taken or restored: the
    sum of the [dt] of the steps made since. *)
Definition elapsed_of (fx : list Effect) : Q :=
  foldl (λ acc x, match x with
                  | TakeSnapshot | RestoreSnapshot => 0%Q
                  | Step dt => (acc + dt)%Q
                  | _ => acc
                  end) 0%Q fx.

Definition in_range (dt : Q) : Prop := (0 < dt)%Q ∧ (dt <= 50)%Q.



(** *** Invariants of the loop *)

Definition steps_bounded (g : GameLoop) : Prop :=
  _maxDt g = 50%Q ∧ Forall in_range (steps_of (effects g)).

Definition frame_pending (g : GameLoop) : Prop :=
  _state g = RUNNING ↔ is_Some (_rafId g).

Definition elapsed_accounted (g : GameLoop) : Prop := _elapsed g = elapsed_of (effects g).



(** *** Sample runs *)

(** A first frame, a frame 200 ms later, a pause during which a frame
    arrives, and a resumption. *)
Definition sample_run : list Command :=
  [DoPlay; DoFrame 1000; DoFrame 1200; DoPause; DoFrame 1216; DoPlay; DoFrame 1300].


End GameLoop.

(* ===================================================================== *)
(** ** LevelManager: progress through the levels *)
(* ===================================================================== *)

Module LevelManager.


(** What the manager reads of a loaded level. *)
Record Level : Type := { id : string; name : string }.

(** The manager: the current level ([None] for [null]) and the set of
    completed level ids, in insertion order. *)
Record LevelManager : Type := {
  _currentLevel : option Level;
  _completedLevels : list string;
}.

(** [new LevelManager()] *)
Definition new : LevelManager := {| _currentLevel := None; _completedLevels := [] |}.


(** [getCurrentLevel()] *)
Definition getCurrentLevel (lm : LevelManager) : option Level := _currentLevel lm.










End LevelManager.

(* ===================================================================== *)
(** ** The hooks of the object classes *)
(* ===================================================================== *)

(** [onCollision] and [onBeforeUpdate] of the classes whose hooks keep state
    of their own, each on the fields it reads and writes. *)
Module Hooks.
Import JS PhysicsEngine.

(** The other object of a collision, as the hooks read it: [other.id] and
    [other.type]. *)
Record Other : Type := { other_id : nat; other_type : string }.

(** What the hooks emit on the event bus. *)
Inductive Emitted : Type :=
| BalloonPopped (balloon : nat)
| RopeSevered (rope : nat)
| BucketCaught (bucket object totalCaught : nat).

#[export] Instance Emitted_eq_dec : EqDecision Emitted.
Proof. solve_decision. Defined.

(** [a === s] for a string [s]. *)
Definition strict_eq_string (a : jsval) (s : string) : bool :=
  match a with
  | JString s' => String.eqb s' s
  | _ => false
  end.

(** *** Balloon *)
Module Balloon.

Record Balloon : Type := { id : nat; _popped : bool }.

(** [pop()] *)
Definition pop (b : Balloon) : Balloon * list Emitted :=
  if _popped b then (b, [])
  else ({| id := id b; _popped := true |}, [BalloonPopped (id b)]).

(** [onCollision(other, pair)] *)
Definition onCollision (other : Other) (b : Balloon) : Balloon * list Emitted :=
  if _popped b then (b, [])
  else if String.eqb (other_type other) "scissors" || String.eqb (other_type other) "candle"
       then pop b
       else (b, []).

(** [get isPopped()] *)
Definition isPopped (b : Balloon) : bool := _popped b.

End Balloon.

(** The objects that pop a balloon. *)
Definition pops (other : Other) : bool :=
  String.eqb (other_type other) "scissors" || String.eqb (other_type other) "candle".

(** *** Rope *)
Module Rope.

Record Rope : Type := { id : nat; _severed : bool }.

(** [sever()] *)
Definition sever (r : Rope) : Rope * list Emitted :=
  if _severed r then (r, [])
  else ({| id := id r; _severed := true |}, [RopeSevered (id r)]).

(** [onCollision(other, pair)] *)
Definition onCollision (other : Other) (r : Rope) : Rope * list Emitted :=
  if String.eqb (other_type other) "candle" && negb (_severed r)
  then sever r
  else (r, []).

Definition isSevered (r : Rope) : bool := _severed r.

End Rope.

(** *** Bucket *)
Module Bucket.

(** The sensor body, the [catchType] option ([null] to catch anything) and
    the set of caught ids, in insertion order. *)
Record Bucket : Type := {
  id : nat;
  _sensor : body_id;
  _catchType : jsval;
  _caught : list nat;
}.

(** A contact whose pair involves the sensor and whose other object passes the
    [catchType] filter. *)
Definition catches (b : Bucket) (other : Other) (pair : Pair) : bool :=
  (Nat.eqb (bodyA pair) (_sensor b) || Nat.eqb (bodyB pair) (_sensor b))
  && negb (truthy (_catchType b) && negb (strict_eq_string (_catchType b) (other_type other))).

(** [onCollision(other, pair)] *)
Definition onCollision (other : Other) (pair : Pair) (b : Bucket) : Bucket * list Emitted :=
  if negb (Nat.eqb (bodyA pair) (_sensor b) || Nat.eqb (bodyB pair) (_sensor b)) then (b, [])
  else if truthy (_catchType b) && negb (strict_eq_string (_catchType b) (other_type other))
  then (b, [])
  else if bool_decide (other_id other ∈ _caught b) then (b, [])
  else
    let caught := _caught b ++ [other_id other] in
    ({| id := id b; _sensor := _sensor b; _catchType := _catchType b; _caught := caught |},
     [BucketCaught (id b) (other_id other) (length caught)]).

(** [get caughtCount()] *)
Definition caughtCount (b : Bucket) : nat := length (_caught b).

End Bucket.

(** A run of calls of a hook, with what they emit, in order. *)
Definition run_hooks {S A : Type} (f : A → S → S * list Emitted) (calls : list A) (s : S)
    : S * list Emitted :=
  foldl (λ acc a, let r := f a acc.1 in (r.1, acc.2 ++ r.2)) (s, []) calls.

(** *** Mouse *)
Module Mouse.

Definition MOUSE_WIDTH : Q := 20.
Definition MOUSE_HEIGHT : Q := 12.

(** The walking state of a mouse, and its body. *)
Record Mouse : Type := {
  _speed : Q;
  _direction : Q;
  _isWalking : bool;
  _walkPhase : Q;
  _body : Body;
}.

(** The hooks see the world through
    [Matter.Query.point(Composite.allBodies(engine.world), p)
       .some(b => b !== this._body && b.isStatic)]:
    whether a static body other than the mouse's own covers the point [p]. *)
Definition World : Type := Vector → bool.

(** [_isGrounded(engine)] *)
Definition _isGrounded (static_at : World) (m : Mouse) : bool :=
  let pos := position (_body m) in
  let feetY := (vy pos + MOUSE_HEIGHT / 2 + 2)%Q in
  static_at (mkVector (vx pos) feetY).

(** [onBeforeUpdate(engine)]. What Matter's [Body.setVelocity] does to the
    body of the mouse is a parameter (see [PhysicsEngine.Matter]); the points
    ahead are taken from the position the body has after that call. *)
Definition onBeforeUpdate (setVelocity : Vector → Body → Body) (static_at : World)
    (m : Mouse) : Mouse :=
  let walking := _isGrounded static_at m in
  if negb walking
  then {| _speed := _speed m; _direction := _direction m; _isWalking := walking;
          _walkPhase := _walkPhase m; _body := _body m |}
  else
    let phase := (_walkPhase m + 0.2)%Q in
    let body :=
      setVelocity (mkVector (_speed m * _direction m)%Q (vy (velocity (_body m))))
        (_body m) in
    let pos := position body in
    let aheadX := (vx pos + _direction m * (MOUSE_WIDTH / 2 + 5))%Q in
    let aheadY := vy pos in
    let hitWall := static_at (mkVector aheadX aheadY) in
    let d1 := if hitWall then (_direction m * -1)%Q else _direction m in
    let edgeCheckY := (vy pos + MOUSE_HEIGHT / 2 + 5)%Q in
    let hasGround := static_at (mkVector aheadX edgeCheckY) in
    let d2 := if negb hasGround then (d1 * -1)%Q else d1 in
    {| _speed := _speed m; _direction := d2; _isWalking := walking;
       _walkPhase := phase; _body := body |}.

(** [onCollision(other, pair)] *)
Definition onCollision (other : Other) (m : Mouse) : Mouse :=
  if negb (String.eqb (other_type other) "mouse")
  then {| _speed := _speed m; _direction := (_direction m * -1)%Q;
          _isWalking := _isWalking m; _walkPhase := _walkPhase m;
          _body := _body m |}
  else m.

(** The two points probed ahead of a mouse at [pos] that walks in
    [direction]: at body height, and below it. *)
Definition wall_ahead (static_at : World) (pos : Vector) (direction : Q) : bool :=
  static_at (mkVector (vx pos + direction * (MOUSE_WIDTH / 2 + 5))%Q (vy pos)).

Definition ground_ahead (static_at : World) (pos : Vector) (direction : Q) : bool :=
  static_at (mkVector (vx pos + direction * (MOUSE_WIDTH / 2 + 5))%Q
               (vy pos + MOUSE_HEIGHT / 2 + 5)%Q).

End Mouse.

(** *** Gear *)
Module Gear.

(** [Math.sign] and [Math.abs] on numbers. *)
Definition Math_sign (q : Q) : Q :=
  match (q ?= 0)%Q with
  | Gt => 1
  | Lt => -1
  | Eq => 0
  end.

Definition Math_abs (q : Q) : Q := Qabs q.

(** [this.onCollision(other, pair)] for two gears: the new [_angularSpeed]
    of [other]. *)
Definition onCollision (this_angularSpeed other_angularSpeed : Q) : Q :=
  (- Math_sign other_angularSpeed * Math_abs this_angularSpeed)%Q.

(** What the [collisionStart] listener of the engine does to the angular
    speeds of two gears [A] and [B] of a contact pair:
    [objA.onCollision(objB, pair); objB.onCollision(objA, pair)]. *)
Definition contact (a b : Q) : Q * Q :=
  let b' := onCollision a b in
  let a' := onCollision b' a in
  (a', b').

End Gear.

(** *** Spring *)
Module Spring.

(** [_cooldown] counts frames (it is 0, or 30 counted down by one per
    update), [_compression] runs from 1 down. *)
Record Spring : Type := {
  _platform : body_id;
  _cooldown : nat;
  _triggered : bool;
  _compression : Q;
}.

(** The state the constructor leaves. *)
Definition new (platform : body_id) : Spring :=
  {| _platform := platform; _cooldown := 0; _triggered := false; _compression := 0 |}.

(** [onCollision(other, pair)] *)
Definition onCollision (pair : Pair) (s : Spring) : Spring :=
  if negb (Nat.eqb (_cooldown s) 0) then s
  else
    let hitPlatform := Nat.eqb (bodyA pair) (_platform s) || Nat.eqb (bodyB pair) (_platform s) in
    if hitPlatform && negb (_triggered s)
    then {| _platform := _platform s; _cooldown := _cooldown s; _triggered := true;
            _compression := 1 |}
    else s.

(** [onBeforeUpdate(engine)]: the new state, and whether the spring launched
    (applied its force to the bodies on the platform) during the call. *)
Definition onBeforeUpdate (s : Spring) : Spring * bool :=
  let cooldown := if negb (Nat.eqb (_cooldown s) 0) then pred (_cooldown s) else _cooldown s in
  if _triggered s && negb (Qle_bool (_compression s) 0)
  then
    let compression := (_compression s - 0.08)%Q in
    if Qle_bool compression 0
    then ({| _platform := _platform s; _cooldown := 30; _triggered := false;
             _compression := 0 |}, true)
    else ({| _platform := _platform s; _cooldown := cooldown; _triggered := _triggered s;
             _compression := compression |}, false)
  else ({| _platform := _platform s; _cooldown := cooldown; _triggered := _triggered s;
           _compression := _compression s |}, false).

(** The calls the engine makes on a spring, and a run of them: the final
    state, the number of updates and the number of launches. *)
Inductive Call : Type :=
| Update
| Collide (pair : Pair).

Definition call (c : Call) (s : Spring) : Spring * bool :=
  match c with
  | Update => onBeforeUpdate s
  | Collide p => (onCollision p s, false)
  end.

Definition is_update (c : Call) : bool :=
  match c with Update => true | Collide _ => false end.

Definition run (calls : list Call) (s : Spring) : Spring * list bool :=
  foldl (λ acc c, let r := call c acc.1 in (r.1, acc.2 ++ [r.2])) (s, []) calls.

Definition updates (calls : list Call) : nat := length (List.filter is_update calls).

Definition launches (flags : list bool) : nat := length (List.filter id flags).

End Spring.

End Hooks.

(* ===================================================================== *)
(** * Properties                                                           *)
(* ===================================================================== *)

(** ** Serialisation round trip *)

Module ObjectsSpec.
Import JS Objects.

Lemma js_or_idem v d : js_or (js_or v d) d = js_or v d.
Proof.
  unfold js_or. destruct (truthy v) eqn:E; [by rewrite E|]. by destruct (truthy d).
Qed.

Lemma js_nullish_idem v d : js_nullish (js_nullish v d) d = js_nullish v d.
Proof. destruct v; simpl; try done; by destruct d. Qed.

Lemma js_or_truthy v d d' : truthy d = true → js_or (js_or v d) d' = js_or v d.
Proof.
  unfold js_or. intros Hd. destruct (truthy v) eqn:E; [by rewrite E|]. by rewrite Hd.
Qed.

Lemma js_nullish_number v q d :
  js_nullish (js_nullish v (JNumber q)) d = js_nullish v (JNumber q).
Proof. by destruct v. Qed.

Lemma get_insert_eq (o : jsobject) k v : get (<[k := v]> o) k = v.
Proof. unfold get. by rewrite lookup_insert_eq. Qed.

Lemma get_insert_ne (o : jsobject) k k' v : k ≠ k' → get (<[k := v]> o) k' = get o k'.
Proof. intros. unfold get. by rewrite lookup_insert_ne. Qed.

Lemma get_empty k : get ∅ k = JUndefined.
Proof. unfold get. by rewrite lookup_empty. Qed.

(** Reads of object literals, and the defaults applied a second time. *)
Ltac js_simpl :=
  repeat first
    [ rewrite get_insert_eq
    | rewrite get_insert_ne by done
    | rewrite get_empty
    | rewrite js_or_idem
    | rewrite js_nullish_idem
    | rewrite js_nullish_number
    | rewrite js_or_truthy by done ].

Ltac round_trip_unfold :=
  cbv beta iota zeta delta
    [same_entity round_trip new serialize deserialize
     Ball_new Ramp_new Conveyor_new Fan_new Spring_new Gear_new Pulley_new
     Trampoline_new Domino_new Balloon_new Bucket_new Candle_new Rope_new
     Scissors_new Mouse_new set_field field BaseObject_new
     with_options BaseObject_serialize pose_options dget
     kind _x _y _angle _isFixed _options fields
     d_type d_x d_y d_angle d_isFixed d_options].

(** X1: every class but [Balloon] passes each option its constructor reads
    through [serialize] and [deserialize]: a freshly built object comes back
    with its kind, pose, fixed flag and option fields. *)
Lemma round_trip_but_balloon (k : Kind) x y options rnd rnd' :
  k ≠ Balloon →
  same_entity (round_trip (new k x y options rnd) rnd') (new k x y options rnd).
Proof.
  intros Hk. destruct k; try done; clear Hk.
  all: round_trip_unfold; js_simpl; repeat split; done.
Qed.

(** The lemma at work: a rope with default length and end point. *)
Lemma round_trip_but_balloon_witness :
  same_entity (round_trip (new Rope (JNumber 10) (JNumber 20) ∅ 0) 0)
              (new Rope (JNumber 10) (JNumber 20) ∅ 0).
Proof. apply round_trip_but_balloon. discriminate. Defined.

(** A balloon comes back too when it was built without a (truthy) [radius]
    option. *)
Lemma round_trip_balloon_default_radius x y options rnd rnd' :
  truthy (get options "radius") = false →
  same_entity (round_trip (new Balloon x y options rnd) rnd') (new Balloon x y options rnd).
Proof.
  intros Hr. round_trip_unfold. js_simpl.
  unfold js_or. rewrite Hr. simpl. repeat split; done.
Qed.

(** The concrete case of the specification. *)
Lemma tennis_ball_serialized :
  let data := serialize tennis_ball in
  d_type data = "ball" ∧ d_x data = JNumber 100 ∧ d_y data = JNumber 200 ∧
  dget data "variant" = JString "tennis".
Proof. by vm_compute. Qed.

Lemma tennis_ball_restored :
  let restored := deserialize Ball (serialize tennis_ball) 0 in
  type restored = "ball" ∧ field restored "_variant" = JString "tennis".
Proof. by vm_compute. Qed.

(** C6 (code defect): [Balloon]'s constructor reads [options.radius], and
    [serialize] writes it out with the other options, but
    [Balloon.deserialize] passes only [colorIndex] on: the balloon built with
    radius 30 is restored with the default radius 18, so the round trip does
    not preserve the kind-specific options of every kind. *)
Theorem balloon_round_trip_loses_radius :
  field big_balloon "_radius" = JNumber 30 ∧
  dget (serialize big_balloon) "radius" = JNumber 30 ∧
  field (round_trip big_balloon 0) "_radius" = JNumber 18 ∧
  ¬ same_entity (round_trip big_balloon 0) big_balloon.
Proof.
  split; [by vm_compute|]. split; [by vm_compute|]. split; [by vm_compute|].
  intros (_ & _ & _ & _ & _ & Hf).
  apply (f_equal (λ m, get m "_radius")) in Hf. vm_compute in Hf. discriminate.
Qed.

(** *** A restored object is saved as it was restored *)

(** Reads of object literals, rewritten at the instance found in the goal. *)
Ltac js_reads :=
  repeat match goal with
  | |- context [get (<[?k := ?v]> ?o) ?k] => rewrite (get_insert_eq o k v)
  | |- context [get (<[?k := ?v]> ?o) ?k'] => rewrite (get_insert_ne o k k' v) by discriminate
  | |- context [get ∅ ?k] => rewrite (get_empty k)
  | |- context [js_or (js_or ?v ?d) ?d] => rewrite (js_or_idem v d)
  | |- context [js_nullish (js_nullish ?v ?d) ?d] => rewrite (js_nullish_idem v d)
  | |- context [js_nullish (js_nullish ?v (JNumber ?q)) ?d] => rewrite (js_nullish_number v q d)
  | |- context [js_or (js_or ?v ?d) ?d'] => rewrite (js_or_truthy v d d') by reflexivity
  end.

(** X4: a saved object is stable from the first round trip on. For an object
    of any class (a balloon too) whose angle and fixed flag are values the
    constructor keeps, serialising the object restored from its record gives
    the same record again when that is restored and serialised once more:
    whatever [deserialize] drops or defaults, it does so in the first round
    trip. *)
Theorem serialize_stable_after_round_trip (e : BaseObject) (rnd rnd' : Q) :
  normal e →
  serialize (round_trip (round_trip e rnd) rnd') = serialize (round_trip e rnd).
Proof.
  destruct e as [k x y a fx opts flds]. intros [Ha Hf]. simpl in Ha, Hf.
  destruct k.
  all: round_trip_unfold; f_equal; try (apply (f_equal Some)).
  all: js_reads; rewrite ?Ha, ?Hf; reflexivity.
Qed.

(** The theorem at work: the balloon built with radius 30. *)
Lemma serialize_stable_after_round_trip_witness :
  normal big_balloon ∧
  serialize (round_trip (round_trip big_balloon 0) 0) = serialize (round_trip big_balloon 0).
Proof.
  assert (normal big_balloon) as H by (by vm_compute).
  exact (conj H (serialize_stable_after_round_trip big_balloon 0 0 H)).
Defined.

(** *** Objects placed by the editor *)

(** X29: an object placed by the editor comes back where it was placed. For
    each of the classes of [Kind] but [Balloon] (fourteen classes; the two
    subclasses of [Ball] that registerAllObjects.js declares, [TennisBall]
    and [Baseball], are not among them: their [deserialize] passes on
    [data.options] only, so that an angle set by [setAngle] is not
    restored), an object that was built, then moved by [setPosition] and
    turned by [setAngle] (to an angle that [angle || 0] keeps) is restored by
    [deserialize] from its [serialize()] record with its kind, its new
    position, its angle (0 for a bucket or a candle, which stay upright), its
    fixed flag and its option fields. *)
Theorem placed_object_round_trip (k : Kind) x y options rnd x' y' a' rnd' :
  k ≠ Balloon → js_or a' (JNumber 0) = a' →
  same_entity (round_trip (place x' y' a' (new k x y options rnd)) rnd')
              (place x' y' a' (new k x y options rnd)).
Proof.
  intros Hk Ha. destruct k; try done; clear Hk.
  all: cbv beta iota zeta delta [place Class_setAngle setAngle setPosition];
    round_trip_unfold.
  all: js_simpl; rewrite ?Ha; repeat split; done.
Qed.

(** The theorem at work: a bucket moved to (50, 60) and turned by 0.5. *)
Lemma placed_object_round_trip_witness :
  same_entity
    (round_trip (place (JNumber 50) (JNumber 60) (JNumber 0.5)
                   (new Bucket (JNumber 10) (JNumber 20) ∅ 0)) 0)
    (place (JNumber 50) (JNumber 60) (JNumber 0.5) (new Bucket (JNumber 10) (JNumber 20) ∅ 0)).
Proof. apply placed_object_round_trip; [discriminate|reflexivity]. Defined.

End ObjectsSpec.

(** ** The catalog *)

Module ObjectRegistrySpec.
Import JS ObjectRegistry.

Lemma register_all_app regs1 regs2 r :
  register_all (regs1 ++ regs2) r = register_all regs2 (register_all regs1 r).
Proof. unfold register_all. by rewrite foldl_app. Qed.

Lemma register_lookup_eq type cls md r :
  _registry (register type cls md r) !! type
  = Some {| entry_class := cls; entry_metadata := md |}.
Proof. unfold register. simpl. by rewrite lookup_insert_eq. Qed.

Lemma register_lookup_ne type type' cls md r :
  type ≠ type' → _registry (register type cls md r) !! type' = _registry r !! type'.
Proof. intros. unfold register. simpl. by rewrite lookup_insert_ne. Qed.

(** Registrations of other types leave the entry of a type as it was. *)
Lemma register_all_lookup_other regs r type :
  type ∉ registered_types regs →
  _registry (register_all regs r) !! type = _registry r !! type.
Proof.
  revert r. induction regs as [|[[ty cls] md] regs IH]; intros r Hnot; [done|].
  unfold registered_types in Hnot. rewrite fmap_cons in Hnot. simpl in Hnot.
  apply not_elem_of_cons in Hnot as [Hne Hnot].
  change (register_all ((ty, cls, md) :: regs) r)
    with (register_all regs (register ty cls md r)).
  rewrite IH by done. by apply register_lookup_ne.
Qed.

(** C8: on a registry filled by any sequence of [register] calls, [create]
    throws the unknown-type error for a type none of the calls named, and so
    returns no object; [deserialize] throws its unknown-type error for a record
    of such a type; and for a registered type [create] is the call of the
    constructor registered last for it, on the given coordinates and options
    (an empty object when the options are left out). *)
Theorem create_deserialize_by_registration
    (regs : list (string * ObjectClass * Metadata)) (type : string) (x y : jsval)
    (options : option jsobject) (data : Objects.Data) :
  let r := register_all regs empty in
  (type ∉ registered_types regs →
     create r type x y options = Throw (unknown_type_message type) ∧
     UnknownKindError (create r type x y options) type ∧
     ∀ obj, create r type x y options ≠ Return obj) ∧
  (Objects.d_type data ∉ registered_types regs →
     deserialize r data = Throw (unknown_deserialize_message (Objects.d_type data)) ∧
     UnknownKindError (deserialize r data) (Objects.d_type data)) ∧
  (∀ before after cls md,
     regs = before ++ (type, cls, md) :: after →
     type ∉ registered_types after →
     create r type x y options = construct cls x y (default ∅ options)).
Proof.
  intros r. split; [|split].
  - intros Hnot.
    assert (create r type x y options = Throw (unknown_type_message type)) as Hc.
    { unfold create, r. rewrite register_all_lookup_other by done.
      unfold empty. simpl. by rewrite lookup_empty. }
    split; [done|]. split; [by left|]. intros obj. by rewrite Hc.
  - intros Hnot.
    assert (deserialize r data
            = Throw (unknown_deserialize_message (Objects.d_type data))) as Hd.
    { unfold deserialize, r. rewrite register_all_lookup_other by done.
      unfold empty. simpl. by rewrite lookup_empty. }
    split; [done|]. by right.
  - intros before after cls md -> Hnot. unfold create, r.
    change (before ++ (type, cls, md) :: after)
      with (before ++ [(type, cls, md)] ++ after).
    rewrite !register_all_app.
    rewrite register_all_lookup_other by done.
    change (register_all [(type, cls, md)] (register_all before empty))
      with (register type cls md (register_all before empty)).
    by rewrite register_lookup_eq.
Qed.

(** The theorem at work: with only [Ball] registered, the type of the
    specification's example is unknown and a ball is built by [Ball]'s
    constructor. *)
Lemma create_deserialize_by_registration_witness :
  ("nonexistent" ∉ registered_types [Ball_registration]) ∧
  create (register_all [Ball_registration] empty) "nonexistent" (JNumber 0) (JNumber 0) None
  = Throw (unknown_type_message "nonexistent") ∧
  create (register_all [Ball_registration] empty) "ball" (JNumber 100) (JNumber 200) None
  = Return (Objects.Ball_new (JNumber 100) (JNumber 200) ∅).
Proof.
  pose (data := Objects.mkData "ball" (JNumber 100) (JNumber 200) (JNumber 0)
                  (JBool false) None).
  assert ("nonexistent" ∉ registered_types [Ball_registration]) as Hnot.
  { unfold registered_types, Ball_registration. rewrite fmap_cons, fmap_nil.
    intros H%list_elem_of_singleton. discriminate. }
  split; [exact Hnot|]. split.
  - exact (proj1 (proj1 (create_deserialize_by_registration [Ball_registration]
             "nonexistent" (JNumber 0) (JNumber 0) None data) Hnot)).
  - refine (proj2 (proj2 (create_deserialize_by_registration [Ball_registration]
             "ball" (JNumber 100) (JNumber 200) None data))
             [] [] Ball_class _ eq_refl _).
    unfold registered_types. rewrite fmap_nil. apply not_elem_of_nil.
Defined.

End ObjectRegistrySpec.

(** ** The catalog in registration order *)

Module CatalogSpec.
Import JS ObjectRegistry Catalog.

Section Registry.
Context {Class : Type}.
Implicit Types (r : Registry Class) (s : State Class).

Lemma Map_set_keys type entry r :
  (Map_set type entry r).*1 = if Map_has type r then r.*1 else r.*1 ++ [type].
Proof.
  unfold Map_set. destruct (Map_has type r).
  - induction r as [|p r IH]; [done|]. rewrite !fmap_cons. f_equal; [|exact IH].
    by destruct (decide (p.1 = type)) as [->|].
  - by rewrite fmap_app.
Qed.

Lemma Map_has_spec type r : Map_has type r = true ↔ type ∈ r.*1.
Proof. unfold Map_has. apply bool_decide_eq_true. Qed.

Lemma Map_set_NoDup type entry r : NoDup r.*1 → NoDup (Map_set type entry r).*1.
Proof.
  intros Hnd. rewrite Map_set_keys. destruct (Map_has type r) eqn:Hhas; [done|].
  apply NoDup_app. split; [done|]. split; [|apply NoDup_singleton].
  intros x Hx Hx'. apply list_elem_of_singleton in Hx'. subst x.
  apply Map_has_spec in Hx. congruence.
Qed.

Lemma elem_of_Map_set_keys type type' entry r :
  type' ∈ (Map_set type entry r).*1 ↔ type' = type ∨ type' ∈ r.*1.
Proof.
  rewrite Map_set_keys. destruct (Map_has type r) eqn:Hhas.
  - apply Map_has_spec in Hhas. split; [by right|]. by intros [->|?].
  - rewrite elem_of_app, list_elem_of_singleton. tauto.
Qed.

Lemma elem_of_Map_set type entry r p :
  p ∈ Map_set type entry r ↔ p = (type, entry) ∨ (p.1 ≠ type ∧ p ∈ r).
Proof.
  unfold Map_set. destruct (Map_has type r) eqn:Hhas.
  - apply Map_has_spec in Hhas. rewrite list_elem_of_fmap. split.
    + intros (q & -> & Hq). destruct (decide (q.1 = type)); [by left|by right].
    + intros [->| [Hne Hp] ].
      * apply list_elem_of_fmap in Hhas as (q & -> & Hq). exists q.
        by rewrite decide_True.
      * exists p. by rewrite decide_False.
  - rewrite elem_of_app, list_elem_of_singleton. split.
    + intros [Hp| ->]; [|by left]. right. split; [|done]. intros <-.
      assert (Map_has p.1 r = true); [|congruence].
      apply Map_has_spec, list_elem_of_fmap. by exists p.
    + intros [->| [_ Hp] ]; [by right|by left].
Qed.

Lemma getAll_types s : item_type <$> getAll s = (registry s).*1.
Proof. unfold getAll. rewrite <- list_fmap_compose. done. Qed.

Lemma registry_register_all_snoc (regs : list (string * Class * Metadata)) reg s :
  register_all (regs ++ [reg]) s = register reg.1.1 reg.1.2 reg.2 (register_all regs s).
Proof. unfold register_all. by rewrite foldl_app. Qed.

Lemma register_all_keys (regs : list (string * Class * Metadata)) :
  NoDup (registry (register_all regs new)).*1 ∧
  ∀ type, type ∈ (registry (register_all regs new)).*1 ↔ type ∈ (λ reg, reg.1.1) <$> regs.
Proof.
  induction regs as [|reg regs IH] using rev_ind.
  - split; [apply NoDup_nil_2|]. done.
  - destruct IH as [Hnd Hin]. rewrite registry_register_all_snoc. simpl. split.
    + by apply Map_set_NoDup.
    + intros type. rewrite elem_of_Map_set_keys, Hin, fmap_app, elem_of_app.
      simpl. rewrite list_elem_of_singleton. tauto.
Qed.

(** X5: after any run of [register] calls on a new registry, [getAll()] lists
    every registered type exactly once, [has(type)] tells whether the type was
    registered, and the item listed for a type carries the metadata of the
    last registration of that type. *)
Theorem getAll_lists_each_registered_type_once
    (regs : list (string * Class * Metadata)) (type : string) :
  let s := register_all regs new in
  NoDup (item_type <$> getAll s) ∧
  (type ∈ item_type <$> getAll s ↔ type ∈ (λ reg, reg.1.1) <$> regs) ∧
  (has s type = true ↔ type ∈ (λ reg, reg.1.1) <$> regs) ∧
  (∀ before after cls md,
     regs = before ++ (type, cls, md) :: after →
     type ∉ (λ reg : string * Class * Metadata, reg.1.1) <$> after →
     {| item_type := type; item_displayName := displayName md;
        item_category := category md; item_description := description md |} ∈ getAll s).
Proof.
  intros s. destruct (register_all_keys regs) as [Hnd Hin]. fold s in Hnd, Hin.
  rewrite getAll_types. split; [done|]. split; [apply Hin|]. split.
  - unfold has. rewrite Map_has_spec. apply Hin.
  - intros before after cls md -> Hnot. unfold getAll.
    apply list_elem_of_fmap. exists (type, (cls, md)). split; [done|].
    unfold s. clear s Hnd Hin. induction after as [|reg after IH] using rev_ind.
    + change (before ++ [(type, cls, md)]) with (before ++ [(type, cls, md)]).
      rewrite registry_register_all_snoc. simpl. apply elem_of_Map_set. by left.
    + rewrite app_comm_cons, app_assoc, registry_register_all_snoc. simpl.
      rewrite fmap_app in Hnot. apply not_elem_of_app in Hnot as [Hnot Hreg].
      apply elem_of_Map_set. right. split; [|by apply IH].
      simpl. intros Heq. apply Hreg. simpl. rewrite <- Heq. by left.
Qed.

Lemma getCategories_spec_aux (r : Registry Class) cats0 :
  NoDup cats0 →
  let cats := foldl (λ cats (p : string * (Class * Metadata)),
                 if decide (category p.2.2 ∈ cats) then cats else cats ++ [category p.2.2])
                cats0 r in
  NoDup cats ∧ ∀ c, c ∈ cats ↔ c ∈ cats0 ∨ ∃ p, p ∈ r ∧ category p.2.2 = c.
Proof.
  revert cats0. induction r as [|p r IH]; intros cats0 Hnd; simpl.
  - split; [done|]. intros c. split; [by left|]. intros [?|(p & Hp & _)]; [done|].
    by apply elem_of_nil in Hp.
  - destruct (decide (category p.2.2 ∈ cats0)) as [Hin|Hnot].
    + destruct (IH cats0 Hnd) as [Hnd' Hspec]. split; [done|]. intros c.
      rewrite Hspec. split.
      * intros [?|(q & Hq & Hc)]; [by left|]. right. exists q. split; [by right|done].
      * intros [?|(q & Hq & Hc)]; [by left|].
        apply elem_of_cons in Hq as [->|Hq]; [left; by rewrite <- Hc|].
        right. by exists q.
    + destruct (IH (cats0 ++ [category p.2.2])) as [Hnd' Hspec].
      { apply NoDup_app. split; [done|]. split; [|apply NoDup_singleton].
        intros x Hx Hx'. apply list_elem_of_singleton in Hx'. by subst x. }
      split; [done|]. intros c. rewrite Hspec, elem_of_app, list_elem_of_singleton. split.
      * intros [ [?| ->] |(q & Hq & Hc)]; [by left| |].
        -- right. exists p. split; [by left|done].
        -- right. exists q. split; [by right|done].
      * intros [?|(q & Hq & Hc)]; [by left; left|].
        apply elem_of_cons in Hq as [->|Hq]; [left; by right|].
        right. by exists q.
Qed.

(** [getCategories()] lists the categories of the items, each once. *)
Lemma getCategories_spec s :
  NoDup (getCategories s) ∧
  ∀ c, c ∈ getCategories s ↔ ∃ item, item ∈ getAll s ∧ item_category item = c.
Proof.
  destruct (getCategories_spec_aux (registry s) [] (NoDup_nil_2)) as [Hnd Hspec].
  split; [exact Hnd|]. intros c. unfold getCategories. rewrite Hspec. split.
  - intros [Hc|(p & Hp & Hc)]; [by apply elem_of_nil in Hc|].
    eexists. split; [unfold getAll; apply list_elem_of_fmap; by exists p|exact Hc].
  - intros (item & Hitem & Hc). right. unfold getAll in Hitem.
    apply list_elem_of_fmap in Hitem as (p & -> & Hp). by exists p.
Qed.

(** Grouping a list by a key with values in [cats] only reorders it. *)
Lemma concat_filters_permutation {A} (f : A → string) (cats : list string) (l : list A) :
  NoDup cats → (∀ x, x ∈ l → f x ∈ cats) →
  concat ((λ c, filter (λ x, f x = c) l) <$> cats) ≡ₚ l.
Proof.
  revert l. induction cats as [|c cats IH]; intros l Hnd Hall.
  - destruct l as [|x l]; [done|]. exfalso.
    assert (f x ∈ []) as H by (apply Hall; by left). by apply elem_of_nil in H.
  - apply NoDup_cons in Hnd as [Hc Hnd]. rewrite fmap_cons. simpl.
    etrans; [|apply (filter_app_complement (λ x, f x = c) l)].
    apply Permutation_app; [done|].
    etrans; [|apply (IH (filter (λ x, ¬ f x = c) l) Hnd)].
    + assert (∀ c', c' ∈ cats →
                filter (λ x, f x = c') l
                = filter (λ x, f x = c') (filter (λ x, ¬ f x = c) l)) as Heq.
      { intros c' Hc'. rewrite list_filter_filter. apply list_filter_iff.
        intros x. split; [|by intros [? _]]. intros Hx. split; [done|].
        intros Hxc. apply Hc. by rewrite <- Hxc, Hx. }
      clear IH Hnd Hc Hall. induction cats as [|c' cats IH]; [done|].
      rewrite !fmap_cons. simpl. rewrite <- Heq by (by left).
      apply Permutation_app; [done|]. apply IH. intros c'' Hc''. apply Heq. by right.
    + intros x Hx. apply list_elem_of_filter in Hx as [Hne Hx].
      specialize (Hall x Hx). apply elem_of_cons in Hall as [?|?]; done.
Qed.

(** X6: the categories partition the catalog. [getCategories()] has no
    duplicates, a category is in it exactly when [getByCategory] finds an item
    for it, [getByCategory(c)] holds the items of [getAll()] whose category is
    [c], and the groups of all categories together are [getAll()] up to
    order. *)
Theorem categories_partition_the_catalog (s : State Class) :
  NoDup (getCategories s) ∧
  (∀ c, c ∈ getCategories s ↔ getByCategory c s ≠ []) ∧
  (∀ c item, item ∈ getByCategory c s ↔ item ∈ getAll s ∧ item_category item = c) ∧
  concat ((λ c, getByCategory c s) <$> getCategories s) ≡ₚ getAll s.
Proof.
  destruct (getCategories_spec s) as [Hnd Hspec].
  assert (∀ c item, item ∈ getByCategory c s ↔ item ∈ getAll s ∧ item_category item = c)
    as Hby.
  { intros c item. unfold getByCategory. rewrite list_elem_of_filter. tauto. }
  split; [exact Hnd|]. split; [|split; [exact Hby|]].
  - intros c. rewrite Hspec. split.
    + intros (item & Hitem & Hc) Hnil.
      assert (item ∈ getByCategory c s) as Hin by (by apply Hby).
      rewrite Hnil in Hin. by apply elem_of_nil in Hin.
    + intros Hne. destruct (getByCategory c s) as [|item rest] eqn:E; [done|].
      exists item. apply Hby. rewrite E. by left.
  - apply (concat_filters_permutation item_category); [exact Hnd|].
    intros item Hitem. apply Hspec. by exists item.
Qed.

End Registry.

Lemma to_entry_keys (r : Registry ObjectClass) : (to_entry <$> r).*1 = r.*1.
Proof. rewrite <- list_fmap_compose. done. Qed.

Lemma list_to_map_Map_set type cls md (r : Registry ObjectClass) :
  NoDup r.*1 →
  list_to_map (to_entry <$> Map_set type (cls, md) r)
  = <[type := {| entry_class := cls; entry_metadata := md |}]>
      (list_to_map (to_entry <$> r) : gmap string Entry).
Proof.
  intros Hnd. apply map_eq. intros k. apply option_eq. intros e.
  rewrite <- elem_of_list_to_map
    by (rewrite to_entry_keys; by apply Map_set_NoDup).
  rewrite lookup_insert_Some.
  rewrite <- elem_of_list_to_map by (by rewrite to_entry_keys).
  rewrite !list_elem_of_fmap. split.
  - intros (p & Hp & Hin). apply elem_of_Map_set in Hin as [->|[Hne Hin]].
    + left. by injection Hp as -> ->.
    + right. injection Hp as -> ->. split; [done|]. by exists p.
  - intros [[<- <-]|[Hne (p & Hp & Hin)]].
    + exists (type, (cls, md)). split; [done|]. apply elem_of_Map_set. by left.
    + exists p. split; [done|]. apply elem_of_Map_set. right. split; [|done].
      injection Hp as -> _. done.
Qed.

(** The ordered registry holds the entries of the finite map of
    [ObjectRegistry], and it warns when that one does. *)
Lemma catalog_refines_registry (regs : list (string * ObjectClass * Metadata)) :
  list_to_map (to_entry <$> registry (Catalog.register_all regs Catalog.new))
  = _registry (ObjectRegistry.register_all regs ObjectRegistry.empty) ∧
  warnings (Catalog.register_all regs Catalog.new)
  = console (ObjectRegistry.register_all regs ObjectRegistry.empty).
Proof.
  induction regs as [|reg regs IH] using rev_ind; [done|].
  destruct IH as [IHr IHw]. destruct (register_all_keys regs) as [Hnd Hin].
  rewrite registry_register_all_snoc.
  unfold ObjectRegistry.register_all. rewrite foldl_app. simpl.
  fold (ObjectRegistry.register_all regs ObjectRegistry.empty).
  split.
  - rewrite list_to_map_Map_set by done. by rewrite IHr.
  - rewrite <- IHr, IHw.
    destruct (Map_has reg.1.1 (registry (Catalog.register_all regs Catalog.new))) eqn:Hhas.
    + rewrite decide_True; [done|]. apply Map_has_spec in Hhas.
      apply list_elem_of_fmap in Hhas as (p & Hp & Hin').
      exists (to_entry p).2. apply elem_of_list_to_map; [by rewrite to_entry_keys|].
      apply list_elem_of_fmap. exists p. split; [|done]. unfold to_entry. simpl. by rewrite Hp.
    + rewrite decide_False; [done|]. intros [e He].
      apply elem_of_list_to_map in He; [|by rewrite to_entry_keys].
      apply list_elem_of_fmap in He as (p & Hp & Hin').
      assert (Map_has reg.1.1 (registry (Catalog.register_all regs Catalog.new)) = true);
        [|congruence].
      apply Map_has_spec, list_elem_of_fmap. exists p. split; [|done].
      by injection Hp as -> _.
Qed.

(** X7: [registerAllObjects()] on a new registry overwrites nothing, registers
    17 types in the 4 categories balls, surfaces, machines and triggers (in
    this order), and registers every class under the very string its [type]
    getter returns, so that a record written by [serialize()] is handed back
    to the class that wrote it. *)
Theorem registerAllObjects_registers_each_class_under_its_type :
  let s := registerAllObjects Catalog.new in
  warnings s = [] ∧
  length (getAll s) = 17 ∧
  getCategories s = ["balls"; "surfaces"; "machines"; "triggers"] ∧
  ∀ c : ClassName, ∃ md, Map_get (type_getter c) (registry s) = Some (c, md).
Proof.
  split; [by vm_compute|]. split; [by vm_compute|]. split; [by vm_compute|].
  intros c. destruct c as [[]| |]; eexists; vm_compute; reflexivity.
Qed.

End CatalogSpec.

(** ** The event bus *)

Module EventBusSpec.
Import EventBus.

Section Emit.
Context {payload : Type}.
Variable run : nat → payload → EventBus → completion * EventBus.
Variable event : string.
Variable a : nat.

Lemma set_at_with_sets_alter f a' bus :
  set_at (with_sets (alter f a') bus) a
  = if decide (a' = a) then match sets bus !! a with Some s => f s | None => [] end
    else set_at bus a.
Proof.
  unfold set_at, with_sets. simpl. 
  destruct (decide (a' = a)) as [->|Hne].
  - rewrite lookup_alter_eq. destruct (sets bus !! a); reflexivity.
  - by rewrite lookup_alter_ne.
Qed.

Lemma emit_loop_normal fuel :
  ∀ i data bus called c called' bus',
    emit_loop run fuel event a i data bus called = Some (c, called', bus') →
    c = Normal ∧ ∀ x, x ∈ called → x ∈ called'.
Proof.
  induction fuel as [|fuel IH]; intros i data bus called c called' bus' Hloop.
  - simpl in Hloop. destruct (set_at bus a !! i) as [slot|]; [done|].
    by injection Hloop as <- <- <-.
  - simpl in Hloop. destruct (set_at bus a !! i) as [[cb|]|].
    + apply IH in Hloop as [-> Hsub]. split; [done|].
      intros x Hx. apply Hsub, elem_of_app. by left.
    + by apply IH in Hloop.
    + by injection Hloop as <- <- <-.
Qed.

Lemma emit_loop_calls fuel :
  ∀ i data bus called c called' bus',
    emit_loop run fuel event a i data bus called = Some (c, called', bus') →
    spares_later run fuel event a i data bus →
    ∀ j x, i ≤ j → set_at bus a !! j = Some (Some x) → x ∈ called'.
Proof.
  induction fuel as [|fuel IH]; intros i data bus called c called' bus' Hloop Hspares.
  - simpl in Hloop. destruct (set_at bus a !! i) as [slot|] eqn:Hi; [done|].
    intros j x Hle Hj. apply lookup_ge_None in Hi. apply lookup_lt_Some in Hj. lia.
  - simpl in Hloop, Hspares. destruct (set_at bus a !! i) as [[cb|]|] eqn:Hi.
    + destruct Hspares as [Hkept Hspares]. intros j x Hle Hj.
      destruct (decide (j = i)) as [->|Hji].
      * rewrite Hi in Hj. injection Hj as <-.
        apply emit_loop_normal in Hloop as [_ Hsub].
        apply Hsub, elem_of_app. right. by apply list_elem_of_singleton.
      * apply (IH _ _ _ _ _ _ _ Hloop Hspares j); [lia|]. apply Hkept; [lia|done].
    + intros j x Hle Hj. destruct (decide (j = i)) as [->|Hji]; [congruence|].
      apply (IH _ _ _ _ _ _ _ Hloop Hspares j); [lia|done].
    + intros j x Hle Hj. apply lookup_ge_None in Hi. apply lookup_lt_Some in Hj. lia.
Qed.

Lemma emit_loop_returns fuel :
  ∀ i data bus called,
    length (set_at bus a) ≤ i + fuel → adds_none run fuel event a i data bus →
    ∃ called' bus', emit_loop run fuel event a i data bus called = Some (Normal, called', bus').
Proof.
  induction fuel as [|fuel IH]; intros i data bus called Hlen Hadds.
  - simpl. destruct (set_at bus a !! i) as [slot|] eqn:Hi; [|eauto].
    apply lookup_lt_Some in Hi. lia.
  - simpl in *. destruct (set_at bus a !! i) as [[cb|]|] eqn:Hi; [| |eauto].
    + destruct Hadds as [Hsame Hadds]. apply IH; [|done]. rewrite Hsame. lia.
    + apply IH; [lia|done].
Qed.

End Emit.

(** C10, as amended: [emit] never ends by throwing, whatever the listeners
    do. When no call made during the [emit] unsubscribes a listener of the
    event that is still to be called (a listener may unsubscribe itself, as a
    [once] wrapper does, and the listeners called before it), every listener
    subscribed to the event when [emit] starts is called, whether or not
    listeners before it throw. When no call subscribes a listener to the
    event, [emit] returns after one pass over the slots. *)
Theorem emit_calls_every_kept_listener {payload : Type}
    (run : nat → payload → EventBus → completion * EventBus)
    (event : string) (data : payload) (bus : EventBus) :
  (∀ fuel c called bus',
     emit run fuel event data bus = Some (c, called, bus') →
     c = Normal ∧
     (unsubscribes_none_ahead run fuel event data bus →
      ∀ x, x ∈ listeners_of bus event → x ∈ called)) ∧
  (subscribes_none run (length (slots_of bus event)) event data bus →
   ∃ called bus',
     emit run (length (slots_of bus event)) event data bus = Some (Normal, called, bus')).
Proof.
  unfold emit, listeners_of, slots_of, unsubscribes_none_ahead, subscribes_none.
  destruct (_listeners bus !! event) as [a|] eqn:Ha.
  - split.
    + intros fuel c called bus' Hemit.
      split; [by apply (emit_loop_normal run event a) in Hemit as [-> _]|].
      intros Hspares x Hx. unfold set_values in Hx.
      apply list_elem_of_omap in Hx as (slot & Hin & Hslot). simpl in Hslot. subst slot.
      apply list_elem_of_lookup in Hin as [j Hj].
      apply (emit_loop_calls run event a fuel _ _ _ _ _ _ _ Hemit Hspares j x); [lia|done].
    + intros Hadds. apply (emit_loop_returns run event a); [lia|done].
  - split.
    + intros fuel c called bus' [= <- <- <-]. split; [done|]. intros _ x Hx.
      by apply elem_of_nil in Hx.
    + intros _. eauto.
Qed.

(** The theorem at work: two listeners, the first of which unsubscribes
    itself and throws; both are called and [emit] returns. *)
Lemma emit_calls_every_kept_listener_witness :
  unsubscribes_none_ahead leaving_run 2 "tick" tt two_listeners ∧
  subscribes_none leaving_run 2 "tick" tt two_listeners ∧
  ∃ called bus',
    emit leaving_run 2 "tick" tt two_listeners = Some (Normal, called, bus') ∧
    Fn 0 ∈ called ∧ Fn 1 ∈ called.
Proof.
  assert (unsubscribes_none_ahead leaving_run 2 "tick" tt two_listeners) as Hspares.
  { vm_compute. split; [|done]. intros [|[|j]] c Hlt Hj; [inversion Hlt|exact Hj|exact Hj]. }
  assert (subscribes_none leaving_run 2 "tick" tt two_listeners) as Hadds.
  { by vm_compute. }
  split; [exact Hspares|]. split; [exact Hadds|].
  destruct (emit_calls_every_kept_listener leaving_run "tick" tt two_listeners)
    as [Hcalls Hreturns].
  destruct (Hreturns Hadds) as (called & bus' & Hemit).
  exists called, bus'. change (length (slots_of two_listeners "tick")) with 2 in Hemit.
  split; [exact Hemit|].
  destruct (Hcalls 2 Normal called bus' Hemit) as [_ Hall].
  split; apply (Hall Hspares); vm_compute; apply list_elem_of_In; simpl; tauto.
Defined.

(** C10 as stated fails: the second listener is subscribed when [emit]
    starts, the first one unsubscribes it, and the iteration over the live
    [Set] never calls it. *)
Lemma emit_skips_listener_unsubscribed_earlier :
  Fn 1 ∈ listeners_of two_listeners "tick" ∧
  ∃ bus', emit unsubscribing_run 2 "tick" tt two_listeners = Some (Normal, [Fn 0], bus') ∧
          Fn 1 ∉ [Fn 0].
Proof.
  split.
  - vm_compute. apply list_elem_of_In. right. by left.
  - eexists. split; [vm_compute; reflexivity|].
    intros H. apply list_elem_of_singleton in H. discriminate.
Qed.

(** A thrown error is caught and logged, and the next listener is called. *)
Lemma emit_logs_thrown_error :
  ∃ bus', emit throwing_run 2 "tick" tt two_listeners = Some (Normal, [Fn 0; Fn 1], bus') ∧
          length (console bus') = 1.
Proof. eexists. split; vm_compute; reflexivity. Qed.

(** *** Buses built by [on], [off], [once] and [clear] *)

Lemma elem_of_set_values (s : JSSet) c : c ∈ set_values s ↔ Some c ∈ s.
Proof.
  unfold set_values. rewrite list_elem_of_omap. split.
  - intros (x & Hx & Hid). simpl in Hid. by subst x.
  - intros H. by exists (Some c).
Qed.

Lemma set_values_app (s1 s2 : JSSet) : set_values (s1 ++ s2) = set_values s1 ++ set_values s2.
Proof. unfold set_values. apply omap_app. Qed.

Lemma set_values_add c (s : JSSet) :
  set_values (set_add c s)
  = if decide (c ∈ set_values s) then set_values s else set_values s ++ [c].
Proof.
  unfold set_add, set_has. destruct (decide (c ∈ set_values s)) as [Hin|Hnot].
  - rewrite bool_decide_eq_true_2; [done|]. by apply elem_of_set_values.
  - rewrite bool_decide_eq_false_2; [|by rewrite <- elem_of_set_values].
    by rewrite set_values_app.
Qed.

Lemma set_values_delete c (s : JSSet) :
  set_values (set_delete c s) = filter (λ x, x ≠ c) (set_values s).
Proof.
  induction s as [|slot s IH]; [done|].
  change (set_delete c (slot :: s))
    with ((if decide (slot = Some c) then None else slot) :: set_delete c s).
  destruct slot as [x|].
  - destruct (decide (Some x = Some c)) as [Heq|Hne].
    + injection Heq as ->.
      change (set_values (None :: set_delete c s)) with (set_values (set_delete c s)).
      change (set_values (Some c :: s)) with (c :: set_values s).
      rewrite filter_cons_False by (intros H; by apply H). done.
    + change (set_values (Some x :: set_delete c s)) with (x :: set_values (set_delete c s)).
      change (set_values (Some x :: s)) with (x :: set_values s).
      rewrite filter_cons_True by congruence. by rewrite IH.
  - rewrite decide_False by done. exact IH.
Qed.

Lemma set_at_alter f a a' bus :
  set_at (with_sets (alter f a') bus) a
  = if decide (a' = a) then match sets bus !! a with Some s => f s | None => [] end
    else set_at bus a.
Proof. apply set_at_with_sets_alter. Qed.

Lemma listeners_of_lookup bus ev a :
  _listeners bus !! ev = Some a → listeners_of bus ev = set_values (set_at bus a).
Proof. intros H. unfold listeners_of, slots_of. by rewrite H. Qed.

Lemma listeners_of_none bus ev : _listeners bus !! ev = None → listeners_of bus ev = [].
Proof. intros H. unfold listeners_of, slots_of. by rewrite H. Qed.

(** What [on] does to the listeners and to the map. *)
Lemma on_listeners ev cb bus :
  allocated bus →
  listeners_of (on ev cb bus) ev
  = (if decide (cb ∈ listeners_of bus ev) then listeners_of bus ev
     else listeners_of bus ev ++ [cb]) ∧
  (∀ ev', ev' ≠ ev → listeners_of (on ev cb bus) ev' = listeners_of bus ev') ∧
  is_Some (_listeners (on ev cb bus) !! ev) ∧
  (∀ ev', ev' ≠ ev → _listeners (on ev cb bus) !! ev' = _listeners bus !! ev') ∧
  next_serial (on ev cb bus) = next_serial bus ∧
  allocated (on ev cb bus).
Proof.
  intros (Hsets & Hinj). unfold on.
  destruct (_listeners bus !! ev) as [a|] eqn:Ha.
  - rewrite Ha. destruct (Hsets ev a Ha) as (_ & [s Hs]).
    split; [|split; [|split; [|split; [|split]]]].
    + rewrite (listeners_of_lookup bus ev a Ha).
      rewrite (listeners_of_lookup _ ev a) by done.
      rewrite set_at_alter, decide_True, Hs by done.
      unfold set_at. rewrite Hs. simpl. apply set_values_add.
    + intros ev' Hne. unfold listeners_of, slots_of. simpl.
      destruct (_listeners bus !! ev') as [a'|] eqn:Ha'; [|done].
      rewrite set_at_alter, decide_False; [done|].
      intros ->. apply Hne. by apply (Hinj ev' ev a').
    + simpl. by rewrite Ha.
    + done.
    + done.
    + split; [|exact Hinj]. intros ev0 a0 H0. simpl in H0.
      destruct (Hsets ev0 a0 H0) as [Hlt Hsome]. split; [done|]. simpl.
      destruct (decide (a = a0)) as [->|Hne].
      * rewrite lookup_alter_eq. destruct Hsome as [? ->]. by eexists.
      * by rewrite lookup_alter_ne.
  - simpl. rewrite lookup_insert_eq.
    split; [|split; [|split; [|split; [|split]]]].
    + rewrite (listeners_of_none bus ev Ha). rewrite decide_False by apply not_elem_of_nil.
      unfold listeners_of, slots_of. simpl. rewrite lookup_insert_eq.
      unfold set_at, with_sets. simpl. rewrite lookup_alter_eq, lookup_insert_eq. simpl.
      done.
    + intros ev' Hne. unfold listeners_of, slots_of. simpl.
      rewrite lookup_insert_ne by done.
      destruct (_listeners bus !! ev') as [a'|] eqn:Ha'; [|done].
      destruct (Hsets ev' a' Ha') as (Hlt & _).
      unfold set_at, with_sets. simpl.
      rewrite lookup_alter_ne, lookup_insert_ne by lia. done.
    + simpl. rewrite lookup_insert_eq. by eexists.
    + intros ev' Hne. simpl. by rewrite lookup_insert_ne.
    + done.
    + split.
      * intros ev0 a0 H0. simpl in H0. simpl.
        destruct (decide (ev = ev0)) as [<-|Hne].
        -- rewrite lookup_insert_eq in H0. injection H0 as <-. split; [lia|].
           rewrite lookup_alter_eq, lookup_insert_eq. by eexists.
        -- rewrite lookup_insert_ne in H0 by done.
           destruct (Hsets ev0 a0 H0) as [Hlt Hsome]. split; [lia|].
           rewrite lookup_alter_ne, lookup_insert_ne by lia. done.
      * intros ev0 ev1 a0 H0 H1. simpl in H0, H1.
        destruct (decide (ev = ev0)) as [<-|Hne0], (decide (ev = ev1)) as [<-|Hne1]; [done| | |].
        -- rewrite lookup_insert_eq in H0. rewrite lookup_insert_ne in H1 by done.
           injection H0 as <-. destruct (Hsets ev1 _ H1) as [Hlt _]. lia.
        -- rewrite lookup_insert_eq in H1. rewrite lookup_insert_ne in H0 by done.
           injection H1 as <-. destruct (Hsets ev0 _ H0) as [Hlt _]. lia.
        -- rewrite lookup_insert_ne in H0, H1 by done. by apply (Hinj ev0 ev1 a0).
Qed.

Lemma listeners_of_eq bus bus' ev :
  _listeners bus' !! ev = _listeners bus !! ev → sets bus' = sets bus →
  listeners_of bus' ev = listeners_of bus ev.
Proof. intros H1 H2. unfold listeners_of, slots_of, set_at. by rewrite H1, H2. Qed.

Lemma listeners_of_alter_other f a bus ev :
  (∀ a', _listeners bus !! ev = Some a' → a' ≠ a) →
  listeners_of (with_sets (alter f a) bus) ev = listeners_of bus ev.
Proof.
  intros Hne. unfold listeners_of, slots_of.
  change (_listeners (with_sets (alter f a) bus)) with (_listeners bus).
  destruct (_listeners bus !! ev) as [a'|] eqn:Ha'; [|done].
  rewrite set_at_alter, decide_False; [done|]. intros ->. by apply (Hne a').
Qed.

(** What [off] does to the listeners and to the map. *)
Lemma off_listeners ev cb bus :
  allocated bus →
  listeners_of (off ev cb bus) ev = filter (λ x, x ≠ cb) (listeners_of bus ev) ∧
  (∀ ev', ev' ≠ ev → listeners_of (off ev cb bus) ev' = listeners_of bus ev') ∧
  (is_Some (_listeners bus !! ev) →
     (is_Some (_listeners (off ev cb bus) !! ev) ↔ listeners_of (off ev cb bus) ev ≠ [])) ∧
  (_listeners bus !! ev = None → _listeners (off ev cb bus) !! ev = None) ∧
  (∀ ev', ev' ≠ ev → _listeners (off ev cb bus) !! ev' = _listeners bus !! ev') ∧
  next_serial (off ev cb bus) = next_serial bus ∧
  allocated (off ev cb bus).
Proof.
  intros (Hsets & Hinj). unfold off.
  destruct (_listeners bus !! ev) as [a|] eqn:Ha.
  - destruct (Hsets ev a Ha) as (_ & [s Hs]).
    set (bus1 := with_sets (alter (set_delete cb) a) bus).
    assert (set_at bus1 a = set_delete cb s) as Hat.
    { unfold bus1. rewrite set_at_alter, decide_True, Hs by done. done. }
    assert (set_at bus a = s) as Hat0 by (unfold set_at; by rewrite Hs).
    assert (_listeners bus1 = _listeners bus) as Hl1 by done.
    assert (∀ ev', ev' ≠ ev → listeners_of bus1 ev' = listeners_of bus ev') as Hother.
    { intros ev' Hne. apply listeners_of_alter_other. intros a' Ha' ->.
      apply Hne. by apply (Hinj ev' ev a). }
    assert (listeners_of bus1 ev = filter (λ x, x ≠ cb) (listeners_of bus ev)) as Hsame.
    { rewrite (listeners_of_lookup bus1 ev a) by (by rewrite Hl1).
      rewrite (listeners_of_lookup bus ev a Ha), Hat, Hat0. apply set_values_delete. }
    assert (allocated bus1) as Halloc1.
    { split; [|exact Hinj]. intros ev0 a0 H0.
      destruct (Hsets ev0 a0 H0) as [Hlt Hsome]. split; [done|]. simpl.
      destruct (decide (a = a0)) as [->|Hne].
      - rewrite lookup_alter_eq. destruct Hsome as [? ->]. by eexists.
      - by rewrite lookup_alter_ne. }
    rewrite Hat. unfold set_size. rewrite set_values_delete.
    destruct (length (filter (λ x, x ≠ cb) (set_values s)) =? 0) eqn:Hz.
    + apply Nat.eqb_eq, nil_length_inv in Hz.
      rewrite (listeners_of_lookup bus ev a Ha), Hat0, Hz in *.
      assert (∀ b, _listeners b = delete ev (_listeners bus1) → listeners_of b ev = []) as Hnil.
      { intros b Hb. apply listeners_of_none. by rewrite Hb, lookup_delete_eq. }
      split; [by apply Hnil|]. split; [|split; [|split; [|split; [|split]]]].
      * intros ev' Hne. rewrite <- (Hother ev' Hne). apply listeners_of_eq; [|done].
        simpl. by rewrite lookup_delete_ne.
      * intros _. rewrite Hnil by done. simpl. rewrite lookup_delete_eq.
        split; [by intros [? ?]|done].
      * done.
      * intros ev' Hne. simpl. by rewrite lookup_delete_ne.
      * done.
      * destruct Halloc1 as [Hsets1 Hinj1]. split.
        -- intros ev0 a0 H0. simpl in H0. apply lookup_delete_Some in H0 as [_ H0].
           by apply (Hsets1 ev0 a0).
        -- intros ev0 ev1 a0 H0 H1. simpl in H0, H1.
           apply lookup_delete_Some in H0 as [_ H0]. apply lookup_delete_Some in H1 as [_ H1].
           by apply (Hinj1 ev0 ev1 a0).
    + apply Nat.eqb_neq in Hz. split; [done|]. split; [done|].
      split; [|split; [done|split; [done|split; [done|exact Halloc1]]]].
      intros _. rewrite Hl1, Ha, Hsame. rewrite (listeners_of_lookup bus ev a Ha), Hat0.
      split; [|by eauto]. intros _ Hnil. by rewrite Hnil in Hz.
  - rewrite (listeners_of_none bus ev Ha). split; [done|]. split; [done|].
    split; [by intros [? ?]|]. done.
Qed.

Lemma wf_empty : wf empty.
Proof.
  split.
  - split; intros ev; intros; simpl in *; by rewrite lookup_empty in *.
  - intros ev. rewrite (listeners_of_none empty ev) by apply lookup_empty.
    split; [|split].
    + simpl. rewrite lookup_empty. split; [by intros [? ?]|done].
    + apply NoDup_nil_2.
    + intros n ev' f H. by apply elem_of_nil in H.
Qed.

Lemma wf_on ev cb bus :
  wf bus →
  (∀ n ev' f, cb = OnceWrapper n ev' f → ev' = ev ∧ n < next_serial bus) →
  wf (on ev cb bus).
Proof.
  intros [Halloc Htidy] Hcb.
  destruct (on_listeners ev cb bus Halloc) as (Hsame & Hother & Hkey & Hkeys & Hserial & Halloc').
  split; [exact Halloc'|]. intros ev0. destruct (Htidy ev0) as (Hiff & Hnd & Hwr).
  destruct (decide (ev0 = ev)) as [->|Hne].
  - rewrite Hsame, Hserial. destruct (decide (cb ∈ listeners_of bus ev)) as [Hin|Hnot].
    + split; [|split; [done|done]]. split; [|done]. intros _ Hnil.
      rewrite Hnil in Hin. by apply elem_of_nil in Hin.
    + split; [|split].
      * split; [|done]. intros _ Hnil. destruct (listeners_of bus ev); discriminate Hnil.
      * apply NoDup_app. split; [done|]. split; [|apply NoDup_singleton].
        intros x Hx Hx'. apply list_elem_of_singleton in Hx'. by subst x.
      * intros n ev' f Hin. apply elem_of_app in Hin as [Hin|Hin]; [by apply (Hwr n ev' f)|].
        apply list_elem_of_singleton in Hin. by apply (Hcb n ev' f).
  - rewrite Hother, Hkeys, Hserial by done. done.
Qed.

Lemma wf_off ev cb bus : wf bus → wf (off ev cb bus).
Proof.
  intros [Halloc Htidy].
  destruct (off_listeners ev cb bus Halloc)
    as (Hsame & Hother & Hkey & Hnone & Hkeys & Hserial & Halloc').
  split; [exact Halloc'|]. intros ev0. destruct (Htidy ev0) as (Hiff & Hnd & Hwr).
  destruct (decide (ev0 = ev)) as [->|Hne].
  - rewrite Hserial. split; [|split].
    + destruct (_listeners bus !! ev) as [a|] eqn:Ha.
      * apply Hkey. by eexists.
      * rewrite (Hnone eq_refl), Hsame.
        assert (listeners_of bus ev = []) as ->.
        { destruct (listeners_of bus ev) eqn:E; [done|]. exfalso.
          assert (is_Some (None : option nat)) as [? ?]; [|done].
          apply Hiff. done. }
        split; [by intros [? ?]|done].
    + rewrite Hsame. by apply NoDup_filter.
    + intros n ev' f Hin. rewrite Hsame in Hin. apply list_elem_of_filter in Hin as [_ Hin].
      by apply (Hwr n ev' f).
  - rewrite Hother, Hkeys, Hserial by done. done.
Qed.

Lemma wf_once ev f bus : wf bus → wf (once ev f bus).
Proof.
  intros [Halloc Htidy]. unfold once. apply wf_on.
  - split; [exact Halloc|]. intros ev0. destruct (Htidy ev0) as (Hiff & Hnd & Hwr).
    rewrite (listeners_of_eq bus _ ev0) by done.
    split; [done|]. split; [done|]. intros n ev' f0 Hin.
    destruct (Hwr n ev' f0 Hin) as [-> Hlt]. split; [done|]. simpl. lia.
  - intros n ev' f0 [= <- <- <-]. split; [done|]. simpl. lia.
Qed.

Lemma wf_clear ev bus : wf bus → wf (clear ev bus).
Proof.
  intros [[Hsets Hinj] Htidy].
  assert (∀ ev0, _listeners (clear ev bus) !! ev0 = None ∨
                 _listeners (clear ev bus) !! ev0 = _listeners bus !! ev0) as Hkeys.
  { intros ev0. unfold clear. simpl. destruct ev as [ev|]; [|left; apply lookup_empty].
    destruct (String.eqb ev EmptyString); [left; apply lookup_empty|].
    destruct (decide (ev = ev0)) as [->|Hne].
    - left. apply lookup_delete_eq.
    - right. by apply lookup_delete_ne. }
  split.
  - split.
    + intros ev0 a H0. destruct (Hkeys ev0) as [Hk|Hk]; rewrite Hk in H0; [done|].
      by apply (Hsets ev0 a).
    + intros ev0 ev1 a H0 H1.
      destruct (Hkeys ev0) as [Hk0|Hk0]; rewrite Hk0 in H0; [done|].
      destruct (Hkeys ev1) as [Hk1|Hk1]; rewrite Hk1 in H1; [done|].
      by apply (Hinj ev0 ev1 a).
  - intros ev0. destruct (Hkeys ev0) as [Hk|Hk].
    + rewrite (listeners_of_none _ ev0 Hk), Hk. split; [|split].
      * split; [by intros [? ?]|done].
      * apply NoDup_nil_2.
      * intros n ev' f H. by apply elem_of_nil in H.
    + rewrite (listeners_of_eq bus _ ev0 Hk) by done. rewrite Hk. apply Htidy.
Qed.

Lemma wf_apply_op op bus : wf bus → wf (apply_op op bus).
Proof.
  intros Hwf. destruct op; simpl.
  - apply wf_on; [done|]. intros n ev' f0 [=].
  - by apply wf_off.
  - by apply wf_once.
  - by apply wf_clear.
Qed.

(** Every bus built by the public interface is well formed. *)
Lemma wf_run_ops ops bus : wf bus → wf (run_ops ops bus).
Proof.
  revert bus. induction ops as [|op ops IH]; intros bus Hwf; [done|].
  simpl. apply IH. by apply wf_apply_op.
Qed.

(** X8: on a bus built by [on], [off], [once] and [clear], an event is a key of
    [_listeners] exactly when it has a listener ([off] removes the key with
    the last listener), and no listener is subscribed to an event twice. *)
Theorem registered_events_have_listeners (ops : list Op) (ev : string) :
  let bus := run_ops ops empty in
  (is_Some (_listeners bus !! ev) ↔ listeners_of bus ev ≠ []) ∧
  NoDup (listeners_of bus ev).
Proof.
  intros bus. destruct (wf_run_ops ops empty wf_empty) as [_ Htidy].
  by destruct (Htidy ev) as (Hiff & Hnd & _).
Qed.

(** X9: on such a bus, [on(event, f)] leaves the listeners of [event] as they
    are when [f] is subscribed already, adds [f] behind them when it is not,
    and leaves the listeners of every other event alone. *)
Theorem on_appends_unless_subscribed (ops : list Op) (ev : string) (f : nat) :
  let bus := run_ops ops empty in
  (Fn f ∈ listeners_of bus ev → listeners_of (on ev (Fn f) bus) ev = listeners_of bus ev) ∧
  (Fn f ∉ listeners_of bus ev →
     listeners_of (on ev (Fn f) bus) ev = listeners_of bus ev ++ [Fn f]) ∧
  (∀ ev', ev' ≠ ev → listeners_of (on ev (Fn f) bus) ev' = listeners_of bus ev').
Proof.
  intros bus. destruct (wf_run_ops ops empty wf_empty) as [Halloc _].
  destruct (on_listeners ev (Fn f) bus Halloc) as (Hsame & Hother & _).
  split; [|split; [|done]].
  - intros Hin. by rewrite Hsame, decide_True.
  - intros Hnot. by rewrite Hsame, decide_False.
Qed.

(** X10: on such a bus, [off(event, f)] removes [f] from the listeners of
    [event], keeps the others in their order and the listeners of every other
    event as they are; it changes nothing when [f] is not subscribed, and
    after [on(event, f)] it leaves what it leaves without that call. *)
Theorem off_removes_listener (ops : list Op) (ev : string) (f : nat) :
  let bus := run_ops ops empty in
  listeners_of (off ev (Fn f) bus) ev = filter (λ x, x ≠ Fn f) (listeners_of bus ev) ∧
  (∀ ev', ev' ≠ ev → listeners_of (off ev (Fn f) bus) ev' = listeners_of bus ev') ∧
  (Fn f ∉ listeners_of bus ev →
     ∀ ev', listeners_of (off ev (Fn f) bus) ev' = listeners_of bus ev') ∧
  (∀ ev', listeners_of (off ev (Fn f) (on ev (Fn f) bus)) ev'
          = listeners_of (off ev (Fn f) bus) ev').
Proof.
  intros bus. destruct (wf_run_ops ops empty wf_empty) as [Halloc _].
  destruct (off_listeners ev (Fn f) bus Halloc) as (Hsame & Hother & _).
  assert (∀ l : list callback, Fn f ∉ l → filter (λ x, x ≠ Fn f) l = l) as Hfilter.
  { induction l as [|x l IH]; intros Hnot; [done|].
    apply not_elem_of_cons in Hnot as [Hne Hnot].
    rewrite filter_cons_True by congruence. by rewrite IH. }
  split; [done|]. split; [done|]. split.
  - intros Hnot ev'. destruct (decide (ev' = ev)) as [->|Hne]; [|by apply Hother].
    rewrite Hsame. by apply Hfilter.
  - intros ev'.
    destruct (on_listeners ev (Fn f) bus Halloc) as (Hon & Hon_other & _ & _ & _ & Halloc').
    destruct (off_listeners ev (Fn f) (on ev (Fn f) bus) Halloc') as (Hoff & Hoff_other & _).
    destruct (decide (ev' = ev)) as [->|Hne].
    + rewrite Hoff, Hon, Hsame. destruct (decide (Fn f ∈ listeners_of bus ev)); [done|].
      rewrite filter_app, filter_cons_False by (intros H; by apply H).
      by rewrite filter_nil, app_nil_r.
    + by rewrite Hoff_other, Hon_other, Hother.
Qed.

(** *** [emit] with listeners that leave the bus alone *)

(** The listeners left when the [once] wrappers are gone. *)
Lemma set_values_retire (s : JSSet) :
  set_values (retire <$> s) = filter is_plain (set_values s).
Proof.
  induction s as [|slot s IH]; [done|]. rewrite fmap_cons.
  destruct slot as [[id|n ev' f]|].
  - change (set_values (retire (Some (Fn id)) :: (retire <$> s)))
      with (Fn id :: set_values (retire <$> s)).
    change (set_values (Some (Fn id) :: s)) with (Fn id :: set_values s).
    rewrite filter_cons_True by done. by rewrite IH.
  - change (set_values (retire (Some (OnceWrapper n ev' f)) :: (retire <$> s)))
      with (set_values (retire <$> s)).
    change (set_values (Some (OnceWrapper n ev' f) :: s))
      with (OnceWrapper n ev' f :: set_values s).
    rewrite filter_cons_False by (intros H; exact H). exact IH.
  - exact IH.
Qed.

Lemma set_delete_fresh cb (s : JSSet) : cb ∉ set_values s → set_delete cb s = s.
Proof.
  induction s as [|slot s IH]; intros Hnot; [done|].
  change (set_delete cb (slot :: s))
    with ((if decide (slot = Some cb) then None else slot) :: set_delete cb s).
  destruct slot as [x|].
  - change (set_values (Some x :: s)) with (x :: set_values s) in Hnot.
    apply not_elem_of_cons in Hnot as [Hne Hnot].
    rewrite decide_False by congruence. by rewrite IH.
  - rewrite decide_False by done. by rewrite IH.
Qed.

Lemma set_delete_app cb (s1 s2 : JSSet) :
  set_delete cb (s1 ++ s2) = set_delete cb s1 ++ set_delete cb s2.
Proof. unfold set_delete. apply fmap_app. Qed.

Section Quiet.
Context {payload : Type}.
Variable outcome : nat → payload → completion.
Variable run : nat → payload → EventBus → completion * EventBus.
Hypothesis Hquiet : quiet_with outcome run.
Variable ev : string.
Variable data : payload.
Variable bus : EventBus.
Variable a : nat.
Hypothesis Hwf : wf bus.
Hypothesis Hkey : _listeners bus !! ev = Some a.

Lemma quiet_set_allocated : is_Some (sets bus !! a).
Proof. destruct Hwf as [[Hsets _] _]. by destruct (Hsets ev a Hkey). Qed.

Lemma quiet_set_NoDup : NoDup (set_values (set_at bus a)).
Proof.
  destruct Hwf as [_ Htidy]. destruct (Htidy ev) as (_ & Hnd & _).
  by rewrite (listeners_of_lookup bus ev a Hkey) in Hnd.
Qed.

Lemma quiet_wrapper_placed n ev' f : OnceWrapper n ev' f ∈ set_values (set_at bus a) → ev' = ev.
Proof.
  destruct Hwf as [_ Htidy]. destruct (Htidy ev) as (_ & _ & Hwr).
  rewrite (listeners_of_lookup bus ev a Hkey) in Hwr. intros Hin.
  by destruct (Hwr n ev' f Hin).
Qed.

Lemma quiet_set_nonempty : set_values (set_at bus a) ≠ [].
Proof.
  destruct Hwf as [_ Htidy]. destruct (Htidy ev) as (Hiff & _).
  rewrite (listeners_of_lookup bus ev a Hkey) in Hiff. apply Hiff. by eexists.
Qed.

Lemma visited_start : visited outcome ev data bus a 0 bus.
Proof.
  unfold visited, core, logged. rewrite take_0, drop_0. simpl. rewrite app_nil_r.
  pose proof quiet_set_allocated. pose proof quiet_set_nonempty.
  repeat split; try done. by left.
Qed.

Lemma take_S_lookup {A} (l : list A) i x : l !! i = Some x → take (S i) l = take i l ++ [x].
Proof. intros H. by apply take_S_r. Qed.

Lemma visited_skip i b :
  visited outcome ev data bus a i b → set_at bus a !! i = Some None →
  visited outcome ev data bus a (S i) b.
Proof.
  intros [(Hat & Hs & Hl & Hsets & Hk & Hn) Hc] Hi. unfold visited, core, logged.
  rewrite (take_S_lookup _ _ _ Hi), fmap_app, set_values_app. simpl.
  rewrite app_nil_r, <- app_assoc. simpl.
  rewrite <- (drop_S _ _ _ Hi). repeat split; try done. all: apply Hn.
Qed.

(** The log after the call of the listener at slot [i]. *)
Lemma logged_call i b b1 cb :
  logged outcome ev data bus a i b → console b1 = console b →
  set_at bus a !! i = Some (Some cb) →
  logged outcome ev data bus a (S i)
    (match outcome (target cb) data with
     | Normal => b1
     | Thrown err => console_error ev err b1
     end).
Proof.
  intros Hc Hcon Hi. unfold logged in *.
  rewrite (take_S_lookup _ _ _ Hi), set_values_app, omap_app.
  change (set_values [Some cb]) with [cb]. simpl.
  unfold error_line at 2. destruct (outcome (target cb) data) as [|err].
  - by rewrite app_nil_r, Hcon.
  - unfold console_error. simpl. by rewrite Hcon, Hc, <- app_assoc.
Qed.

Lemma core_call i b1 cb :
  core ev bus a i b1 →
  core ev bus a i
    (match outcome (target cb) data with
     | Normal => b1
     | Thrown err => console_error ev err b1
     end).
Proof. intros H. by destruct (outcome (target cb) data). Qed.

Lemma visited_plain i b id :
  visited outcome ev data bus a i b → set_at bus a !! i = Some (Some (Fn id)) →
  visited outcome ev data bus a (S i) (try_call run ev (Fn id) data b).
Proof.
  intros [Hcore Hc] Hi. unfold try_call, invoke. rewrite Hquiet.
  split; [|by apply (logged_call i b b (Fn id))].
  apply (core_call (S i) b (Fn id)).
  destruct Hcore as (Hat & Hs & Hl & Hsets & Hk & Hn). unfold core.
  rewrite (take_S_lookup _ _ _ Hi), fmap_app. simpl.
  rewrite <- (app_assoc (retire <$> take i (set_at bus a))). simpl.
  rewrite <- (drop_S _ _ _ Hi). repeat split; try done. all: apply Hn.
Qed.

Lemma core_off i b n ev' f :
  core ev bus a i b → set_at bus a !! i = Some (Some (OnceWrapper n ev' f)) →
  ev' = ev ∧ core ev bus a (S i) (off ev (OnceWrapper n ev' f) b) ∧
  console (off ev (OnceWrapper n ev' f) b) = console b.
Proof.
  intros (Hat & Hs & Hl & Hsets & Hk & Hn) Hi.
  set (cb := OnceWrapper n ev' f) in *.
  assert (ev' = ev) as Hev.
  { apply (quiet_wrapper_placed n ev' f). apply elem_of_set_values.
    by apply list_elem_of_lookup_2 in Hi. }
  split; [exact Hev|].
  assert (set_at bus a = take i (set_at bus a) ++ Some cb :: drop (S i) (set_at bus a)) as Hsplit.
  { by rewrite (take_drop_middle _ _ _ Hi). }
  assert ((cb ∉ set_values (take i (set_at bus a))) ∧
          (cb ∉ set_values (drop (S i) (set_at bus a)))) as [Hbefore Hafter].
  { pose proof quiet_set_NoDup as Hnd. rewrite Hsplit in Hnd. rewrite set_values_app in Hnd.
    change (set_values (Some cb :: drop (S i) (set_at bus a)))
      with (cb :: set_values (drop (S i) (set_at bus a))) in Hnd.
    apply NoDup_app in Hnd as (_ & Hdisj & Hnd2).
    apply NoDup_cons in Hnd2 as [Hnot _]. split; [|done].
    intros Hin. apply (Hdisj cb Hin). by left. }
  assert (cb ∉ set_values (retire <$> take i (set_at bus a))) as Hbefore'.
  { rewrite set_values_retire. intros Hin. by apply list_elem_of_filter in Hin as [_ Hin]. }
  destruct Hk as [[Hk _]|[Hk Hnil]].
  2: { exfalso. rewrite Hat, (drop_S _ _ _ Hi), set_values_app in Hnil.
       change (set_values (Some cb :: drop (S i) (set_at bus a)))
         with (cb :: set_values (drop (S i) (set_at bus a))) in Hnil.
       by destruct (set_values (retire <$> take i (set_at bus a))). }
  set (b1 := with_sets (alter (set_delete cb) a) b).
  assert (set_at b1 a
          = (retire <$> take (S i) (set_at bus a)) ++ drop (S i) (set_at bus a)) as Hat1.
  { unfold b1. rewrite set_at_alter, decide_True by done. destruct Hs as [s Hs].
    rewrite Hs. assert (s = set_at b a) as -> by (unfold set_at; by rewrite Hs).
    rewrite Hat, (drop_S _ _ _ Hi), set_delete_app.
    rewrite (set_delete_fresh cb _ Hbefore').
    change (set_delete cb (Some cb :: drop (S i) (set_at bus a)))
      with ((if decide (Some cb = Some cb) then None else Some cb)
              :: set_delete cb (drop (S i) (set_at bus a))).
    rewrite decide_True by done. rewrite (set_delete_fresh cb _ Hafter).
    rewrite (take_S_lookup _ _ _ Hi), fmap_app, <- app_assoc. done. }
  assert (is_Some (sets b1 !! a)) as Hs1.
  { unfold b1. simpl. rewrite lookup_alter_eq. destruct Hs as [s ->]. by eexists. }
  assert (∀ a', a' ≠ a → sets b1 !! a' = sets bus !! a') as Hsets1.
  { intros a' Hne. unfold b1. simpl. rewrite lookup_alter_ne by done. by apply Hsets. }
  unfold off. rewrite Hk. fold b1.
  destruct (set_size (set_at b1 a) =? 0) eqn:Hz.
  - apply Nat.eqb_eq in Hz. unfold set_size in Hz. apply nil_length_inv in Hz.
    split; [|done]. unfold core.
    change (set_at (mkBus (delete ev (_listeners b1)) (sets b1) (next_set b1)
                      (next_serial b1) (console b1)) a) with (set_at b1 a).
    split; [exact Hat1|]. split; [exact Hs1|]. split.
    { intros ev0 Hne. simpl. rewrite lookup_delete_ne by done. by apply Hl. }
    split; [exact Hsets1|]. split; [|exact Hn]. right. simpl. by rewrite lookup_delete_eq.
  - split; [|done]. unfold core. split; [exact Hat1|]. split; [exact Hs1|].
    split; [exact Hl|]. split; [exact Hsets1|]. split; [|exact Hn]. left. split; [done|].
    apply Nat.eqb_neq in Hz. unfold set_size in Hz. intros Hnil. by rewrite Hnil in Hz.
Qed.

Lemma visited_wrapper i b n ev' f :
  visited outcome ev data bus a i b → set_at bus a !! i = Some (Some (OnceWrapper n ev' f)) →
  visited outcome ev data bus a (S i) (try_call run ev (OnceWrapper n ev' f) data b).
Proof.
  intros [Hcore Hc] Hi. unfold try_call, invoke. rewrite Hquiet.
  destruct (core_off i b n ev' f Hcore Hi) as (-> & Hcore' & Hcon).
  split.
  - by apply (core_call (S i) _ (OnceWrapper n ev f)).
  - by apply (logged_call i b _ (OnceWrapper n ev f)).
Qed.

(** The loop of [emit] with quiet listeners: with fuel for the slots that are
    left it calls the listeners of these slots and ends. *)
Lemma emit_loop_quiet fuel :
  ∀ i b called,
    visited outcome ev data bus a i b → length (set_at bus a) ≤ i + fuel →
    ∃ b', emit_loop run fuel ev a i data b called
          = Some (Normal, called ++ set_values (drop i (set_at bus a)), b') ∧
          visited outcome ev data bus a (length (set_at bus a)) b'.
Proof.
  induction fuel as [|fuel IH]; intros i b called Hv Hlen.
  - assert (set_at b a !! i = None) as Hi.
    { destruct Hv as [(Hat & _) _]. apply lookup_ge_None. rewrite Hat.
      rewrite length_app, length_fmap, length_take, length_drop. lia. }
    simpl. rewrite Hi. exists b. rewrite drop_ge by lia.
    rewrite app_nil_r. split; [done|].
    assert (i = length (set_at bus a) ∨ length (set_at bus a) < i) as [->|Hlt] by lia; [done|].
    destruct Hv as [(Hat & Hs & Hl & Hsets & Hk & Hn) Hc]. unfold visited, core, logged in *.
    rewrite take_ge, drop_ge in * by lia. done.
  - destruct Hv as [Hcore Hc]. pose proof Hcore as (Hat & _).
    assert (set_at b a !! i = set_at bus a !! i) as Hi.
    { rewrite Hat. rewrite lookup_app_r; rewrite length_fmap, length_take.
      - destruct (decide (i ≤ length (set_at bus a))) as [Hle|Hgt].
        + rewrite Nat.min_l by done. rewrite Nat.sub_diag, lookup_drop. f_equal. lia.
        + rewrite lookup_drop. rewrite !lookup_ge_None_2; [done|lia|lia].
      - lia. }
    simpl. rewrite Hi.
    destruct (set_at bus a !! i) as [[cb|]|] eqn:Hslot.
    + destruct (IH (S i) (try_call run ev cb data b) (called ++ [cb])) as (b' & Hloop & Hv').
      * destruct cb as [id|n ev' f]; [by apply visited_plain|by apply visited_wrapper].
      * lia.
      * exists b'. split; [|done]. rewrite Hloop. f_equal. f_equal. f_equal.
        rewrite (drop_S _ _ _ Hslot), <- app_assoc. done.
    + destruct (IH (S i) b called) as (b' & Hloop & Hv').
      * by apply visited_skip.
      * lia.
      * exists b'. split; [|done]. rewrite Hloop. by rewrite (drop_S _ _ _ Hslot).
    + exists b. apply lookup_ge_None in Hslot. rewrite drop_ge by done.
      rewrite app_nil_r. split; [done|].
      assert (i = length (set_at bus a) ∨ length (set_at bus a) < i) as [->|Hlt] by lia;
        [done|].
      destruct Hcore as (Hat' & Hs & Hl & Hsets & Hk & Hn). unfold visited, core, logged in *.
      rewrite take_ge, drop_ge in * by lia. done.
Qed.

(** What the bus is after the loop. *)
Lemma visited_end b' :
  visited outcome ev data bus a (length (set_at bus a)) b' →
  listeners_of b' ev = filter is_plain (listeners_of bus ev) ∧
  (∀ ev', ev' ≠ ev → listeners_of b' ev' = listeners_of bus ev') ∧
  console b'
  = console bus ++ omap (error_line outcome ev data) (listeners_of bus ev) ∧
  wf b'.
Proof.
  intros [(Hat & Hs & Hl & Hsets & Hk & Hns & Hnr) Hc].
  rewrite take_ge, drop_ge, app_nil_r in Hat by lia.
  unfold logged in Hc. rewrite take_ge in Hc by lia.
  rewrite (listeners_of_lookup bus ev a Hkey).
  destruct Hwf as [[Halloc Hinj] Htidy].
  assert (listeners_of b' ev = filter is_plain (set_values (set_at bus a))) as Hsame.
  { destruct Hk as [[Hk _]|[Hk Hnil]].
    - rewrite (listeners_of_lookup b' ev a Hk), Hat. apply set_values_retire.
    - rewrite (listeners_of_none b' ev Hk). by rewrite <- set_values_retire, <- Hat. }
  assert (∀ ev', ev' ≠ ev → listeners_of b' ev' = listeners_of bus ev') as Hother.
  { intros ev' Hne. unfold listeners_of, slots_of. rewrite (Hl ev' Hne).
    destruct (_listeners bus !! ev') as [a'|] eqn:Ha'; [|done].
    unfold set_at. rewrite Hsets; [done|]. intros ->. apply Hne. by apply (Hinj ev' ev a). }
  split; [exact Hsame|]. split; [exact Hother|]. split; [exact Hc|].
  split.
  - split.
    + intros ev0 a0 H0. destruct (decide (ev0 = ev)) as [->|Hne].
      * destruct Hk as [[Hk _]|[Hk _]]; rewrite Hk in H0; [|done]. injection H0 as <-.
        split; [|done]. rewrite Hns. by destruct (Halloc ev a Hkey).
      * rewrite (Hl ev0 Hne) in H0. destruct (Halloc ev0 a0 H0) as [Hlt Hsome0].
        split; [by rewrite Hns|]. destruct (decide (a0 = a)) as [->|Hna]; [done|].
        by rewrite Hsets.
    + intros ev0 ev1 a0 H0 H1.
      assert (∀ e0, _listeners b' !! e0 = Some a0 → _listeners bus !! e0 = Some a0) as Hback.
      { intros e0 He0. destruct (decide (e0 = ev)) as [->|Hne]; [|by rewrite <- Hl].
        destruct Hk as [[Hk _]|[Hk _]]; rewrite Hk in He0; [|done]. by injection He0 as <-. }
      by apply (Hinj ev0 ev1 a0); apply Hback.
  - intros ev0. destruct (decide (ev0 = ev)) as [->|Hne].
    + rewrite Hsame. split; [|split].
      * destruct Hk as [[Hk Hne]|[Hk Hnil]]; rewrite Hk.
        -- split; [|by eauto]. intros _. by rewrite <- set_values_retire, <- Hat.
        -- split; [by intros [? ?]|]. intros Hne. exfalso. apply Hne.
           by rewrite <- set_values_retire, <- Hat.
      * apply NoDup_filter, quiet_set_NoDup.
      * intros n ev' f Hin. by apply list_elem_of_filter in Hin as [Hp _].
    + rewrite (Hother ev0 Hne), (Hl ev0 Hne), Hnr. apply Htidy.
Qed.

End Quiet.

(** [emit] on a well-formed bus with quiet listeners. *)
Lemma emit_quiet {payload : Type} (outcome : nat → payload → completion)
    (run : nat → payload → EventBus → completion * EventBus) ev data bus :
  quiet_with outcome run → wf bus →
  ∃ bus',
    emit run (length (slots_of bus ev)) ev data bus
    = Some (Normal, listeners_of bus ev, bus') ∧
    listeners_of bus' ev = filter is_plain (listeners_of bus ev) ∧
    (∀ ev', ev' ≠ ev → listeners_of bus' ev' = listeners_of bus ev') ∧
    console bus'
    = console bus ++ omap (error_line outcome ev data) (listeners_of bus ev) ∧
    wf bus'.
Proof.
  intros Hquiet Hwf. unfold emit.
  destruct (_listeners bus !! ev) as [a|] eqn:Ha.
  - destruct (emit_loop_quiet outcome run Hquiet ev data bus a Hwf Ha
                (length (slots_of bus ev)) 0 bus [])
      as (b' & Hloop & Hv).
    + by apply visited_start.
    + unfold slots_of. rewrite Ha. lia.
    + exists b'. rewrite drop_0 in Hloop. simpl in Hloop.
      rewrite (listeners_of_lookup bus ev a Ha). split; [exact Hloop|].
      rewrite <- (listeners_of_lookup bus ev a Ha).
      by apply (visited_end outcome ev data bus a Hwf Ha).
  - exists bus. rewrite (listeners_of_none bus ev Ha).
    split; [done|]. split; [done|]. split; [done|]. split; [|done].
    simpl. by rewrite app_nil_r.
Qed.

(** X11: with listeners that do not use the bus themselves, [emit] on a bus
    built by [on], [off], [once] and [clear] returns, having called every
    listener of the event in subscription order; afterwards the [once]
    listeners of the event are gone and the others remain, other events are
    untouched, and a second [emit] calls the remaining listeners only. *)
Theorem once_listeners_fire_once {payload : Type} (outcome : nat → payload → completion)
    (run : nat → payload → EventBus → completion * EventBus) (ops : list Op)
    (ev : string) (data data' : payload) :
  quiet_with outcome run →
  let bus := run_ops ops empty in
  ∃ bus' bus'',
    emit run (length (slots_of bus ev)) ev data bus
    = Some (Normal, listeners_of bus ev, bus') ∧
    listeners_of bus' ev = filter is_plain (listeners_of bus ev) ∧
    (∀ ev', ev' ≠ ev → listeners_of bus' ev' = listeners_of bus ev') ∧
    emit run (length (slots_of bus' ev)) ev data' bus'
    = Some (Normal, filter is_plain (listeners_of bus ev), bus'') ∧
    listeners_of bus'' ev = filter is_plain (listeners_of bus ev).
Proof.
  intros Hquiet bus.
  destruct (emit_quiet outcome run ev data bus Hquiet (wf_run_ops ops empty wf_empty))
    as (bus' & Hemit & Hsame & Hother & _ & Hwf').
  destruct (emit_quiet outcome run ev data' bus' Hquiet Hwf')
    as (bus'' & Hemit' & Hsame' & _).
  exists bus', bus''. split; [exact Hemit|]. split; [exact Hsame|]. split; [exact Hother|].
  rewrite Hsame in Hemit', Hsame'. split; [exact Hemit'|].
  rewrite Hsame'. clear. induction (listeners_of bus ev) as [|x l IH]; [done|].
  destruct (decide (is_plain x)) as [Hp|Hn].
  - rewrite (filter_cons_True is_plain) by done. rewrite filter_cons_True by done.
    by rewrite IH.
  - by rewrite (filter_cons_False is_plain) by done.
Qed.

(** X12: with such listeners, [emit] returns normally whatever the listeners
    throw, and it adds to the console one line for each listener that threw,
    in the order of the calls. *)
Theorem emit_logs_each_thrown_error {payload : Type} (outcome : nat → payload → completion)
    (run : nat → payload → EventBus → completion * EventBus) (ops : list Op)
    (ev : string) (data : payload) :
  quiet_with outcome run →
  let bus := run_ops ops empty in
  ∃ bus',
    emit run (length (slots_of bus ev)) ev data bus
    = Some (Normal, listeners_of bus ev, bus') ∧
    console bus'
    = console bus ++ omap (error_line outcome ev data) (listeners_of bus ev).
Proof.
  intros Hquiet bus.
  destruct (emit_quiet outcome run ev data bus Hquiet (wf_run_ops ops empty wf_empty))
    as (bus' & Hemit & _ & _ & Hcon & _).
  by exists bus'.
Qed.

Lemma throwing_run_quiet : quiet_with throwing_outcome throwing_run.
Proof. intros id data bus. by destruct id. Qed.

(** The theorem at work: three listeners of [tick], the second subscribed with
    [once] and the first throwing. *)
Lemma once_listeners_fire_once_witness :
  listeners_of (run_ops sample_ops empty) "tick" = [Fn 0; OnceWrapper 0 "tick" 1; Fn 2] ∧
  ∃ bus' bus'',
    emit throwing_run (length (slots_of (run_ops sample_ops empty) "tick")) "tick" tt
      (run_ops sample_ops empty)
    = Some (Normal, listeners_of (run_ops sample_ops empty) "tick", bus') ∧
    listeners_of bus' "tick" = [Fn 0; Fn 2] ∧
    emit throwing_run (length (slots_of bus' "tick")) "tick" tt bus'
    = Some (Normal, [Fn 0; Fn 2], bus'').
Proof.
  assert (listeners_of (run_ops sample_ops empty) "tick"
          = [Fn 0; OnceWrapper 0 "tick" 1; Fn 2]) as Hl by (by vm_compute).
  split; [exact Hl|].
  destruct (once_listeners_fire_once throwing_outcome throwing_run sample_ops "tick" tt tt
              throwing_run_quiet) as (bus' & bus'' & Hemit & Hsame & _ & Hemit' & _).
  exists bus', bus''. split; [exact Hemit|].
  rewrite Hl in Hsame, Hemit'. split; [exact Hsame|exact Hemit'].
Defined.

(** The theorem at work: one of the three listeners of [tick] throws. *)
Lemma emit_logs_each_thrown_error_witness :
  ∃ bus',
    emit throwing_run (length (slots_of (run_ops sample_ops empty) "tick")) "tick" tt
      (run_ops sample_ops empty)
    = Some (Normal, listeners_of (run_ops sample_ops empty) "tick", bus') ∧
    length (console bus') = 1.
Proof.
  destruct (emit_logs_each_thrown_error throwing_outcome throwing_run sample_ops "tick" tt
              throwing_run_quiet) as (bus' & Hemit & Hcon).
  exists bus'. split; [exact Hemit|]. rewrite Hcon. by vm_compute.
Defined.

End EventBusSpec.

(** ** The physics engine *)

Module PhysicsEngineSpec.
Import PhysicsEngine.

(** *** Restoring a snapshot *)

Lemma set_heap_bodies_same e : set_heap_bodies (heap_bodies (memory e)) e = e.
Proof. by destruct e as [? ? ? ? ? ? ? [] ?]. Qed.

Lemma set_heap_bodies_twice h h' e :
  set_heap_bodies h (set_heap_bodies h' e) = set_heap_bodies h e.
Proof. done. Qed.

Lemma write_all_app ws1 ws2 h : write_all (ws1 ++ ws2) h = write_all ws2 (write_all ws1 h).
Proof. unfold write_all. by rewrite foldl_app. Qed.

Lemma restore_bodyStates_writes obj bss e :
  foldl (restore_bodyState obj) e bss
  = set_heap_bodies
      (write_all (filter (λ bs, bs_id bs ∈ bodies obj) bss) (heap_bodies (memory e))) e.
Proof.
  revert e. induction bss as [|bs bss IH]; intros e; simpl.
  - by rewrite set_heap_bodies_same.
  - rewrite IH. unfold restore_bodyState at 1 2. rewrite filter_cons.
    destruct (decide (bs_id bs ∈ bodies obj)); [|done].
    by rewrite set_heap_bodies_twice.
Qed.

Lemma restore_loop_writes snap objectArray e :
  restore_loop snap objectArray e
  = set_heap_bodies
      (write_all (writes_of (heap_objects (memory e)) snap objectArray)
         (heap_bodies (memory e))) e.
Proof.
  revert objectArray e. induction snap as [|entry snap IH]; intros objectArray e.
  - simpl. by rewrite set_heap_bodies_same.
  - destruct objectArray as [|o objectArray]; simpl.
    { by rewrite set_heap_bodies_same. }
    rewrite IH. unfold lookup_object.
    destruct (heap_objects (memory e) !! o) as [obj|]; [|done].
    rewrite restore_bodyStates_writes, write_all_app. done.
Qed.

Lemma write_all_lookup ws h k :
  write_all ws h !! k = apply_writes ws k <$> h !! k.
Proof.
  revert h. induction ws as [|bs ws IH]; intros h; simpl.
  - by destruct (h !! k).
  - unfold write_all, apply_writes in *. simpl. rewrite IH.
    destruct (decide (bs_id bs = k)) as [->|Hne].
    + rewrite lookup_alter_eq. by destruct (h !! k).
    + by rewrite lookup_alter_ne.
Qed.

Lemma restore_body_twice bs bs' b : restore_body bs (restore_body bs' b) = restore_body bs b.
Proof. done. Qed.

Lemma apply_writes_snoc ws bs k b :
  apply_writes (ws ++ [bs]) k b
  = if decide (bs_id bs = k) then restore_body bs (apply_writes ws k b) else apply_writes ws k b.
Proof. unfold apply_writes. by rewrite foldl_app. Qed.

(** A sequence of writes either leaves a body alone or acts on it as its last
    write for that body. *)
Lemma apply_writes_last ws k :
  (∀ b, apply_writes ws k b = b) ∨
  (∃ bs, bs ∈ ws ∧ bs_id bs = k ∧ ∀ b, apply_writes ws k b = restore_body bs b).
Proof.
  induction ws as [|bs ws IH] using rev_ind; [by left|].
  destruct (decide (bs_id bs = k)) as [Hk|Hk].
  - right. exists bs. split; [apply elem_of_app; right; by apply list_elem_of_singleton|].
    split; [done|]. intros b. rewrite apply_writes_snoc, decide_True by done.
    destruct IH as [Hid|(bs0 & _ & _ & H0)]; [by rewrite Hid|].
    by rewrite H0, restore_body_twice.
  - destruct IH as [Hid|(bs0 & Hin & Hk0 & H0)].
    + left. intros b. by rewrite apply_writes_snoc, decide_False.
    + right. exists bs0. split; [apply elem_of_app; by left|]. split; [done|].
      intros b. by rewrite apply_writes_snoc, decide_False.
Qed.

Lemma apply_writes_idem ws k b :
  apply_writes ws k (apply_writes ws k b) = apply_writes ws k b.
Proof.
  destruct (apply_writes_last ws k) as [Hid|(bs & _ & _ & H)].
  - by rewrite !Hid.
  - by rewrite !H, restore_body_twice.
Qed.

Lemma write_all_idem ws h : write_all ws (write_all ws h) = write_all ws h.
Proof.
  apply map_eq. intros k. rewrite !write_all_lookup.
  destruct (h !! k) as [b|]; simpl; [|done]. by rewrite apply_writes_idem.
Qed.

Lemma restoreSnapshot_writes e :
  restoreSnapshot e
  = match _snapshot e with
    | None => e
    | Some snap =>
        set_heap_bodies
          (write_all (writes_of (heap_objects (memory e)) snap (_objects e))
             (heap_bodies (memory e))) e
    end.
Proof. unfold restoreSnapshot. destruct (_snapshot e); [|done]. apply restore_loop_writes. Qed.


(** *** Restoring with Matter's setters *)

Lemma write_all_with_app M ws1 ws2 h :
  write_all_with M (ws1 ++ ws2) h = write_all_with M ws2 (write_all_with M ws1 h).
Proof. unfold write_all_with. by rewrite foldl_app. Qed.

Lemma restore_bodyState_with_live M obj bs e :
  lists_null_body obj = false →
  restore_bodyState_with M obj bs e
  = Some (if decide (bs_id bs ∈ bodies obj)
          then set_heap_bodies
                 (alter (restore_body_with M bs) (bs_id bs) (heap_bodies (memory e))) e
          else e).
Proof.
  intros Hlive. unfold restore_bodyState_with. rewrite Hlive.
  by destruct (decide (bs_id bs ∈ bodies obj)).
Qed.

Lemma restore_bodyStates_with_writes M obj bss e :
  lists_null_body obj = false →
  for_each (restore_bodyState_with M obj) bss e
  = Some (set_heap_bodies
            (write_all_with M (filter (λ bs, bs_id bs ∈ bodies obj) bss)
               (heap_bodies (memory e))) e).
Proof.
  intros Hlive. revert e. induction bss as [|bs bss IH]; intros e; simpl.
  - by rewrite set_heap_bodies_same.
  - rewrite restore_bodyState_with_live, filter_cons by done.
    destruct (decide (bs_id bs ∈ bodies obj)); simpl; rewrite IH; [|done].
    by rewrite set_heap_bodies_twice.
Qed.

Lemma restore_loop_with_writes M snap objectArray e :
  (∀ o, o ∈ objectArray → ∃ obj, lookup_object e o = Some obj ∧ _disposed obj = false) →
  restore_loop_with M snap objectArray e
  = Some (set_heap_bodies
            (write_all_with M (writes_of (heap_objects (memory e)) snap objectArray)
               (heap_bodies (memory e))) e).
Proof.
  revert objectArray e. induction snap as [|entry snap IH]; intros objectArray e Hlive.
  - simpl. by rewrite set_heap_bodies_same.
  - destruct objectArray as [|o objectArray]; simpl.
    { by rewrite set_heap_bodies_same. }
    destruct (Hlive o) as (obj & Hobj & Hd); [by left|].
    rewrite Hobj. unfold lookup_object in Hobj. rewrite Hobj.
    rewrite restore_bodyStates_with_writes by (unfold lists_null_body; by rewrite Hd).
    simpl. rewrite IH.
    + simpl. by rewrite set_heap_bodies_twice, write_all_with_app.
    + intros o' Ho'. apply Hlive. by right.
Qed.

Lemma restoreSnapshot_with_writes M e snap :
  _snapshot e = Some snap → tracked_live e →
  restoreSnapshot_with M e
  = Some (set_heap_bodies
            (write_all_with M (writes_of (heap_objects (memory e)) snap (_objects e))
               (heap_bodies (memory e))) e).
Proof.
  intros Hsnap Hlive. unfold restoreSnapshot_with. rewrite Hsnap.
  by apply restore_loop_with_writes.
Qed.

(** With the setters of exact arithmetic and no tracked object disposed of,
    this is [restoreSnapshot]. *)
Lemma restoreSnapshot_with_assignments e :
  tracked_live e → restoreSnapshot_with assignments e = Some (restoreSnapshot e).
Proof.
  intros Hlive. rewrite restoreSnapshot_writes.
  destruct (_snapshot e) as [snap|] eqn:Hsnap.
  - by rewrite (restoreSnapshot_with_writes assignments e snap Hsnap Hlive).
  - unfold restoreSnapshot_with. by rewrite Hsnap.
Qed.












(** *** Collision dispatch *)

Section Dispatch.
Variable m : Methods.
Hypothesis Hreturn : hooks_return m.

Lemma call_returns c e :
  ∃ e', call m c e = Some e' ∧ trace e' = trace e ++ [Called c] ∧
        _bodyToObject e' = _bodyToObject e ∧ _objects e' = _objects e ∧
        world_bodies e' = world_bodies e ∧ _snapshot e' = _snapshot e.
Proof.
  unfold call. destruct (Hreturn c e) as [mem ->]. simpl. eauto 10.
Qed.

Lemma on_pair_returns q e :
  ∃ e', on_pair m q e = Some e' ∧ _bodyToObject e' = _bodyToObject e ∧
        _objects e' = _objects e ∧
        trace e' = trace e ++ pair_events m (_bodyToObject e) q.
Proof.
  unfold on_pair, pair_events.
  destruct (_bodyToObject e !! bodyA q) as [a|]; [|exists e; by rewrite app_nil_r].
  destruct (_bodyToObject e !! bodyB q) as [b|]; [|exists e; by rewrite app_nil_r].
  destruct (has_onCollision m a).
  - destruct (call_returns (OnCollision a b q) e) as (e1 & -> & Ht1 & Hb1 & Ho1 & _). simpl.
    destruct (has_onCollision m b).
    + destruct (call_returns (OnCollision b a q) e1) as (e2 & -> & Ht2 & Hb2 & Ho2 & _). simpl.
      eexists. split; [done|]. simpl. rewrite Hb2, Hb1, Ho2, Ho1, Ht2, Ht1.
      split; [done|]. split; [done|]. by rewrite <- !app_assoc.
    + simpl. eexists. split; [done|]. simpl. rewrite Hb1, Ho1, Ht1.
      split; [done|]. split; [done|]. by rewrite <- !app_assoc.
  - simpl. destruct (has_onCollision m b).
    + destruct (call_returns (OnCollision b a q) e) as (e2 & -> & Ht2 & Hb2 & Ho2 & _). simpl.
      eexists. split; [done|]. simpl. rewrite Hb2, Ho2, Ht2.
      split; [done|]. split; [done|]. by rewrite <- !app_assoc.
    + simpl. eexists. split; [done|]. done.
Qed.

Lemma collisionStart_returns pairs e :
  ∃ e', collisionStart m pairs e = Some e' ∧ _bodyToObject e' = _bodyToObject e ∧
        _objects e' = _objects e ∧
        trace e' = trace e ++ concat (pair_events m (_bodyToObject e) <$> pairs).
Proof.
  revert e. induction pairs as [|q pairs IH]; intros e.
  - exists e. simpl. by rewrite app_nil_r.
  - unfold collisionStart. simpl.
    destruct (on_pair_returns q e) as (e1 & -> & Hb1 & Ho1 & Ht1). simpl.
    destruct (IH e1) as (e' & He' & Hb' & Ho' & Ht'). unfold collisionStart in He'.
    exists e'. split; [done|]. rewrite Hb', Ho', Ht', Hb1, Ht1.
    split; [done|]. split; [done|]. by rewrite <- app_assoc.
Qed.

End Dispatch.






(** *** The trace of a step *)

Lemma for_each_cons {A S : Type} (f : A → S → option S) x l s :
  for_each f (x :: l) s = f x s ≫= for_each f l.
Proof. done. Qed.

Section Step.
Variable m : Methods.
Hypothesis Hreturn : hooks_return m.

Lemma before_update_returns dt o e :
  ∃ e', before_update m dt o e = Some e' ∧
        _objects e' = _objects e ∧ _bodyToObject e' = _bodyToObject e ∧
        trace e' = trace e ++ before_calls m dt [o].
Proof.
  unfold before_update, before_calls. rewrite filter_cons, filter_nil.
  destruct (has_onBeforeUpdate m o) eqn:Hhas.
  - destruct (call_returns m Hreturn (OnBeforeUpdate o [ArgNumber dt; ArgEngine]) e)
      as (e1 & Hcall & Ht1 & Hb1 & Ho1 & _).
    exists e1. by rewrite decide_True.
  - exists e. rewrite decide_False by done. simpl. by rewrite app_nil_r.
Qed.

Lemma after_update_returns dt o e :
  ∃ e', after_update m dt o e = Some e' ∧
        _objects e' = _objects e ∧ _bodyToObject e' = _bodyToObject e ∧
        trace e' = trace e ++ after_calls m dt [o].
Proof.
  unfold after_update, after_calls. rewrite filter_cons, filter_nil.
  destruct (has_onAfterUpdate m o) eqn:Hhas.
  - destruct (call_returns m Hreturn (OnAfterUpdate o [ArgNumber dt; ArgEngine]) e)
      as (e1 & Hcall & Ht1 & Hb1 & Ho1 & _).
    exists e1. by rewrite decide_True.
  - exists e. rewrite decide_False by done. simpl. by rewrite app_nil_r.
Qed.

Lemma before_calls_cons dt o objs :
  before_calls m dt (o :: objs) = before_calls m dt [o] ++ before_calls m dt objs.
Proof.
  unfold before_calls. rewrite !filter_cons, filter_nil.
  by destruct (decide (has_onBeforeUpdate m o = true)).
Qed.

Lemma after_calls_cons dt o objs :
  after_calls m dt (o :: objs) = after_calls m dt [o] ++ after_calls m dt objs.
Proof.
  unfold after_calls. rewrite !filter_cons, filter_nil.
  by destruct (decide (has_onAfterUpdate m o = true)).
Qed.

Lemma before_hooks_return dt objs e :
  ∃ e', for_each (before_update m dt) objs e = Some e' ∧
        _objects e' = _objects e ∧ _bodyToObject e' = _bodyToObject e ∧
        trace e' = trace e ++ before_calls m dt objs.
Proof.
  revert e. induction objs as [|o objs IH]; intros e.
  - exists e. simpl. by rewrite app_nil_r.
  - rewrite for_each_cons, before_calls_cons.
    destruct (before_update_returns dt o e) as (e1 & -> & Ho1 & Hb1 & Ht1). simpl.
    destruct (IH e1) as (e' & He' & Ho' & Hb' & Ht'). exists e'.
    rewrite Ho', Hb', Ht', Ho1, Hb1, Ht1. by rewrite <- app_assoc.
Qed.

Lemma after_hooks_return dt objs e :
  ∃ e', for_each (after_update m dt) objs e = Some e' ∧
        _objects e' = _objects e ∧ _bodyToObject e' = _bodyToObject e ∧
        trace e' = trace e ++ after_calls m dt objs.
Proof.
  revert e. induction objs as [|o objs IH]; intros e.
  - exists e. simpl. by rewrite app_nil_r.
  - rewrite for_each_cons, after_calls_cons.
    destruct (after_update_returns dt o e) as (e1 & -> & Ho1 & Hb1 & Ht1). simpl.
    destruct (IH e1) as (e' & He' & Ho' & Hb' & Ht'). exists e'.
    rewrite Ho', Hb', Ht', Ho1, Hb1, Ht1. by rewrite <- app_assoc.
Qed.

(** A step whose hooks return calls [onBeforeUpdate(dt, this)] once on each
    tracked object that has the hook, in the order of the set, then runs the
    solver, whose new contacts are dispatched, then the [onAfterUpdate]
    hooks. *)
Lemma step_trace (s : Solver) dt e :
  ∃ e1 e',
    for_each (before_update m dt) (_objects e) e = Some e1 ∧
    step m s dt e = Some e' ∧
    trace e' = trace e ++ before_calls m dt (_objects e) ++ [EngineUpdate dt]
               ++ concat (pair_events m (_bodyToObject e) <$> (detect s dt e1).2)
               ++ after_calls m dt (_objects e).
Proof.
  unfold step.
  destruct (before_hooks_return dt (_objects e) e) as (e1 & Hbefore & Ho1 & Hb1 & Ht1).
  exists e1. rewrite Hbefore. simpl. unfold Engine_update.
  destruct (detect s dt e1) as [heap pairs] eqn:Hdetect.
  destruct (collisionStart_returns m Hreturn pairs
              (set_trace (trace e1 ++ [EngineUpdate dt]) (set_heap_bodies heap e1)))
    as (e2 & -> & Hb2 & Ho2 & Ht2). simpl.
  destruct (after_hooks_return dt (_objects e2) (set_heap_bodies (resolve s dt e2) e2))
    as (e' & -> & _ & _ & Ht').
  exists e'. split; [done|]. split; [done|].
  rewrite Ht'. simpl. rewrite Ht2, Ho2. simpl. rewrite Ht1, Ho1, Hb1.
  by rewrite <- !app_assoc.
Qed.

End Step.

(** *** Body ownership *)

Lemma owner_tracked_true e b :
  owner_tracked e b = true ↔ ∃ o, _bodyToObject e !! b = Some o ∧ o ∈ _objects e.
Proof.
  unfold owner_tracked. destruct (_bodyToObject e !! b) as [o|].
  - rewrite bool_decide_eq_true. split; [eauto|]. by intros (? & [= <-] & ?).
  - split; [done|]. by intros (? & ? & _).
Qed.

(** A fresh engine has its four walls and nothing else. *)
Lemma create_ownership w h opts mem :
  ownership_invariant (boundary_walls (next_id mem)) (create w h opts mem).
Proof. intros b Hb. by left. Qed.

(** *** The claims about the engine *)




(** C3 (code defect): [step(dt)] calls [obj.onBeforeUpdate(dt, this)], so the
    one parameter of the hooks, which [BaseObject] documents as the engine and
    [Mouse] uses as the engine, is bound to the number [dt]. With hooks that
    accept anything, the step of a world holding a mouse makes each call with
    [dt] first; the mouse's hook throws on such a call, and with it the step. *)
Theorem step_passes_dt_for_engine :
  (∃ e', step permissive idle_solver 16.67 mouse_and_ball = Some e' ∧
         before_update_args (trace e')
         = [(1, [ArgNumber 16.67; ArgEngine]); (2, [ArgNumber 16.67; ArgEngine])]) ∧
  Mouse_onBeforeUpdate [ArgNumber 16.67; ArgEngine] mouse_and_ball = None ∧
  Mouse_onBeforeUpdate [ArgEngine] mouse_and_ball = Some (memory mouse_and_ball) ∧
  step sample_methods idle_solver 16.67 mouse_and_ball = None.
Proof.
  split; [eexists; split; vm_compute; reflexivity|].
  split; [done|]. split; [done|]. by vm_compute.
Qed.

Lemma before_update_args_app tr1 tr2 :
  before_update_args (tr1 ++ tr2) = before_update_args tr1 ++ before_update_args tr2.
Proof. apply omap_app. Qed.

Lemma before_update_args_pair_events m btm pairs :
  before_update_args (concat (pair_events m btm <$> pairs)) = [].
Proof.
  induction pairs as [|q pairs IH]; [done|].
  rewrite fmap_cons, concat_cons, before_update_args_app, IH, app_nil_r.
  unfold pair_events. destruct (btm !! bodyA q) as [a|]; [|done].
  destruct (btm !! bodyB q) as [b|]; [|done].
  by destruct (has_onCollision m a), (has_onCollision m b).
Qed.

Lemma before_update_args_after_calls m dt objs :
  before_update_args (after_calls m dt objs) = [].
Proof.
  unfold after_calls. induction (filter _ objs) as [|o l IH]; [done|].
  rewrite fmap_cons. exact IH.
Qed.

Lemma before_update_args_before_calls m dt objs :
  before_update_args (before_calls m dt objs)
  = (λ o, (o, [ArgNumber dt; ArgEngine])) <$> filter (λ o, has_onBeforeUpdate m o = true) objs.
Proof.
  unfold before_calls, before_update_args.
  induction (filter _ objs) as [|o l IH]; [done|].
  rewrite !fmap_cons. simpl. f_equal. exact IH.
Qed.

(** X2: whatever the hooks, as long as they return, the step returns, and it
    calls [onBeforeUpdate] exactly once on each tracked object that has it, in
    the order of the set, before the solver's update and not after it, each
    time with the arguments [(dt, this)]. *)
Lemma step_calls_before_update_once (m : Methods) (s : Solver) dt e :
  hooks_return m →
  ∃ e' before rest,
    step m s dt e = Some e' ∧
    trace e' = trace e ++ before ++ EngineUpdate dt :: rest ∧
    (∀ ev, ev ∈ before → ∃ o, ev = Called (OnBeforeUpdate o [ArgNumber dt; ArgEngine])) ∧
    before_update_args before
    = (λ o, (o, [ArgNumber dt; ArgEngine]))
        <$> filter (λ o, has_onBeforeUpdate m o = true) (_objects e) ∧
    before_update_args rest = [].
Proof.
  intros Hret. destruct (step_trace m Hret s dt e) as (e1 & e' & _ & Hstep & Ht).
  exists e', (before_calls m dt (_objects e)). eexists.
  split; [done|]. split; [exact Ht|]. split; [|split].
  - unfold before_calls. intros ev (o & -> & _)%list_elem_of_fmap. by exists o.
  - apply before_update_args_before_calls.
  - by rewrite before_update_args_app, before_update_args_pair_events,
      before_update_args_after_calls.
Qed.

(** The lemma at work on the two balls. *)
Lemma step_calls_before_update_once_witness :
  hooks_return permissive ∧
  ∃ e' before rest,
    step permissive idle_solver 16.67 two_balls = Some e' ∧
    trace e' = trace two_balls ++ before ++ EngineUpdate 16.67 :: rest ∧
    before_update_args before
    = [(1, [ArgNumber 16.67; ArgEngine]); (2, [ArgNumber 16.67; ArgEngine])] ∧
    before_update_args rest = [].
Proof.
  assert (hooks_return permissive) as Hret by (intros c e; by eexists).
  split; [exact Hret|].
  destruct (step_calls_before_update_once permissive idle_solver 16.67 two_balls Hret)
    as (e' & before & rest & Hstep & Ht & _ & Hbefore & Hrest).
  exists e', before, rest. split; [exact Hstep|]. split; [exact Ht|].
  split; [|exact Hrest]. rewrite Hbefore. by vm_compute.
Defined.


Lemma two_balls_live : tracked_live two_balls.
Proof.
  intros o Ho. vm_compute in Ho. apply list_elem_of_In in Ho.
  destruct Ho as [<-|[<-|[]]]; eexists; by vm_compute.
Qed.





(** [addObject] preserves body ownership. *)
Lemma add_bodies_ownership walls o bs e1 :
  ownership_invariant walls e1 → o ∈ _objects e1 →
  let e2 :=
    foldl (λ acc b,
             set_bodyToObject (<[b := o]> (_bodyToObject acc))
               (set_world_bodies (Composite_add b (world_bodies acc)) acc))
          e1 bs in
  ownership_invariant walls e2 ∧ _objects e2 = _objects e1.
Proof.
  revert e1. induction bs as [|b0 bs IH]; intros e1 Hinv1 Ho; [done|]. simpl.
  set (e1' := set_bodyToObject (<[b0 := o]> (_bodyToObject e1))
                (set_world_bodies (Composite_add b0 (world_bodies e1)) e1)).
  destruct (IH e1') as [Hinv2 Hobjs]; [|done|by split].
  intros b Hb. simpl in Hb. unfold Composite_add in Hb.
  unfold owner_tracked. simpl. destruct (decide (b0 = b)) as [->|Hne].
  - right. rewrite lookup_insert_eq. by apply bool_decide_eq_true.
  - rewrite lookup_insert_ne by done. apply elem_of_app in Hb as [Hb|Hb].
    + by apply Hinv1.
    + apply list_elem_of_singleton in Hb. congruence.
Qed.

Lemma add_constraints_same cs e1 :
  let e2 :=
    foldl (λ acc c, set_world_constraints (Composite_add c (world_constraints acc)) acc)
          e1 cs in
  world_bodies e2 = world_bodies e1 ∧ _bodyToObject e2 = _bodyToObject e1 ∧
  _objects e2 = _objects e1.
Proof.
  revert e1. induction cs as [|c cs IH]; intros e1; [done|]. simpl.
  destruct (IH (set_world_constraints (Composite_add c (world_constraints e1)) e1))
    as (-> & -> & ->). done.
Qed.

Lemma addObject_ownership walls o e e' :
  ownership_invariant walls e → addObject o e = Some e' → ownership_invariant walls e'.
Proof.
  intros Hinv. unfold addObject.
  destruct (lookup_object e o) as [obj|]; [|by intros [= <-]].
  destruct (lists_null_body obj || lists_null_constraint obj); [done|].
  cbv zeta. intros [= <-].
  set (e1 := set_objects (objects_add o (_objects e)) e).
  assert (o ∈ _objects e1) as Ho.
  { simpl. unfold objects_add. destruct (decide (o ∈ _objects e)); [done|].
    apply elem_of_app. right. by apply list_elem_of_singleton. }
  assert (ownership_invariant walls e1) as Hinv1.
  { intros b Hb. destruct (Hinv b Hb) as [?|Hown]; [by left|]. right.
    apply owner_tracked_true in Hown as (o' & Hmap & Hin). apply owner_tracked_true.
    exists o'. split; [done|]. simpl. unfold objects_add.
    destruct (decide (o ∈ _objects e)); [done|]. apply elem_of_app. by left. }
  destruct (add_bodies_ownership walls o (bodies obj) e1 Hinv1 Ho) as [Hinv2 Ho2].
  match goal with
  | |- context [foldl ?f ?e2 (constraints obj)] =>
      destruct (add_constraints_same (constraints obj) e2) as (Hw & Hm & Hobjs)
  end.
  intros b Hb. unfold emit_event in *. simpl in Hb. rewrite Hw in Hb.
  destruct (Hinv2 b Hb) as [?|Hown]; [by left|]. right.
  unfold owner_tracked in *. simpl. by rewrite Hm, Hobjs.
Qed.

(** C9 (code defect): [removeObject] takes out of the solver's world the
    bodies the object's [bodies] getter lists at that time, and a popped balloon
    lists none. The balloon touches the scissors during a step and pops;
    ownership still holds, the balloon being tracked; [clear()] then removes
    both objects and leaves the balloon's body (10) in the solver's world: it is
    no wall, and the lookup still maps it to the balloon, which is no longer
    tracked. *)
Theorem clear_orphans_popped_balloon_body :
  ownership_invariant (boundary_walls 12) balloon_and_scissors ∧
  ∃ e1 e2,
    step sample_methods (contact_solver [mkPair 10 11]) 16.67 balloon_and_scissors = Some e1 ∧
    (_popped <$> lookup_object e1 1) = Some true ∧
    ownership_invariant (boundary_walls 12) e1 ∧
    clear sample_methods e1 = Some e2 ∧
    _objects e2 = [] ∧
    world_bodies e2 = boundary_walls 12 ++ [10] ∧
    _bodyToObject e2 !! 10 = Some 1 ∧
    ¬ ownership_invariant (boundary_walls 12) e2.
Proof.
  split.
  { assert (∃ e1,
              addObject 1 (create 800 600 no_options
                             (sample_memory Objects.Balloon Objects.Scissors)) = Some e1 ∧
              addObject 2 e1 = Some balloon_and_scissors) as (e1 & H1 & H2).
    { eexists. split; by vm_compute. }
    eapply addObject_ownership; [|exact H2].
    eapply addObject_ownership; [|exact H1]. apply create_ownership. }
  eexists. eexists. split; [by vm_compute|]. split; [by vm_compute|]. split.
  { intros b Hb. vm_compute in Hb. apply list_elem_of_In in Hb.
    destruct Hb as [<-|[<-|[<-|[<-|[<-|[<-|[]]]]]]];
      try (left; vm_compute; apply list_elem_of_In; simpl; tauto);
      right; by vm_compute. }
  split; [by vm_compute|]. split; [by vm_compute|]. split; [by vm_compute|].
  split; [by vm_compute|].
  intros Hinv. destruct (Hinv 10) as [Hwall|Hown].
  - vm_compute. apply list_elem_of_In. simpl. tauto.
  - vm_compute in Hwall. apply list_elem_of_In in Hwall. simpl in Hwall.
    destruct Hwall as [?|[?|[?|[?|[]]]]]; discriminate.
  - vm_compute in Hown. discriminate.
Qed.

(** A second road to the same defect: an object added twice has its bodies
    twice in the solver's world, and [removeObject] takes each out once. *)
Lemma remove_after_double_add_orphans_body :
  ∃ e1 e,
    addObject 1 two_balls = Some e1 ∧
    removeObject sample_methods 1 e1 = Some e ∧
    (1 ∉ _objects e) ∧ 10 ∈ world_bodies e ∧ _bodyToObject e !! 10 = None.
Proof.
  eexists. eexists. split; [by vm_compute|]. split; [by vm_compute|]. split.
  - vm_compute. intros H. apply list_elem_of_In in H. simpl in H. destruct H as [?|[]]. discriminate.
  - split; [|by vm_compute]. vm_compute. apply list_elem_of_In. simpl. tauto.
Qed.

(** C5: after [takeSnapshot()], a second [restoreSnapshot()] leaves every
    body (position, angle, velocity, angular velocity, and the rest) as the
    first one left it; indeed it leaves the whole engine as it was. *)
Theorem restoreSnapshot_idempotent (e : PhysicsEngine) :
  let first := restoreSnapshot (takeSnapshot e) in
  let second := restoreSnapshot first in
  heap_bodies (memory second) = heap_bodies (memory first) ∧ second = first.
Proof.
  intros first second.
  assert (second = first) as Heq; [|by rewrite Heq].
  unfold second, first. rewrite !restoreSnapshot_writes. simpl.
  unfold set_heap_bodies. simpl. by rewrite write_all_idem.
Qed.

(** *** What a step leaves alone *)

Lemma same_tracking_refl e : same_tracking e e.
Proof. by repeat split. Qed.

Lemma same_tracking_trans e1 e2 e3 :
  same_tracking e1 e2 → same_tracking e2 e3 → same_tracking e1 e3.
Proof.
  intros (?&?&?&?&?&?&?) (?&?&?&?&?&?&?). repeat split; congruence.
Qed.

Lemma call_same_tracking m c e e' : call m c e = Some e' → same_tracking e e'.
Proof.
  unfold call. destruct (run m c e) as [mem|]; [|done]. simpl.
  intros [= <-]. by repeat split.
Qed.

Lemma for_each_same_tracking {A} (f : A → PhysicsEngine → option PhysicsEngine) l :
  (∀ x e e', f x e = Some e' → same_tracking e e') →
  ∀ e e', for_each f l e = Some e' → same_tracking e e'.
Proof.
  intros Hf. induction l as [|x l IH]; intros e e' H.
  - injection H as <-. apply same_tracking_refl.
  - simpl in H. destruct (f x e) as [e1|] eqn:Hx; [|done]. simpl in H.
    eapply same_tracking_trans; [by eapply Hf|by apply IH].
Qed.

Lemma on_pair_same_tracking m q e e' : on_pair m q e = Some e' → same_tracking e e'.
Proof.
  unfold on_pair.
  destruct (_bodyToObject e !! bodyA q) as [a|];
    [|intros [= <-]; apply same_tracking_refl].
  destruct (_bodyToObject e !! bodyB q) as [b|];
    [|intros [= <-]; apply same_tracking_refl].
  destruct (has_onCollision m a).
  - destruct (call m (OnCollision a b q) e) as [e1|] eqn:H1; [|done]. simpl.
    apply call_same_tracking in H1.
    destruct (has_onCollision m b).
    + destruct (call m (OnCollision b a q) e1) as [e2|] eqn:H2; [|done]. simpl.
      apply call_same_tracking in H2. intros [= <-].
      eapply same_tracking_trans; [exact H1|]. eapply same_tracking_trans; [exact H2|].
      by repeat split.
    + simpl. intros [= <-]. eapply same_tracking_trans; [exact H1|]. by repeat split.
  - simpl. destruct (has_onCollision m b).
    + destruct (call m (OnCollision b a q) e) as [e2|] eqn:H2; [|done]. simpl.
      apply call_same_tracking in H2. intros [= <-].
      eapply same_tracking_trans; [exact H2|]. by repeat split.
    + simpl. intros [= <-]. by repeat split.
Qed.

Lemma Engine_update_same_tracking m s dt e e' :
  Engine_update m s dt e = Some e' → same_tracking e e'.
Proof.
  unfold Engine_update. destruct (detect s dt e) as [heap pairs].
  destruct (collisionStart m pairs _) as [e2|] eqn:Hc; [|done]. simpl.
  intros [= <-]. unfold collisionStart in Hc.
  apply (for_each_same_tracking _ _ (on_pair_same_tracking m)) in Hc.
  eapply same_tracking_trans; [|eapply same_tracking_trans; [exact Hc|]]; by repeat split.
Qed.

(** [step] changes bodies and the trace only: the tracked objects, the world's
    bodies and constraints, the owners and the snapshot stay. *)
Lemma step_same_tracking m s dt e e' : step m s dt e = Some e' → same_tracking e e'.
Proof.
  unfold step.
  destruct (for_each (before_update m dt) (_objects e) e) as [e1|] eqn:H1; [|done]. simpl.
  destruct (Engine_update m s dt e1) as [e2|] eqn:H2; [|done]. simpl.
  intros H3.
  eapply same_tracking_trans; [|eapply same_tracking_trans].
  - eapply for_each_same_tracking; [|exact H1]. intros x ? ?. unfold before_update.
    destruct (has_onBeforeUpdate m x); [apply call_same_tracking|].
    intros [= <-]. apply same_tracking_refl.
  - by eapply Engine_update_same_tracking.
  - eapply for_each_same_tracking; [|exact H3]. intros x ? ?. unfold after_update.
    destruct (has_onAfterUpdate m x); [apply call_same_tracking|].
    intros [= <-]. apply same_tracking_refl.
Qed.

Section Keep.
Variable m : Methods.
Hypothesis Hkeep : updates_keep_objects m.

Lemma call_same_objects c e e' :
  is_Dispose c = false → call m c e = Some e' → same_objects e e'.
Proof.
  intros Hc. unfold call, same_objects.
  destruct (run m c e) as [mem|] eqn:Hrun; [|done]. simpl.
  intros [= <-]. simpl. by apply (Hkeep c e).
Qed.

Lemma for_each_same_objects {A} (f : A → PhysicsEngine → option PhysicsEngine) l :
  (∀ x e e', f x e = Some e' → same_objects e e') →
  ∀ e e', for_each f l e = Some e' → same_objects e e'.
Proof.
  intros Hf. induction l as [|x l IH]; intros e e' H.
  - by injection H as <-.
  - simpl in H. destruct (f x e) as [e1|] eqn:Hx; [|done]. simpl in H.
    unfold same_objects. rewrite (IH _ _ H). by apply (Hf x).
Qed.

Lemma on_pair_same_objects q e e' : on_pair m q e = Some e' → same_objects e e'.
Proof.
  unfold on_pair, same_objects.
  destruct (_bodyToObject e !! bodyA q) as [a|]; [|by intros [= <-]].
  destruct (_bodyToObject e !! bodyB q) as [b|]; [|by intros [= <-]].
  destruct (has_onCollision m a).
  - destruct (call m (OnCollision a b q) e) as [e1|] eqn:H1; [|done]. simpl.
    apply call_same_objects in H1; [|done].
    destruct (has_onCollision m b).
    + destruct (call m (OnCollision b a q) e1) as [e2|] eqn:H2; [|done]. simpl.
      apply call_same_objects in H2; [|done]. intros [= <-]. simpl.
      unfold same_objects in *. congruence.
    + simpl. intros [= <-]. done.
  - simpl. destruct (has_onCollision m b).
    + destruct (call m (OnCollision b a q) e) as [e2|] eqn:H2; [|done]. simpl.
      apply call_same_objects in H2; [|done]. intros [= <-]. done.
    + simpl. by intros [= <-].
Qed.

(** With update hooks that keep the objects, so does [step]. *)
Lemma step_same_objects s dt e e' : step m s dt e = Some e' → same_objects e e'.
Proof.
  unfold step.
  destruct (for_each (before_update m dt) (_objects e) e) as [e1|] eqn:H1; [|done]. simpl.
  destruct (Engine_update m s dt e1) as [e2|] eqn:H2; [|done]. simpl.
  intros H3.
  assert (same_objects e e1) as S1.
  { eapply for_each_same_objects; [|exact H1]. intros x ? ?. unfold before_update.
    destruct (has_onBeforeUpdate m x); [by apply call_same_objects|]. by intros [= <-]. }
  assert (same_objects e1 e2) as S2.
  { unfold Engine_update in H2. destruct (detect s dt e1) as [heap pairs].
    destruct (collisionStart m pairs _) as [e2'|] eqn:Hc; [|done]. simpl in H2.
    injection H2 as <-. unfold collisionStart in Hc.
    apply (for_each_same_objects _ _ on_pair_same_objects) in Hc.
    unfold same_objects in *. simpl in *. done. }
  assert (same_objects e2 e') as S3.
  { eapply for_each_same_objects; [|exact H3]. intros x ? ?. unfold after_update.
    destruct (has_onAfterUpdate m x); [by apply call_same_objects|]. by intros [= <-]. }
  unfold same_objects in *. congruence.
Qed.

End Keep.

(** *** Adding and removing objects *)

Lemma add_bodies_fields o bs e :
  let e' := foldl (λ acc b,
           set_bodyToObject (<[b := o]> (_bodyToObject acc))
             (set_world_bodies (Composite_add b (world_bodies acc)) acc)) e bs in
  world_bodies e' = world_bodies e ++ bs ∧
  _bodyToObject e' = foldl (λ mp b, <[b := o]> mp) (_bodyToObject e) bs ∧
  _objects e' = _objects e ∧ world_constraints e' = world_constraints e ∧
  _snapshot e' = _snapshot e ∧ memory e' = memory e ∧ trace e' = trace e.
Proof.
  revert e. induction bs as [|b bs IH]; intros e; simpl.
  - by rewrite app_nil_r.
  - destruct (IH (set_bodyToObject (<[b := o]> (_bodyToObject e))
                    (set_world_bodies (Composite_add b (world_bodies e)) e)))
      as (-> & -> & -> & -> & -> & -> & ->). simpl. unfold Composite_add.
    by rewrite <- app_assoc.
Qed.

Lemma add_constraints_fields cs e :
  let e' := foldl (λ acc c, set_world_constraints (Composite_add c (world_constraints acc)) acc)
                  e cs in
  world_constraints e' = world_constraints e ++ cs ∧
  world_bodies e' = world_bodies e ∧ _bodyToObject e' = _bodyToObject e ∧
  _objects e' = _objects e ∧ _snapshot e' = _snapshot e ∧ memory e' = memory e ∧
  trace e' = trace e.
Proof.
  revert e. induction cs as [|c cs IH]; intros e; simpl.
  - by rewrite app_nil_r.
  - destruct (IH (set_world_constraints (Composite_add c (world_constraints e)) e))
      as (-> & -> & -> & -> & -> & -> & ->). simpl. unfold Composite_add.
    by rewrite <- app_assoc.
Qed.

Lemma remove_bodies_fields bs e :
  let e' := foldl (λ acc b,
                 set_bodyToObject (delete b (_bodyToObject acc))
                   (set_world_bodies (Composite_remove b (world_bodies acc)) acc)) e bs in
  world_bodies e' = foldl (λ l b, Composite_remove b l) (world_bodies e) bs ∧
  _bodyToObject e' = foldl (λ mp b, delete b mp) (_bodyToObject e) bs ∧
  _objects e' = _objects e ∧ world_constraints e' = world_constraints e ∧
  _snapshot e' = _snapshot e ∧ memory e' = memory e ∧ trace e' = trace e.
Proof.
  revert e. induction bs as [|b bs IH]; intros e; simpl; [done|].
  destruct (IH (set_bodyToObject (delete b (_bodyToObject e))
                  (set_world_bodies (Composite_remove b (world_bodies e)) e)))
    as (-> & -> & -> & -> & -> & -> & ->). done.
Qed.

Lemma remove_constraints_fields cs e :
  let e' := foldl (λ acc c, set_world_constraints (Composite_remove c (world_constraints acc)) acc)
                  e cs in
  world_constraints e' = foldl (λ l c, Composite_remove c l) (world_constraints e) cs ∧
  world_bodies e' = world_bodies e ∧ _bodyToObject e' = _bodyToObject e ∧
  _objects e' = _objects e ∧ _snapshot e' = _snapshot e ∧ memory e' = memory e ∧
  trace e' = trace e.
Proof.
  revert e. induction cs as [|c cs IH]; intros e; simpl; [done|].
  destruct (IH (set_world_constraints (Composite_remove c (world_constraints e)) e))
    as (-> & -> & -> & -> & -> & -> & ->). done.
Qed.

(** An object that has not been disposed of lists no [null]. *)
Lemma live_lists_no_null obj :
  _disposed obj = false → lists_null_body obj || lists_null_constraint obj = false.
Proof. intros H. unfold lists_null_body, lists_null_constraint. by rewrite H. Qed.

(** What [dispose()] leaves of an object that lists a body. *)
Lemma disposed_lists_null obj :
  bodies obj ≠ [] → lists_null_body (GameObject_dispose obj) = true.
Proof.
  intros Hne. unfold lists_null_body. simpl.
  assert (bodies (GameObject_dispose obj) = bodies obj) as -> by done.
  destruct (Objects.kind (base obj)); try done; by destruct (bodies obj).
Qed.

(** What [addObject] leaves, field by field. *)
Lemma addObject_fields o obj e :
  lookup_object e o = Some obj → _disposed obj = false →
  ∃ e', addObject o e = Some e' ∧
    _objects e' = objects_add o (_objects e) ∧
    world_bodies e' = world_bodies e ++ bodies obj ∧
    world_constraints e' = world_constraints e ++ constraints obj ∧
    _bodyToObject e' = foldl (λ mp b, <[b := o]> mp) (_bodyToObject e) (bodies obj) ∧
    _snapshot e' = _snapshot e ∧ memory e' = memory e ∧
    trace e' = trace e ++ [Emitted "physics:object-added" [o]].
Proof.
  intros Hobj Hlive. unfold addObject. rewrite Hobj, (live_lists_no_null obj Hlive). cbv zeta.
  eexists. split; [reflexivity|].
  match goal with
  | |- context [foldl ?f ?e2 (constraints obj)] =>
      destruct (add_constraints_fields (constraints obj) e2) as (Hc & Hw & Hm & Ho & Hs & Hmem & Ht)
  end.
  destruct (add_bodies_fields o (bodies obj) (set_objects (objects_add o (_objects e)) e))
    as (Hw' & Hm' & Ho' & Hc' & Hs' & Hmem' & Ht').
  unfold emit_event. simpl.
  rewrite Hc, Hw, Hm, Ho, Hs, Hmem, Ht, Hw', Hm', Ho', Hc', Hs', Hmem', Ht'. done.
Qed.

(** [addObject] throws for an object that lists a [null]. *)
Lemma addObject_throws o obj e :
  lookup_object e o = Some obj → lists_null_body obj = true → addObject o e = None.
Proof. intros Hobj Hnull. unfold addObject. by rewrite Hobj, Hnull. Qed.

Lemma insert_all_lookup (o : object_ref) bs (mp : gmap body_id object_ref) b :
  foldl (λ mp b, <[b := o]> mp) mp bs !! b
  = if decide (b ∈ bs) then Some o else mp !! b.
Proof.
  revert mp. induction bs as [|b0 bs IH]; intros mp; simpl.
  - destruct (decide (b ∈ [])) as [H|]; [by apply elem_of_nil in H|done].
  - rewrite IH. destruct (decide (b ∈ bs)) as [Hin|Hnot].
    + rewrite decide_True; [done|by right].
    + destruct (decide (b0 = b)) as [->|Hne].
      * rewrite lookup_insert_eq. rewrite decide_True; [done|by left].
      * rewrite lookup_insert_ne by done. rewrite decide_False; [done|].
        intros [->|?]%elem_of_cons; done.
Qed.

Lemma delete_all_lookup bs (mp : gmap body_id object_ref) b :
  foldl (λ mp b, delete b mp) mp bs !! b
  = if decide (b ∈ bs) then None else mp !! b.
Proof.
  revert mp. induction bs as [|b0 bs IH]; intros mp; simpl.
  - destruct (decide (b ∈ [])) as [H|]; [by apply elem_of_nil in H|done].
  - rewrite IH. destruct (decide (b ∈ bs)) as [Hin|Hnot].
    + rewrite decide_True; [done|by right].
    + destruct (decide (b0 = b)) as [->|Hne].
      * rewrite lookup_delete_eq. rewrite decide_True; [done|by left].
      * rewrite lookup_delete_ne by done. rewrite decide_False; [done|].
        intros [->|?]%elem_of_cons; done.
Qed.

Lemma elem_of_objects_add o o' l : o' ∈ objects_add o l ↔ o' = o ∨ o' ∈ l.
Proof.
  unfold objects_add. destruct (decide (o ∈ l)) as [Hin|Hnot].
  - split; [by right|]. by intros [->|?].
  - rewrite elem_of_app, list_elem_of_singleton. tauto.
Qed.

Lemma elem_of_objects_delete o o' l : o' ∈ objects_delete o l ↔ o' ≠ o ∧ o' ∈ l.
Proof. unfold objects_delete. by rewrite list_elem_of_filter. Qed.

(** X13: [addObject] of an object that lists a [null] body (an object
    disposed of, unless it is a popped balloon) throws. [addObject] of an
    object that has not been disposed of returns and makes the object tracked
    (once: adding a tracked object again leaves the set as it is), maps each
    of its bodies to it and puts it in the world, keeps the owner of every
    other body, appends the object's bodies and constraints to the world and
    emits [physics:object-added]. *)
Theorem addObject_tracks_object_and_bodies (o : object_ref) (obj : GameObject)
    (e : PhysicsEngine) :
  lookup_object e o = Some obj →
  (lists_null_body obj = true → addObject o e = None) ∧
  (_disposed obj = false →
   ∃ e', addObject o e = Some e' ∧
     (∀ o', o' ∈ getObjects e' ↔ o' = o ∨ o' ∈ getObjects e) ∧
     (o ∈ getObjects e → getObjects e' = getObjects e) ∧
     (∀ b, b ∈ bodies obj → getObjectForBody e' b = Some o ∧ b ∈ world_bodies e') ∧
     (∀ b, b ∉ bodies obj → getObjectForBody e' b = getObjectForBody e b) ∧
     world_bodies e' = world_bodies e ++ bodies obj ∧
     world_constraints e' = world_constraints e ++ constraints obj ∧
     trace e' = trace e ++ [Emitted "physics:object-added" [o]]).
Proof.
  intros Hobj. split; [by apply addObject_throws|]. intros Hlive.
  destruct (addObject_fields o obj e Hobj Hlive) as (e' & Hadd & Ho & Hw & Hc & Hm & _ & _ & Ht).
  exists e'. split; [exact Hadd|]. unfold getObjects, getObjectForBody.
  split; [|split; [|split; [|split; [|split; [|split]]]]]; try done.
  - intros o'. rewrite Ho. apply elem_of_objects_add.
  - intros Hin. rewrite Ho. unfold objects_add. by rewrite decide_True.
  - intros b Hb. rewrite Hm, insert_all_lookup, decide_True by done.
    split; [done|]. rewrite Hw. apply elem_of_app. by right.
  - intros b Hb. by rewrite Hm, insert_all_lookup, decide_False.
Qed.

(** What [removeObject] leaves, field by field. *)
Lemma removeObject_fields m o obj e :
  class_dispose m → lookup_object e o = Some obj → _disposed obj = false →
  ∃ e', removeObject m o e = Some e' ∧
    _objects e' = objects_delete o (_objects e) ∧
    world_bodies e' = foldl (λ l b, Composite_remove b l) (world_bodies e) (bodies obj) ∧
    world_constraints e'
    = foldl (λ l c, Composite_remove c l) (world_constraints e) (constraints obj) ∧
    _bodyToObject e' = foldl (λ mp b, delete b mp) (_bodyToObject e) (bodies obj) ∧
    _snapshot e' = _snapshot e ∧
    trace e' = trace e ++ dispose_events m o ++ [Emitted "physics:object-removed" [o]] ∧
    heap_objects (memory e')
    = (if has_dispose m o then alter GameObject_dispose o (heap_objects (memory e))
       else heap_objects (memory e)).
Proof.
  intros Hdispose Hobj Hlive. unfold removeObject.
  rewrite Hobj, (live_lists_no_null obj Hlive). cbv zeta.
  set (e1 := foldl (λ acc c,
                  set_world_constraints (Composite_remove c (world_constraints acc)) acc)
                  e (constraints obj)).
  set (e2 := foldl (λ acc b,
                 set_bodyToObject (delete b (_bodyToObject acc))
                   (set_world_bodies (Composite_remove b (world_bodies acc)) acc))
               e1 (bodies obj)).
  destruct (remove_constraints_fields (constraints obj) e) as (Hc & Hw & Hm & Ho & Hs & Hmem & Ht).
  fold e1 in Hc, Hw, Hm, Ho, Hs, Hmem, Ht.
  destruct (remove_bodies_fields (bodies obj) e1) as (Hw' & Hm' & Ho' & Hc' & Hs' & Hmem' & Ht').
  fold e2 in Hw', Hm', Ho', Hc', Hs', Hmem', Ht'.
  unfold dispose_events. destruct (has_dispose m o).
  - unfold call. rewrite Hdispose. simpl. eexists. split; [reflexivity|].
    unfold emit_event. simpl.
    rewrite Ho', Ho, Hw', Hw, Hc', Hc, Hm', Hm, Hs', Hs, Ht', Ht, Hmem', Hmem, <- app_assoc.
    repeat split; try done.
  - simpl. eexists. split; [reflexivity|]. unfold emit_event. simpl.
    rewrite Ho', Ho, Hw', Hw, Hc', Hc, Hm', Hm, Hs', Hs, Ht', Ht, Hmem', Hmem.
    repeat split; try done.
Qed.

(** [removeObject] leaves the other objects of the store as they are. *)
Lemma removeObject_lookup_other m o obj e e' o' :
  class_dispose m → lookup_object e o = Some obj → _disposed obj = false →
  removeObject m o e = Some e' → o' ≠ o → lookup_object e' o' = lookup_object e o'.
Proof.
  intros Hdispose Hobj Hlive Hrem Hne.
  destruct (removeObject_fields m o obj e Hdispose Hobj Hlive)
    as (e1 & Hrem1 & _ & _ & _ & _ & _ & _ & Hheap).
  rewrite Hrem in Hrem1. injection Hrem1 as <-.
  unfold lookup_object. rewrite Hheap.
  destruct (has_dispose m o); [|done]. by rewrite lookup_alter_ne.
Qed.

Lemma elem_of_Composite_remove_ne x y l : y ≠ x → y ∈ Composite_remove x l ↔ y ∈ l.
Proof.
  intros Hne. induction l as [|z l IH]; simpl; [done|].
  destruct (decide (z = x)) as [->|Hzx].
  - rewrite elem_of_cons. split; [by right|]. by intros [?|?].
  - rewrite !elem_of_cons, IH. done.
Qed.

Lemma elem_of_remove_all_other y xs l :
  y ∉ xs → y ∈ foldl (λ l x, Composite_remove x l) l xs ↔ y ∈ l.
Proof.
  revert l. induction xs as [|x xs IH]; intros l Hnot; simpl; [done|].
  apply not_elem_of_cons in Hnot as [Hne Hnot].
  rewrite IH by done. by apply elem_of_Composite_remove_ne.
Qed.

Lemma Composite_remove_app_fresh x l l' :
  x ∉ l → Composite_remove x (l ++ x :: l') = l ++ l'.
Proof.
  induction l as [|z l IH]; intros Hnot; simpl.
  - by rewrite decide_True.
  - apply not_elem_of_cons in Hnot as [Hne Hnot].
    rewrite decide_False by done. by rewrite IH.
Qed.

Lemma remove_all_app_fresh xs l :
  (∀ x, x ∈ xs → x ∉ l) → foldl (λ l x, Composite_remove x l) (l ++ xs) xs = l.
Proof.
  induction xs as [|x xs IH]; intros Hfresh; simpl.
  - by rewrite app_nil_r.
  - rewrite Composite_remove_app_fresh by (apply Hfresh; by left).
    apply IH. intros y Hy. apply Hfresh. by right.
Qed.

(** X14: with the [dispose()] of the classes, [removeObject] of an object
    that has not been disposed of returns; the object is no longer tracked
    and the other objects still are, its bodies have no owner, every other
    body keeps its owner and its place in the world, and the object's
    [dispose()] (if it has one) and [physics:object-removed] are added to the
    trace, whether or not the object was tracked. The object is then disposed
    of: if it lists a body, removing it again throws, and so does adding
    it. *)
Theorem removeObject_untracks_object_and_bodies (m : Methods) (o : object_ref)
    (obj : GameObject) (e : PhysicsEngine) :
  class_dispose m → lookup_object e o = Some obj → _disposed obj = false →
  ∃ e', removeObject m o e = Some e' ∧
    (∀ o', o' ∈ getObjects e' ↔ o' ≠ o ∧ o' ∈ getObjects e) ∧
    (∀ b, b ∈ bodies obj → getObjectForBody e' b = None) ∧
    (∀ b, b ∉ bodies obj →
       getObjectForBody e' b = getObjectForBody e b ∧
       (b ∈ world_bodies e' ↔ b ∈ world_bodies e)) ∧
    trace e' = trace e ++ dispose_events m o ++ [Emitted "physics:object-removed" [o]] ∧
    (has_dispose m o = true → bodies obj ≠ [] →
       removeObject m o e' = None ∧ addObject o e' = None).
Proof.
  intros Hdispose Hobj Hlive.
  destruct (removeObject_fields m o obj e Hdispose Hobj Hlive)
    as (e' & Hrem & Ho & Hw & _ & Hm & _ & Ht & Hheap).
  exists e'. split; [done|]. unfold getObjects, getObjectForBody.
  split; [|split; [|split; [|split]]]; try done.
  - intros o'. rewrite Ho. apply elem_of_objects_delete.
  - intros b Hb. by rewrite Hm, delete_all_lookup, decide_True.
  - intros b Hb. rewrite Hm, delete_all_lookup, decide_False by done.
    split; [done|]. rewrite Hw. by apply elem_of_remove_all_other.
  - intros Hhas Hne. rewrite Hhas in Hheap.
    assert (lookup_object e' o = Some (GameObject_dispose obj)) as Hobj'.
    { unfold lookup_object in *. by rewrite Hheap, lookup_alter_eq, Hobj. }
    pose proof (disposed_lists_null obj Hne) as Hnull.
    split; [|by apply (addObject_throws o (GameObject_dispose obj))].
    unfold removeObject. by rewrite Hobj', Hnull.
Qed.

Lemma delete_insert_all (o : object_ref) bs (mp : gmap body_id object_ref) :
  (∀ b, b ∈ bs → mp !! b = None) →
  foldl (λ mp b, delete b mp) (foldl (λ mp b, <[b := o]> mp) mp bs) bs = mp.
Proof.
  intros Hfresh. apply map_eq. intros b.
  rewrite delete_all_lookup, insert_all_lookup.
  destruct (decide (b ∈ bs)) as [Hin|]; [|done]. by rewrite Hfresh.
Qed.

Lemma objects_delete_add o l : o ∉ l → objects_delete o (objects_add o l) = l.
Proof.
  intros Hnot. unfold objects_add, objects_delete. rewrite decide_False by done.
  rewrite filter_app. rewrite filter_cons_False by (intros H; by apply H).
  rewrite filter_nil, app_nil_r.
  induction l as [|x l IH]; [done|].
  apply not_elem_of_cons in Hnot as [Hne Hnot].
  rewrite filter_cons_True by congruence. by rewrite IH.
Qed.

(** X15: removing an object just added, which had not been disposed of, was
    not tracked and whose bodies and constraints were not in the world,
    restores the tracked objects, the bodies and constraints of the world,
    the owners of the bodies and the snapshot. *)
Theorem removeObject_undoes_addObject (m : Methods) (o : object_ref) (obj : GameObject)
    (e : PhysicsEngine) :
  class_dispose m → lookup_object e o = Some obj → _disposed obj = false →
  o ∉ getObjects e →
  (∀ b, b ∈ bodies obj → (b ∉ world_bodies e) ∧ getObjectForBody e b = None) →
  (∀ c, c ∈ constraints obj → c ∉ world_constraints e) →
  ∃ e1 e', addObject o e = Some e1 ∧ removeObject m o e1 = Some e' ∧
    getObjects e' = getObjects e ∧
    world_bodies e' = world_bodies e ∧
    world_constraints e' = world_constraints e ∧
    _bodyToObject e' = _bodyToObject e ∧
    _snapshot e' = _snapshot e.
Proof.
  intros Hdispose Hobj Hlive Hnew Hbodies Hcons.
  destruct (addObject_fields o obj e Hobj Hlive)
    as (e1 & Hadd & Ho & Hw & Hc & Hm & Hs & Hmem & _).
  assert (lookup_object e1 o = Some obj) as Hobj'.
  { unfold lookup_object in *. by rewrite Hmem. }
  destruct (removeObject_fields m o obj e1 Hdispose Hobj' Hlive)
    as (e' & Hrem & Ho' & Hw' & Hc' & Hm' & Hs' & _).
  exists e1, e'. split; [done|]. split; [done|]. unfold getObjects, getObjectForBody in *.
  rewrite Ho', Ho, Hw', Hw, Hc', Hc, Hm', Hm, Hs', Hs.
  split; [by apply objects_delete_add|].
  split; [apply remove_all_app_fresh; intros b Hb; by apply Hbodies|].
  split; [apply remove_all_app_fresh; intros c Hc0; by apply Hcons|].
  split; [|done]. apply delete_insert_all. intros b Hb. by apply Hbodies.
Qed.

Lemma removed_objects_app tr1 tr2 :
  removed_objects (tr1 ++ tr2) = removed_objects tr1 ++ removed_objects tr2.
Proof. unfold removed_objects. apply omap_app. Qed.

Lemma disposed_objects_app tr1 tr2 :
  disposed_objects (tr1 ++ tr2) = disposed_objects tr1 ++ disposed_objects tr2.
Proof. unfold disposed_objects. apply omap_app. Qed.

Lemma listed_bodies_same e e' l :
  (∀ o, o ∈ l → lookup_object e' o = lookup_object e o) →
  listed_bodies e' l = listed_bodies e l.
Proof.
  intros Hsame. unfold listed_bodies. f_equal.
  induction l as [|o l IH]; [done|].
  assert (omap (λ o, bodies <$> lookup_object e' o) l
          = omap (λ o, bodies <$> lookup_object e o) l) as IH'.
  { apply IH. intros o' Ho'. apply Hsame. by right. }
  simpl. rewrite (Hsame o) by (by left).
  destruct (lookup_object e o); simpl; [f_equal|]; exact IH'.
Qed.

Lemma filter_not_elem_cons (o : object_ref) (l L : list object_ref) :
  filter (λ x, x ∉ l) (filter (λ x, x ≠ o) L) = filter (λ x, x ∉ o :: l) L.
Proof.
  induction L as [|x L IH]; [done|]. destruct (decide (x = o)) as [->|Hne].
  - rewrite (filter_cons_False (λ x, x ≠ o)) by (intros H; by apply H).
    rewrite (filter_cons_False (λ x, x ∉ o :: l)) by (intros H; apply H; by left). done.
  - rewrite (filter_cons_True (λ x, x ≠ o)) by done.
    destruct (decide (x ∈ l)) as [Hin|Hnot].
    + rewrite (filter_cons_False (λ x, x ∉ l)) by (intros H; by apply H).
      rewrite (filter_cons_False (λ x, x ∉ o :: l)) by (intros H; apply H; by right). done.
    + rewrite (filter_cons_True (λ x, x ∉ l)) by done.
      rewrite (filter_cons_True (λ x, x ∉ o :: l)) by (by apply not_elem_of_cons).
      by rewrite IH.
Qed.

(** The loop of [clear] over a list of distinct objects, none of them
    disposed of. *)
Lemma clear_loop m l :
  class_dispose m →
  ∀ e, NoDup l →
  (∀ o, o ∈ l → ∃ obj, lookup_object e o = Some obj ∧ _disposed obj = false) →
  ∃ e', for_each (removeObject m) l e = Some e' ∧
    _objects e' = filter (λ o, o ∉ l) (_objects e) ∧
    world_bodies e' = foldl (λ l b, Composite_remove b l) (world_bodies e) (listed_bodies e l) ∧
    _bodyToObject e' = foldl (λ mp b, delete b mp) (_bodyToObject e) (listed_bodies e l) ∧
    _snapshot e' = _snapshot e ∧
    (∀ o, o ∉ l → lookup_object e' o = lookup_object e o) ∧
    removed_objects (trace e') = removed_objects (trace e) ++ l ∧
    disposed_objects (trace e')
    = disposed_objects (trace e) ++ filter (λ o, has_dispose m o = true) l.
Proof.
  intros Hdispose. induction l as [|o l IH]; intros e Hnd Hvalid.
  - exists e. simpl. rewrite !app_nil_r. repeat split; try done.
    symmetry. induction (_objects e) as [|x xs IHx]; [done|].
    rewrite filter_cons_True by apply not_elem_of_nil. by f_equal.
  - apply NoDup_cons in Hnd as [Hfresh Hnd].
    destruct (Hvalid o) as (obj & Hobj & Hlive); [by left|].
    destruct (removeObject_fields m o obj e Hdispose Hobj Hlive)
      as (e1 & Hrem & Ho & Hw & _ & Hm & Hs & Ht & _).
    assert (∀ o', o' ≠ o → lookup_object e1 o' = lookup_object e o') as Hsame.
    { intros o' Hne. by apply (removeObject_lookup_other m o obj). }
    destruct (IH e1 Hnd) as (e' & Hloop & Ho' & Hw' & Hm' & Hs' & Hheap' & Hrm' & Hd').
    { intros o' Hin. rewrite Hsame by (intros ->; done). apply Hvalid. by right. }
    exists e'. rewrite for_each_cons, Hrem. simpl. split; [exact Hloop|].
    assert (listed_bodies e (o :: l) = bodies obj ++ listed_bodies e1 l) as Hlisted.
    { rewrite (listed_bodies_same e e1 l).
      - unfold listed_bodies. simpl. by rewrite Hobj.
      - intros o' Hin. apply Hsame. by intros ->. }
    split; [|split; [|split; [|split; [|split; [|split]]]]].
    + rewrite Ho', Ho. apply filter_not_elem_cons.
    + by rewrite Hw', Hw, Hlisted, foldl_app.
    + by rewrite Hm', Hm, Hlisted, foldl_app.
    + by rewrite Hs', Hs.
    + intros o' Ho0. apply not_elem_of_cons in Ho0 as [Hne Hnot].
      rewrite Hheap' by done. by apply Hsame.
    + rewrite Hrm', Ht, !removed_objects_app. simpl.
      assert (removed_objects (dispose_events m o) = []) as ->.
      { unfold dispose_events. by destruct (has_dispose m o). }
      simpl. by rewrite <- app_assoc.
    + rewrite Hd', Ht, !disposed_objects_app. simpl. rewrite app_nil_r.
      unfold dispose_events. destruct (has_dispose m o) eqn:Hd.
      * rewrite filter_cons_True by done. simpl. by rewrite <- app_assoc.
      * rewrite filter_cons_False by (by rewrite Hd). simpl. by rewrite app_nil_r.
Qed.

Lemma filter_not_elem_self (l : list object_ref) : filter (λ x, x ∉ l) l = [].
Proof.
  assert (∀ L, (∀ x, x ∈ L → x ∈ l) → filter (λ x, x ∉ l) L = []) as H.
  { induction L as [|x L IH]; intros Hsub; [done|].
    rewrite filter_cons_False by (intros Hn; apply Hn, Hsub; by left).
    apply IH. intros y Hy. apply Hsub. by right. }
  by apply H.
Qed.

(** X16: with the [dispose()] of the classes, and no tracked object disposed
    of, [clear()] returns and leaves no object tracked; the bodies of the
    objects that were tracked have no owner, every other body (the walls)
    stays in the world, each object is announced with
    [physics:object-removed] and disposed of once, in the order of the set,
    and the snapshot is kept. (The tracked objects are a set: none is there
    twice.) *)
Theorem clear_removes_every_object (m : Methods) (e : PhysicsEngine) :
  class_dispose m → NoDup (getObjects e) → tracked_live e →
  ∃ e', clear m e = Some e' ∧
    getObjects e' = [] ∧
    (∀ b, b ∈ listed_bodies e (getObjects e) → getObjectForBody e' b = None) ∧
    (∀ b, b ∉ listed_bodies e (getObjects e) →
       getObjectForBody e' b = getObjectForBody e b ∧
       (b ∈ world_bodies e' ↔ b ∈ world_bodies e)) ∧
    removed_objects (trace e') = removed_objects (trace e) ++ getObjects e ∧
    disposed_objects (trace e')
    = disposed_objects (trace e) ++ filter (λ o, has_dispose m o = true) (getObjects e) ∧
    _snapshot e' = _snapshot e.
Proof.
  intros Hdispose Hnd Hlive.
  destruct (clear_loop m (_objects e) Hdispose e Hnd Hlive)
    as (e' & Hloop & Ho & Hw & Hm & Hs & _ & Hrm & Hd).
  exists e'. unfold clear, getObjects, getObjectForBody. split; [exact Hloop|].
  split; [by rewrite Ho, filter_not_elem_self|].
  split; [intros b Hb; by rewrite Hm, delete_all_lookup, decide_True|].
  split; [|done].
  intros b Hb. rewrite Hm, delete_all_lookup, decide_False by done.
  split; [done|]. rewrite Hw. by apply elem_of_remove_all_other.
Qed.

Lemma sample_methods_dispose : class_dispose sample_methods.
Proof. by intros o e. Qed.

Lemma ball_methods_dispose : class_dispose ball_methods.
Proof. by intros o e. Qed.

Lemma ball_methods_keep : updates_keep_objects ball_methods.
Proof. intros c e mem Hc. destruct c; simpl in *; try done; by intros [= <-]. Qed.

Lemma two_balls_distinct : NoDup (getObjects two_balls).
Proof.
  vm_compute. apply NoDup_cons. split; [|apply NoDup_singleton].
  intros H. apply list_elem_of_singleton in H. discriminate H.
Qed.

(** The theorem at work: a world with two balls is cleared; body 10 was the
    first ball's, body 12 is a wall. *)
Lemma clear_removes_every_object_witness :
  ∃ e', clear sample_methods two_balls = Some e' ∧ getObjects e' = [] ∧
        getObjectForBody e' 10 = None ∧ (12 ∈ world_bodies e') ∧
        removed_objects (trace e') = [1; 2].
Proof.
  destruct (clear_removes_every_object sample_methods two_balls sample_methods_dispose
              two_balls_distinct two_balls_live)
    as (e' & Hclear & Hobjs & Hlisted & Hother & Hrm & _).
  exists e'. split; [exact Hclear|]. split; [exact Hobjs|]. split; [|split].
  - apply Hlisted. vm_compute. by left.
  - apply (Hother 12).
    + vm_compute. intros H. apply list_elem_of_In in H. simpl in H.
      destruct H as [H|[H|[]]]; discriminate H.
    + vm_compute. by left.
  - rewrite Hrm. reflexivity.
Defined.

(** The theorem at work: the first ball added to a world with walls only. *)
Lemma addObject_tracks_object_and_bodies_witness :
  lookup_object empty_world 1 = Some (object_at Objects.Ball 100 100 [10]) ∧
  ∃ e', addObject 1 empty_world = Some e' ∧
        (1 ∈ getObjects e') ∧ getObjectForBody e' 10 = Some 1 ∧
        (10 ∈ world_bodies e') ∧ getObjectForBody e' 12 = None.
Proof.
  assert (lookup_object empty_world 1 = Some (object_at Objects.Ball 100 100 [10])) as Hobj.
  { by vm_compute. }
  destruct (addObject_tracks_object_and_bodies 1 _ empty_world Hobj) as [_ Hadds].
  destruct (Hadds eq_refl) as (e' & Hadd & Hin & _ & Hbodies & Hother & _).
  split; [exact Hobj|]. exists e'. split; [exact Hadd|]. split; [apply Hin; by left|].
  destruct (Hbodies 10) as [Hmap Hworld]; [by left|].
  split; [exact Hmap|]. split; [exact Hworld|].
  rewrite (Hother 12); [by vm_compute|].
  intros H. apply list_elem_of_singleton in H. discriminate H.
Defined.

(** The theorem at work: the first of two balls is removed; removing it a
    second time throws. *)
Lemma removeObject_untracks_object_and_bodies_witness :
  ∃ e', removeObject sample_methods 1 two_balls = Some e' ∧
        (1 ∉ getObjects e') ∧ (2 ∈ getObjects e') ∧
        getObjectForBody e' 10 = None ∧ getObjectForBody e' 11 = Some 2 ∧
        removeObject sample_methods 1 e' = None.
Proof.
  destruct (removeObject_untracks_object_and_bodies sample_methods 1
              (object_at Objects.Ball 100 100 [10]) two_balls sample_methods_dispose)
    as (e' & Hrem & Hin & Hbodies & Hother & _ & Hagain); [by vm_compute|done|].
  exists e'. split; [exact Hrem|]. split; [|split; [|split; [|split]]].
  - intros H. apply Hin in H as [Hne _]. by apply Hne.
  - apply Hin. split; [discriminate|]. vm_compute. right. by left.
  - apply Hbodies. by left.
  - destruct (Hother 11) as [-> _]; [|by vm_compute].
    intros H. apply list_elem_of_singleton in H. discriminate H.
  - by apply Hagain.
Defined.

(** The theorem at work: the first ball added to the empty world and removed. *)
Lemma removeObject_undoes_addObject_witness :
  ∃ e1 e', addObject 1 empty_world = Some e1 ∧
        removeObject sample_methods 1 e1 = Some e' ∧
        getObjects e' = getObjects empty_world ∧
        world_bodies e' = world_bodies empty_world ∧
        _bodyToObject e' = _bodyToObject empty_world.
Proof.
  destruct (removeObject_undoes_addObject sample_methods 1
              (object_at Objects.Ball 100 100 [10]) empty_world sample_methods_dispose)
    as (e1 & e' & Hadd & Hrem & Ho & Hw & _ & Hm & _).
  - by vm_compute.
  - done.
  - vm_compute. apply not_elem_of_nil.
  - intros b Hb. apply list_elem_of_singleton in Hb. subst b. split; [|by vm_compute].
    vm_compute. intros H. apply list_elem_of_In in H. simpl in H.
    destruct H as [H|[H|[H|[H|[]]]]]; discriminate H.
  - intros c Hc. by apply elem_of_nil in Hc.
  - exists e1, e'. split; [exact Hadd|]. split; [exact Hrem|].
    split; [exact Ho|]. split; [exact Hw|exact Hm].
Defined.

(** *** The tracking invariant *)

Lemma elem_of_Composite_remove x y l : y ∈ Composite_remove x l → y ∈ l.
Proof.
  induction l as [|z l IH]; simpl; [done|].
  destruct (decide (z = x)) as [->|Hne]; [by right|].
  intros [->|H]%elem_of_cons; [by left|]. right. by apply IH.
Qed.

Lemma NoDup_Composite_remove x l : NoDup l → NoDup (Composite_remove x l).
Proof.
  induction l as [|z l IH]; simpl; [done|].
  intros [Hz Hnd]%NoDup_cons. destruct (decide (z = x)) as [->|Hne]; [done|].
  apply NoDup_cons. split; [|by apply IH].
  intros Hin. by apply Hz, (elem_of_Composite_remove x).
Qed.

Lemma not_elem_of_Composite_remove x l : NoDup l → x ∉ Composite_remove x l.
Proof.
  induction l as [|z l IH]; simpl; [intros _; apply not_elem_of_nil|].
  intros [Hz Hnd]%NoDup_cons. destruct (decide (z = x)) as [->|Hne]; [done|].
  apply not_elem_of_cons. split; [done|]. by apply IH.
Qed.

(** Removing each of [xs] from a list without duplicates leaves none of them. *)
Lemma remove_all_spec xs l :
  NoDup l →
  NoDup (foldl (λ l x, Composite_remove x l) l xs) ∧
  ∀ y, y ∈ foldl (λ l x, Composite_remove x l) l xs → y ∈ l ∧ y ∉ xs.
Proof.
  revert l. induction xs as [|x xs IH]; intros l Hnd; simpl.
  - split; [done|]. intros y Hy. split; [done|]. apply not_elem_of_nil.
  - destruct (IH (Composite_remove x l) (NoDup_Composite_remove x l Hnd)) as [Hnd' Hin].
    split; [done|]. intros y Hy. destruct (Hin y Hy) as [Hy1 Hy2].
    split; [by apply (elem_of_Composite_remove x)|].
    apply not_elem_of_cons. split; [|done]. intros ->.
    by apply (not_elem_of_Composite_remove x l Hnd).
Qed.

Lemma well_tracked_owned walls e : well_tracked walls e → ownership_invariant walls e.
Proof.
  intros (_ & Hworld & Hmap & _) b Hb. destruct (Hworld b Hb) as [?|[o Ho]]; [by left|].
  right. unfold owner_tracked. rewrite Ho. apply bool_decide_eq_true.
  by destruct (Hmap b o Ho).
Qed.

Lemma create_well_tracked w h opts mem :
  well_tracked (boundary_walls (next_id mem)) (create w h opts mem).
Proof.
  split; [|split; [|split; [|split]]].
  - apply NoDup_seq.
  - intros b Hb. by left.
  - intros b o Hb. simpl in Hb. by rewrite lookup_empty in Hb.
  - apply NoDup_nil_2.
  - intros o Ho. simpl in Ho. by apply elem_of_nil in Ho.
Qed.

Lemma NoDup_objects_add o l : NoDup l → NoDup (objects_add o l).
Proof.
  intros Hnd. unfold objects_add. destruct (decide (o ∈ l)) as [|Hnot]; [done|].
  apply NoDup_app. split; [done|]. split; [|apply NoDup_singleton].
  intros x Hx Hx'. apply list_elem_of_singleton in Hx'. by subst x.
Qed.

Lemma addObject_well_tracked walls o obj e :
  well_tracked walls e → lookup_object e o = Some obj → _disposed obj = false →
  NoDup (bodies obj) → (∀ b, b ∈ bodies obj → b ∉ world_bodies e) →
  ∃ e', addObject o e = Some e' ∧ well_tracked walls e'.
Proof.
  intros (Hnd & Hworld & Hmap & Hobjs & Htl) Hobj Hlive Hbodies Hfresh.
  destruct (addObject_fields o obj e Hobj Hlive)
    as (e' & Hadd & Ho & Hw & _ & Hm & _ & Hmem & _).
  assert (∀ o', lookup_object e' o' = lookup_object e o') as Hsame.
  { intros o'. unfold lookup_object. by rewrite Hmem. }
  exists e'. split; [exact Hadd|]. split; [|split; [|split; [|split]]].
  - rewrite Hw. apply NoDup_app. split; [done|]. split; [|done].
    intros b Hb Hb'. by apply (Hfresh b).
  - intros b Hb. rewrite Hw in Hb. rewrite Hm, insert_all_lookup.
    destruct (decide (b ∈ bodies obj)) as [Hin|Hnot]; [right; by eexists|].
    apply elem_of_app in Hb as [Hb|Hb]; [|done]. by apply Hworld.
  - intros b o' Hb. rewrite Hm, insert_all_lookup in Hb. rewrite Ho, Hsame.
    destruct (decide (b ∈ bodies obj)) as [Hin|Hnot].
    + injection Hb as <-. split; [apply elem_of_objects_add; by left|]. by exists obj.
    + destruct (Hmap b o' Hb) as [Hin' Hobj']. split; [|done].
      apply elem_of_objects_add. by right.
  - rewrite Ho. by apply NoDup_objects_add.
  - intros o' Ho'. rewrite Ho in Ho'. rewrite Hsame.
    apply elem_of_objects_add in Ho' as [->|Ho']; [by exists obj|by apply Htl].
Qed.

Lemma removeObject_well_tracked m walls o obj e :
  class_dispose m →
  well_tracked walls e → lookup_object e o = Some obj → _disposed obj = false →
  ∃ e', removeObject m o e = Some e' ∧ well_tracked walls e' ∧
        (∀ o', o' ≠ o → lookup_object e' o' = lookup_object e o').
Proof.
  intros Hdispose (Hnd & Hworld & Hmap & Hobjs & Htl) Hobj Hlive.
  destruct (removeObject_fields m o obj e Hdispose Hobj Hlive)
    as (e' & Hrem & Ho & Hw & _ & Hm & _ & _ & _).
  assert (∀ o', o' ≠ o → lookup_object e' o' = lookup_object e o') as Hsame.
  { intros o' Hne. by apply (removeObject_lookup_other m o obj). }
  destruct (remove_all_spec (bodies obj) (world_bodies e) Hnd) as [Hnd' Hin].
  exists e'. split; [done|]. split; [|done].
  split; [by rewrite Hw|]. split; [|split; [|split]].
  - intros b Hb. rewrite Hw in Hb. destruct (Hin b Hb) as [Hb1 Hb2].
    rewrite Hm, delete_all_lookup, decide_False by done. by apply Hworld.
  - intros b o' Hb. rewrite Hm, delete_all_lookup in Hb.
    destruct (decide (b ∈ bodies obj)) as [|Hnot]; [done|].
    destruct (Hmap b o' Hb) as (Hin' & obj' & Hobj' & Hb').
    assert (o' ≠ o) as Hne.
    { intros ->. rewrite Hobj in Hobj'. injection Hobj' as <-. done. }
    rewrite Ho, Hsame by done. split; [|by exists obj'].
    by apply elem_of_objects_delete.
  - rewrite Ho. unfold objects_delete. by apply NoDup_filter.
  - intros o' Ho'. rewrite Ho in Ho'. apply elem_of_objects_delete in Ho' as [Hne Ho'].
    rewrite Hsame by done. by apply Htl.
Qed.

Lemma remove_each_well_tracked m walls l :
  class_dispose m →
  ∀ e, well_tracked walls e → NoDup l →
  (∀ o, o ∈ l → ∃ obj, lookup_object e o = Some obj ∧ _disposed obj = false) →
  ∃ e', for_each (removeObject m) l e = Some e' ∧ well_tracked walls e'.
Proof.
  intros Hdispose. induction l as [|o l IH]; intros e Hwt Hnd Hvalid.
  - by exists e.
  - apply NoDup_cons in Hnd as [Hfresh Hnd].
    destruct (Hvalid o) as (obj & Hobj & Hlive); [by left|].
    destruct (removeObject_well_tracked m walls o obj e Hdispose Hwt Hobj Hlive)
      as (e1 & Hrem & Hwt1 & Hsame).
    destruct (IH e1 Hwt1 Hnd) as (e' & Hloop & Hwt').
    { intros o' Ho'. rewrite Hsame by (intros ->; done). apply Hvalid. by right. }
    exists e'. rewrite for_each_cons, Hrem. by split.
Qed.

Lemma step_well_tracked m s walls dt e e' :
  updates_keep_objects m → well_tracked walls e → step m s dt e = Some e' →
  well_tracked walls e'.
Proof.
  intros Hkeep (Hnd & Hworld & Hmap & Hobjs & Htl) Hstep.
  pose proof (step_same_objects m Hkeep s dt e e' Hstep) as Hso.
  apply step_same_tracking in Hstep as (_ & _ & Hw & _ & Ho & Hm & _).
  unfold well_tracked, tracked_live, lookup_object. unfold same_objects in Hso.
  rewrite Hw, Ho, Hm, Hso. done.
Qed.

(** X30: the engine's bookkeeping is an invariant, with the [dispose()] of
    the classes and update hooks that leave the objects as they are. It holds
    of a new engine: no body is in the world twice, every body of the world
    is a wall or has an owner, the owner of a body is a tracked object that
    lists the body, and no tracked object has been disposed of. It implies
    that every body of the world that is no wall belongs to a tracked object,
    and it is kept by [addObject] of an object not disposed of whose bodies
    are distinct and not in the world, by [removeObject] of an object not
    disposed of, by [clear()] and by [step]; [addObject], [removeObject] and
    [clear()] return in these cases. *)
Theorem tracking_invariant_is_kept (m : Methods) (s : Solver) (w h : Q)
    (opts : EngineOptions) (mem : Memory) :
  class_dispose m → updates_keep_objects m →
  let walls := boundary_walls (next_id mem) in
  well_tracked walls (create w h opts mem) ∧
  ∀ e, well_tracked walls e →
    ownership_invariant walls e ∧
    (∀ o obj, lookup_object e o = Some obj → _disposed obj = false →
              NoDup (bodies obj) → (∀ b, b ∈ bodies obj → b ∉ world_bodies e) →
              ∃ e', addObject o e = Some e' ∧ well_tracked walls e') ∧
    (∀ o obj, lookup_object e o = Some obj → _disposed obj = false →
              ∃ e', removeObject m o e = Some e' ∧ well_tracked walls e') ∧
    (∃ e', clear m e = Some e' ∧ well_tracked walls e') ∧
    (∀ dt e', step m s dt e = Some e' → well_tracked walls e').
Proof.
  intros Hdispose Hkeep walls. split; [apply create_well_tracked|].
  intros e Hwt. split; [by apply well_tracked_owned|].
  split; [intros o obj; by apply addObject_well_tracked|]. split; [|split].
  - intros o obj Hobj Hlive.
    destruct (removeObject_well_tracked m walls o obj e Hdispose Hwt Hobj Hlive)
      as (e' & ? & ? & _).
    by exists e'.
  - pose proof Hwt as (_ & _ & _ & Hobjs & Htl). by apply remove_each_well_tracked.
  - intros dt e'. by apply step_well_tracked.
Qed.

(** The theorem at work: a new world, the first ball added to it, and the
    ball removed again. *)
Lemma tracking_invariant_is_kept_witness :
  well_tracked (boundary_walls (next_id (sample_memory Objects.Ball Objects.Ball))) empty_world ∧
  ∃ e1 e',
    addObject 1 empty_world = Some e1 ∧
    ownership_invariant (boundary_walls (next_id (sample_memory Objects.Ball Objects.Ball))) e1 ∧
    removeObject ball_methods 1 e1 = Some e' ∧
    ownership_invariant (boundary_walls (next_id (sample_memory Objects.Ball Objects.Ball))) e'.
Proof.
  destruct (tracking_invariant_is_kept ball_methods idle_solver 800 600 no_options
              (sample_memory Objects.Ball Objects.Ball)
              ball_methods_dispose ball_methods_keep) as [Hnew Hkept].
  split; [exact Hnew|].
  destruct (Hkept empty_world Hnew) as (_ & Hadd & _).
  destruct (Hadd 1 (object_at Objects.Ball 100 100 [10])) as (e1 & Hadded & Hwt1).
  - by vm_compute.
  - done.
  - apply NoDup_singleton.
  - intros b Hb. apply list_elem_of_singleton in Hb. subst b.
    vm_compute. intros H. apply list_elem_of_In in H. simpl in H.
    destruct H as [H|[H|[H|[H|[]]]]]; discriminate H.
  - destruct (Hkept e1 Hwt1) as (Hown & _ & Hrem & _).
    destruct (Hrem 1 (object_at Objects.Ball 100 100 [10])) as (e' & Hr & Hwt').
    + vm_compute in Hadded. injection Hadded as <-. by vm_compute.
    + done.
    + exists e1, e'. split; [exact Hadded|]. split; [exact Hown|]. split; [exact Hr|].
      by destruct (Hkept e' Hwt') as (Hown' & _).
Defined.

End PhysicsEngineSpec.

(** ** The game loop *)

Module GameLoopSpec.
Import PhysicsEngine GameLoop.

Lemma effects_requestFrame g :
  effects (requestFrame g) = effects g ++ [RequestAnimationFrame (next_handle g)].
Proof. done. Qed.

Lemma cancelFrame_same g :
  physics (cancelFrame g) = physics g ∧ _state (cancelFrame g) = _state g ∧
  _elapsed (cancelFrame g) = _elapsed g ∧ _speed (cancelFrame g) = _speed g ∧
  _maxDt (cancelFrame g) = _maxDt g.
Proof. unfold cancelFrame. by destruct (_rafId g). Qed.










(** *** Frames *)

Lemma Qle_bool_sub_self (t c : Q) : (0 <= c)%Q → Qle_bool (t - t) c = true.
Proof.
  intros Hc. apply Qle_bool_iff. apply Qle_trans with 0%Q; [|done].
  apply Qle_lteq. right. ring.
Qed.

(** The [dt] the code computes, with its cap at 50, is [clamped_dt]. *)
Lemma frame_dt_clamped last t : frame_dt 50 last t = clamped_dt last t.
Proof.
  unfold frame_dt, clamped_dt. destruct (Qeq_bool last 0).
  - rewrite !Qle_bool_sub_self by done. done.
  - destruct (Qle_bool (t - last) 50) eqn:Hcap; [done|].
    assert (Qle_bool (t - last) 0 = false) as ->; [|done].
    destruct (Qle_bool (t - last) 0) eqn:Hneg; [|done].
    apply Qle_bool_iff in Hneg.
    assert (Qle_bool (t - last) 50 = true) as Hcap'; [|congruence].
    apply Qle_bool_iff. by apply (Qle_trans _ 0).
Qed.

(** C7, as amended: [play()] leaves the stored timestamp at 0, and a frame
    processed while running steps the engine by [clamped_dt] of the stored
    timestamp and its own: the nominal 16.67 when the stored timestamp is 0
    (the first frame after [play()], and also a frame that follows a frame of
    timestamp 0) or the raw delta is not positive, otherwise the raw delta
    capped at 50. The elapsed time grows by that [dt], the render callback runs
    once, after the step, and the frame's timestamp is stored. *)
Theorem frame_steps_by_clamped_dt (m : Methods) (s : Solver) (timestamp : Q)
    (g : GameLoop) (p' : PhysicsEngine) :
  (_state g ≠ RUNNING →
     _state (play g) = RUNNING ∧ _lastTimestamp (play g) = 0%Q ∧
     clamped_dt (_lastTimestamp (play g)) timestamp = 16.67%Q) ∧
  (_state g = RUNNING → _maxDt g = 50%Q →
   step m s (clamped_dt (_lastTimestamp g) timestamp) (physics g) = Some p' →
   let dt := clamped_dt (_lastTimestamp g) timestamp in
   ∃ g',
     _frame m s timestamp g = Some g' ∧
     physics g' = p' ∧ _state g' = RUNNING ∧
     _elapsed g' = (_elapsed g + dt)%Q ∧
     _lastTimestamp g' = timestamp ∧
     effects g'
     = effects g
       ++ [Step dt; Render;
           Emit "loop:frame" [("dt", dt); ("elapsed", (_elapsed g + dt)%Q)];
           RequestAnimationFrame (next_handle g)]).
Proof.
  split.
  - intros Hst. unfold play. destruct (_state g); try done.
  - intros Hst Hmax Hstep dt. unfold _frame. rewrite Hst, Hmax, frame_dt_clamped.
    change (physics (set_lastTimestamp timestamp g)) with (physics g).
    rewrite Hstep. fold dt. eexists. split; [reflexivity|].
    split; [done|]. split; [done|]. split; [done|]. split; [done|].
    unfold requestFrame, log. simpl. by rewrite <- !app_assoc.
Qed.

(** The theorem at work: the first frame after [play()] on the sample loop
    arrives at timestamp 1000, the next one 20 ms later. *)
Lemma frame_steps_by_clamped_dt_witness :
  ∃ g1 g2,
    _frame permissive idle_solver 1000 (play sample_loop) = Some g1 ∧
    _frame permissive idle_solver 1020 g1 = Some g2 ∧
    steps_of (effects g1) = [16.67%Q] ∧
    steps_of (effects g2) = [16.67%Q; (1020 - 1000)%Q].
Proof.
  destruct (step permissive idle_solver 16.67 (physics (play sample_loop)))
    as [p1|] eqn:Hstep1; [|by vm_compute in Hstep1].
  destruct (proj2 (frame_steps_by_clamped_dt permissive idle_solver 1000
                     (play sample_loop) p1) eq_refl eq_refl Hstep1)
    as (g1 & Hframe1 & Hp1 & Hst1 & _ & Hlast1 & Hfx1).
  assert (_maxDt g1 = 50%Q) as Hmax1.
  { vm_compute in Hframe1. by injection Hframe1 as <-. }
  assert (clamped_dt (_lastTimestamp g1) 1020 = (1020 - 1000)%Q) as Hdt.
  { rewrite Hlast1. reflexivity. }
  destruct (step permissive idle_solver (1020 - 1000) (physics g1))
    as [p2|] eqn:Hstep2.
  2: { vm_compute in Hframe1. injection Hframe1 as <-. by vm_compute in Hstep2. }
  rewrite <- Hdt in Hstep2.
  destruct (proj2 (frame_steps_by_clamped_dt permissive idle_solver 1020 g1 p2)
              Hst1 Hmax1 Hstep2) as (g2 & Hframe2 & _ & _ & _ & _ & Hfx2).
  exists g1, g2. split; [exact Hframe1|]. split; [exact Hframe2|].
  rewrite Hfx2, Hfx1, Hdt. split; reflexivity.
Defined.

(** C7 as stated fails: the second frame below is not the first frame after
    [play()], and its raw delta, 20 - 0, is positive and under the cap, so its
    [dt] should be 20; the loop takes the stored timestamp 0 for a fresh start
    and steps by the nominal 16.67. *)
Lemma frame_after_timestamp_zero_is_nominal :
  ∃ g1 g2,
    _frame permissive idle_solver 0 (play sample_loop) = Some g1 ∧
    _frame permissive idle_solver 20 g1 = Some g2 ∧
    steps_of (effects g2) = [16.67%Q; 16.67%Q] ∧
    specified_dt false 0 20 = (20 - 0)%Q ∧
    ¬ (16.67 == specified_dt false 0 20)%Q.
Proof.
  eexists. eexists. split; [by vm_compute|]. split; [by vm_compute|].
  split; [by vm_compute|]. split; [by vm_compute|]. by vm_compute.
Qed.

Import PhysicsEngineSpec.

(** *** Invariants of the loop *)

(** A property kept by every command holds after a run of commands. *)
Lemma run_commands_invariant (P : GameLoop → Prop) m s :
  (∀ c g g', P g → run_command m s c g = Some g' → P g') →
  ∀ cs g g', P g → run_commands m s cs g = Some g' → P g'.
Proof.
  intros Hstep. induction cs as [|c cs IH]; intros g g' HP Hrun.
  - by injection Hrun as <-.
  - unfold run_commands in Hrun. simpl in Hrun.
    destruct (run_command m s c g) as [g1|] eqn:Hc; [|done]. simpl in Hrun.
    apply (IH g1); [|done]. by eapply Hstep.
Qed.

(** The [dt] of a frame, with the cap at 50. *)
Lemma frame_dt_in_range last t : in_range (frame_dt 50 last t).
Proof.
  unfold frame_dt, in_range.
  set (raw := (t - (if Qeq_bool last 0 then t else last))%Q).
  destruct (Qle_bool raw 50) eqn:Hcap.
  - destruct (Qle_bool raw 0) eqn:Hneg.
    + split; [reflexivity|]. by apply Qle_bool_iff.
    + split; [|by apply Qle_bool_iff]. apply Qnot_le_lt. intros H.
      apply Qle_bool_iff in H. congruence.
  - change (Qle_bool 50 0) with false. cbv iota. split; [reflexivity|apply Qle_refl].
Qed.

Lemma steps_of_app fx1 fx2 : steps_of (fx1 ++ fx2) = steps_of fx1 ++ steps_of fx2.
Proof. unfold steps_of. apply omap_app. Qed.

Lemma cancelFrame_effects_steps g : steps_of (effects (cancelFrame g)) = steps_of (effects g).
Proof.
  unfold cancelFrame. destruct (_rafId g); [|done].
  unfold log. simpl. rewrite steps_of_app. simpl. by rewrite app_nil_r.
Qed.

Lemma run_command_steps_bounded m s c g g' :
  steps_bounded g → run_command m s c g = Some g' → steps_bounded g'.
Proof.
  intros [Hmax Hall] Hc. destruct c; simpl in Hc.
  - injection Hc as <-. unfold play. destruct (_state g); [|done|].
    + split; [done|]. unfold requestFrame, log. simpl.
      rewrite !steps_of_app. simpl. by rewrite !app_nil_r.
    + split; [done|]. unfold requestFrame, log. simpl.
      rewrite !steps_of_app. simpl. by rewrite !app_nil_r.
  - injection Hc as <-. unfold pause. destruct (_state g); [done| |done].
    destruct (cancelFrame_same (set_state PAUSED g)) as (_ & _ & _ & _ & Hm).
    split; [by rewrite <- Hmax|]. unfold log. simpl.
    rewrite steps_of_app, cancelFrame_effects_steps. simpl. by rewrite app_nil_r.
  - injection Hc as <-. unfold reset.
    destruct (cancelFrame_same g) as (_ & _ & _ & _ & Hm).
    split; [by rewrite <- Hmax|]. unfold log. simpl.
    rewrite !steps_of_app, cancelFrame_effects_steps. simpl. by rewrite !app_nil_r.
  - injection Hc as <-. split; [done|]. unfold cycleSpeed, log. simpl.
    rewrite !steps_of_app. simpl. by rewrite !app_nil_r.
  - unfold _frame in Hc. destruct (_state g); [by injection Hc as <-| |by injection Hc as <-].
    destruct (step m s _ _) as [p|]; [|done]. simpl in Hc. injection Hc as <-.
    split; [done|]. unfold requestFrame, log. simpl.
    rewrite !steps_of_app. simpl. rewrite !app_nil_r.
    apply Forall_app. split; [done|]. apply Forall_singleton.
    rewrite Hmax. apply frame_dt_in_range.
  - injection Hc as <-. unfold dispose.
    destruct (cancelFrame_same g) as (_ & _ & _ & _ & Hm).
    split; [by rewrite <- Hmax|]. simpl. by rewrite cancelFrame_effects_steps.
Qed.

(** X17: whatever commands and frames a new loop receives, every [dt] it
    passes to [physics.step] is greater than 0 and at most 50 ms. *)
Theorem steps_are_positive_and_capped (m : Methods) (s : Solver) (cs : list Command)
    (p : PhysicsEngine) (h : nat) (g : GameLoop) :
  run_commands m s cs (create p h) = Some g →
  ∀ dt, dt ∈ steps_of (effects g) → (0 < dt)%Q ∧ (dt <= 50)%Q.
Proof.
  intros Hrun.
  assert (steps_bounded g) as [_ Hall].
  { apply (run_commands_invariant steps_bounded m s (run_command_steps_bounded m s)
             cs (create p h) g); [|done]. split; [done|]. apply Forall_nil_2. }
  intros dt Hdt. by apply (proj1 (Forall_forall _ _) Hall).
Qed.

Lemma cancelFrame_rafId g : _rafId (cancelFrame g) = None.
Proof. unfold cancelFrame. by destruct (_rafId g) eqn:E. Qed.

Lemma run_command_frame_pending m s c g g' :
  frame_pending g → run_command m s c g = Some g' → frame_pending g'.
Proof.
  unfold frame_pending. intros Hinv Hc. destruct c; simpl in Hc.
  - injection Hc as <-. unfold play. destruct (_state g) eqn:Hst; [|by rewrite Hst|].
    + simpl. split; [by eauto|done].
    + simpl. split; [by eauto|done].
  - injection Hc as <-. unfold pause.
    destruct (_state g) eqn:Hst; [by rewrite Hst| |by rewrite Hst].
    simpl. rewrite cancelFrame_rafId.
    destruct (cancelFrame_same (set_state PAUSED g)) as (_ & -> & _). simpl.
    split; [done|]. by intros [? ?].
  - injection Hc as <-. unfold reset. simpl. rewrite cancelFrame_rafId.
    split; [done|]. by intros [? ?].
  - by injection Hc as <-.
  - unfold _frame in Hc.
    destruct (_state g) eqn:Hst;
      [injection Hc as <-; by rewrite Hst| |injection Hc as <-; by rewrite Hst].
    destruct (step m s _ _) as [p|]; [|done]. simpl in Hc. injection Hc as <-.
    simpl. split; [by eauto|done].
  - injection Hc as <-. unfold dispose. simpl. rewrite cancelFrame_rafId.
    split; [done|]. by intros [? ?].
Qed.

(** X18: after any run of commands and frames on a new loop, an animation
    frame is requested ([_rafId] is not [null]) exactly when the loop is
    running. *)
Theorem frame_scheduled_iff_running (m : Methods) (s : Solver) (cs : list Command)
    (p : PhysicsEngine) (h : nat) (g : GameLoop) :
  run_commands m s cs (create p h) = Some g →
  (_state g = RUNNING ↔ is_Some (_rafId g)).
Proof.
  intros Hrun.
  apply (run_commands_invariant frame_pending m s (run_command_frame_pending m s)
           cs (create p h) g); [|done].
  split; [done|]. by intros [? ?].
Qed.

Lemma elapsed_of_snoc fx x :
  elapsed_of (fx ++ [x])
  = match x with
    | TakeSnapshot | RestoreSnapshot => 0%Q
    | Step dt => (elapsed_of fx + dt)%Q
    | _ => elapsed_of fx
    end.
Proof. unfold elapsed_of. by rewrite foldl_app. Qed.

Lemma cancelFrame_elapsed_of g : elapsed_of (effects (cancelFrame g)) = elapsed_of (effects g).
Proof.
  unfold cancelFrame. destruct (_rafId g); [|done]. unfold log. simpl.
  by rewrite elapsed_of_snoc.
Qed.

Ltac snoc_effects :=
  repeat match goal with
  | |- context [elapsed_of (?l ++ [?x; ?y])] =>
      change (l ++ [x; y]) with (l ++ [x] ++ [y]); rewrite (app_assoc l [x] [y])
  | |- context [elapsed_of (?l ++ [?x])] => rewrite (elapsed_of_snoc l x); cbv iota
  end.

Lemma run_command_elapsed_accounted m s c g g' :
  elapsed_accounted g → run_command m s c g = Some g' → elapsed_accounted g'.
Proof.
  unfold elapsed_accounted. intros Hinv Hc. destruct c; simpl in Hc.
  - injection Hc as <-. unfold play. destruct (_state g); [|done|].
    + unfold requestFrame, log. simpl. by snoc_effects.
    + unfold requestFrame, log. simpl. by snoc_effects.
  - injection Hc as <-. unfold pause. destruct (_state g); [done| |done].
    unfold log. simpl. snoc_effects. rewrite cancelFrame_elapsed_of.
    by destruct (cancelFrame_same (set_state PAUSED g)) as (_ & _ & -> & _).
  - injection Hc as <-. unfold reset, log. simpl. by snoc_effects.
  - injection Hc as <-. unfold cycleSpeed, log. simpl. by snoc_effects.
  - unfold _frame in Hc. destruct (_state g); [by injection Hc as <-| |by injection Hc as <-].
    destruct (step m s _ _) as [p|]; [|done]. simpl in Hc. injection Hc as <-.
    unfold requestFrame, log. simpl. snoc_effects. by rewrite Hinv.
  - injection Hc as <-. unfold dispose. simpl. rewrite cancelFrame_elapsed_of.
    by destruct (cancelFrame_same g) as (_ & _ & -> & _).
Qed.

(** X19: after any run of commands and frames on a new loop, [elapsed] is the
    sum of the [dt] of the steps made since the snapshot was last taken or
    restored. *)
Theorem elapsed_is_time_stepped (m : Methods) (s : Solver) (cs : list Command)
    (p : PhysicsEngine) (h : nat) (g : GameLoop) :
  run_commands m s cs (create p h) = Some g →
  _elapsed g = elapsed_of (effects g).
Proof.
  intros Hrun.
  by apply (run_commands_invariant elapsed_accounted m s (run_command_elapsed_accounted m s)
           cs (create p h) g).
Qed.



(** The theorem at work: the three steps of the sample run are by the nominal
    16.67 ms, by the cap, and by the nominal value again after the pause. *)
Lemma steps_are_positive_and_capped_witness :
  ∃ g, run_commands permissive idle_solver sample_run (create two_balls 1) = Some g ∧
       steps_of (effects g) = [16.67%Q; 50%Q; 16.67%Q] ∧
       ∀ dt, dt ∈ steps_of (effects g) → (0 < dt)%Q ∧ (dt <= 50)%Q.
Proof.
  destruct (run_commands permissive idle_solver sample_run (create two_balls 1))
    as [g|] eqn:Hrun; [|by vm_compute in Hrun].
  exists g. split; [reflexivity|]. split.
  - vm_compute in Hrun. injection Hrun as <-. reflexivity.
  - exact (steps_are_positive_and_capped permissive idle_solver sample_run two_balls 1 g Hrun).
Defined.

(** The theorem at work, on the sample run. *)
Lemma frame_scheduled_iff_running_witness :
  ∃ g, run_commands permissive idle_solver sample_run (create two_balls 1) = Some g ∧
       (_state g = RUNNING ↔ is_Some (_rafId g)).
Proof.
  destruct (run_commands permissive idle_solver sample_run (create two_balls 1))
    as [g|] eqn:Hrun; [|by vm_compute in Hrun].
  exists g. split; [reflexivity|].
  exact (frame_scheduled_iff_running permissive idle_solver sample_run two_balls 1 g Hrun).
Defined.

(** The theorem at work, on the sample run. *)
Lemma elapsed_is_time_stepped_witness :
  ∃ g, run_commands permissive idle_solver sample_run (create two_balls 1) = Some g ∧
       _elapsed g = elapsed_of (effects g).
Proof.
  destruct (run_commands permissive idle_solver sample_run (create two_balls 1))
    as [g|] eqn:Hrun; [|by vm_compute in Hrun].
  exists g. split; [reflexivity|].
  exact (elapsed_is_time_stepped permissive idle_solver sample_run two_balls 1 g Hrun).
Defined.


(** *** [reset()] after a run *)

(** With the setters of exact arithmetic and no tracked object disposed of,
    [reset_with] is [reset]. *)
Lemma reset_with_assignments g :
  tracked_live (physics g) → reset_with assignments g = Some (reset g).
Proof.
  intros Hlive. unfold reset_with, reset. destruct (cancelFrame_same g) as (Hp & _).
  simpl. rewrite Hp, (restoreSnapshot_with_assignments (physics g) Hlive). done.
Qed.





End GameLoopSpec.

(** ** The levels *)

Module LevelManagerSpec.
Import LevelManager.




End LevelManagerSpec.

(** ** The hooks *)

Module HooksSpec.
Import JS PhysicsEngine Hooks.

(** A run of hook calls, one call at a time. *)
Lemma run_hooks_snoc {S A : Type} (f : A → S → S * list Emitted) calls a s :
  run_hooks f (calls ++ [a]) s
  = ((f a (run_hooks f calls s).1).1,
     (run_hooks f calls s).2 ++ (f a (run_hooks f calls s).1).2).
Proof. unfold run_hooks. by rewrite foldl_app. Qed.

(** X23: after any sequence of collisions, a balloon is popped exactly when
    one of the colliding objects was scissors or a candle, and
    [balloon:popped] was emitted once if it is popped and never
    otherwise. *)
Theorem balloon_pops_once (balloon : nat) (others : list Other) :
  let fresh := {| Balloon.id := balloon; Balloon._popped := false |} in
  let result := run_hooks Balloon.onCollision others fresh in
  (Balloon.isPopped result.1 = true ↔ ∃ other, other ∈ others ∧ pops other = true) ∧
  result.2 = (if Balloon.isPopped result.1 then [BalloonPopped balloon] else []).
Proof.
  intros fresh result. unfold result. clear result.
  induction others as [|other others IH] using rev_ind.
  - simpl. split; [|done]. split; [done|]. intros (o & Ho & _). by apply elem_of_nil in Ho.
  - rewrite run_hooks_snoc. destruct IH as [IHp IHe].
    destruct (run_hooks Balloon.onCollision others fresh) as [b ev] eqn:E. simpl in *.
    assert (Balloon.id b = balloon) as Hid.
    { clear IHp IHe. revert b ev E. induction others as [|o os IHo] using rev_ind;
        intros b ev E.
      - by injection E as <- <-.
      - rewrite run_hooks_snoc in E.
        destruct (run_hooks Balloon.onCollision os fresh) as [b0 ev0] eqn:E0.
        specialize (IHo b0 ev0 eq_refl). simpl in E. injection E as <- _.
        unfold Balloon.onCollision, Balloon.pop.
        destruct (Balloon._popped b0); [done|].
        by destruct (_ || _). }
    unfold Balloon.onCollision, Balloon.pop, Balloon.isPopped in *.
    destruct (Balloon._popped b) eqn:Hp.
    + simpl. rewrite Hp. split.
      * split; [|done]. intros _. destruct (proj1 IHp eq_refl) as (o & Ho & Hpo).
        exists o. split; [|done]. apply elem_of_app. by left.
      * by rewrite IHe, app_nil_r.
    + fold (pops other). rewrite IHe. simpl. destruct (pops other) eqn:Ho.
      * simpl. split; [|by rewrite Hid]. split; [|done]. intros _. exists other.
        split; [|done]. apply elem_of_app. right. by left.
      * simpl. rewrite Hp. split; [|done]. split; [done|].
        intros (o & Hin & Hpo). apply elem_of_app in Hin as [Hin|Hin].
        -- assert (false = true); [|done]. apply IHp. by exists o.
        -- apply list_elem_of_singleton in Hin. subst o. congruence.
Qed.

(** X24: after any sequence of collisions, a rope is severed exactly when one
    of the colliding objects was a candle (scissors do not sever it), and
    [rope:severed] was emitted once if it is severed and never otherwise. *)
Theorem rope_is_severed_once_by_a_candle (rope : nat) (others : list Other) :
  let fresh := {| Rope.id := rope; Rope._severed := false |} in
  let result := run_hooks Rope.onCollision others fresh in
  (Rope.isSevered result.1 = true ↔ ∃ other, other ∈ others ∧ other_type other = "candle") ∧
  result.2 = (if Rope.isSevered result.1 then [RopeSevered rope] else []).
Proof.
  intros fresh result. unfold result. clear result.
  induction others as [|other others IH] using rev_ind.
  - simpl. split; [|done]. split; [done|]. intros (o & Ho & _). by apply elem_of_nil in Ho.
  - rewrite run_hooks_snoc. destruct IH as [IHp IHe].
    destruct (run_hooks Rope.onCollision others fresh) as [r ev] eqn:E. simpl in *.
    assert (Rope.id r = rope) as Hid.
    { clear IHp IHe. revert r ev E. induction others as [|o os IHo] using rev_ind;
        intros r ev E.
      - by injection E as <- <-.
      - rewrite run_hooks_snoc in E.
        destruct (run_hooks Rope.onCollision os fresh) as [r0 ev0] eqn:E0.
        specialize (IHo r0 ev0 eq_refl). simpl in E. injection E as <- _.
        unfold Rope.onCollision, Rope.sever.
        destruct (String.eqb _ _), (Rope._severed r0); done. }
    unfold Rope.onCollision, Rope.sever, Rope.isSevered in *.
    destruct (Rope._severed r) eqn:Hp.
    + rewrite andb_false_r. simpl. rewrite Hp. split.
      * split; [|done]. intros _. destruct (proj1 IHp eq_refl) as (o & Ho & Hpo).
        exists o. split; [|done]. apply elem_of_app. by left.
      * by rewrite IHe, app_nil_r.
    + rewrite andb_true_r, IHe. simpl.
      destruct (String.eqb (other_type other) "candle") eqn:Ho.
      * simpl. apply String.eqb_eq in Ho. split; [|by rewrite Hid].
        split; [|done]. intros _. exists other.
        split; [|done]. apply elem_of_app. right. by left.
      * simpl. rewrite Hp. split; [|done]. split; [done|].
        apply String.eqb_neq in Ho.
        intros (o & Hin & Hpo). apply elem_of_app in Hin as [Hin|Hin].
        -- assert (false = true); [|done]. apply IHp. by exists o.
        -- apply list_elem_of_singleton in Hin. subst o. congruence.
Qed.

Lemma imap_snoc {A B} (f : nat → A → B) (l : list A) x :
  imap f (l ++ [x]) = imap f l ++ [f (length l) x].
Proof. rewrite imap_app. simpl. by rewrite Nat.add_0_r. Qed.

(** X25: after any sequence of collisions, a bucket has caught exactly the
    objects that touched its sensor and pass its [catchType] filter, each
    once; it emitted one [bucket:caught] for each of them, in the order in
    which they were caught and with [totalCaught] counting 1, 2, ..., and
    [caughtCount] is the number of these events. *)
Theorem bucket_counts_each_object_once (bucket : nat) (sensor : body_id)
    (catchType : jsval) (contacts : list (Other * Pair)) :
  let fresh := {| Bucket.id := bucket; Bucket._sensor := sensor;
                  Bucket._catchType := catchType; Bucket._caught := [] |} in
  let result := run_hooks (λ c, Bucket.onCollision c.1 c.2) contacts fresh in
  NoDup (Bucket._caught result.1) ∧
  (∀ o, o ∈ Bucket._caught result.1 ↔
        ∃ c, c ∈ contacts ∧ other_id c.1 = o ∧ Bucket.catches fresh c.1 c.2 = true) ∧
  result.2 = imap (λ i o, BucketCaught bucket o (S i)) (Bucket._caught result.1) ∧
  Bucket.caughtCount result.1 = length result.2.
Proof.
  intros fresh result. unfold result. clear result.
  assert (∀ contacts,
    let result := run_hooks (λ c : Other * Pair, Bucket.onCollision c.1 c.2) contacts fresh in
    Bucket.id result.1 = bucket ∧ Bucket._sensor result.1 = sensor ∧
    Bucket._catchType result.1 = catchType ∧
    NoDup (Bucket._caught result.1) ∧
    (∀ o, o ∈ Bucket._caught result.1 ↔
          ∃ c, c ∈ contacts ∧ other_id c.1 = o ∧ Bucket.catches fresh c.1 c.2 = true) ∧
    result.2 = imap (λ i o, BucketCaught bucket o (S i)) (Bucket._caught result.1)) as H.
  { clear contacts. induction contacts as [|[other pair] contacts IH] using rev_ind.
    - simpl. repeat split; try done; try apply NoDup_nil_2.
      + intros Ho. by apply elem_of_nil in Ho.
      + intros (c & Hc & _). by apply elem_of_nil in Hc.
    - cbv zeta in *. rewrite run_hooks_snoc.
      destruct IH as (Hid & Hsens & Hct & Hnd & Hin & Hev).
      destruct (run_hooks _ contacts fresh) as [b ev] eqn:E. simpl in *.
      assert (∀ o, (∃ c, c ∈ contacts ++ [(other, pair)] ∧ other_id c.1 = o ∧
                         Bucket.catches fresh c.1 c.2 = true)
                   ↔ o ∈ Bucket._caught b ∨
                     (other_id other = o ∧ Bucket.catches fresh other pair = true)) as Hsplit.
      { intros o. rewrite Hin. split.
        - intros (c & Hc & Ho & Hcatch). apply elem_of_app in Hc as [Hc|Hc].
          + left. by exists c.
          + apply list_elem_of_singleton in Hc. subst c. by right.
        - intros [(c & Hc & Ho & Hcatch)|[Ho Hcatch]].
          + exists c. split; [|done]. apply elem_of_app. by left.
          + exists (other, pair). split; [|done]. apply elem_of_app. right. by left. }
      unfold Bucket.onCollision. unfold Bucket.catches in Hsplit. simpl in Hsplit.
      rewrite Hsens, Hct.
      destruct (Nat.eqb (bodyA pair) sensor || Nat.eqb (bodyB pair) sensor) eqn:Hs; simpl.
      2: { rewrite app_nil_r. repeat split; try done.
           - intros Ho. apply Hsplit. by left.
           - intros Hex. apply Hsplit in Hex as [?|[_ ?]]; done. }
      destruct (truthy catchType && negb (strict_eq_string catchType (other_type other)))
        eqn:Hf; simpl.
      { rewrite app_nil_r. repeat split; try done.
        - intros Ho. apply Hsplit. by left.
        - intros Hex. apply Hsplit in Hex as [?|[_ ?]]; done. }
      destruct (bool_decide (other_id other ∈ Bucket._caught b)) eqn:Hc; simpl.
      { apply bool_decide_eq_true in Hc. rewrite app_nil_r. repeat split; try done.
        - intros Ho. apply Hsplit. by left.
        - intros Hex. apply Hsplit in Hex as [?|[<- _]]; done. }
      apply bool_decide_eq_false in Hc. repeat split; try done.
      + apply NoDup_app. split; [done|]. split; [|apply NoDup_singleton].
        intros x Hx Hx'. apply list_elem_of_singleton in Hx'. by subst x.
      + intros Ho. apply Hsplit. apply elem_of_app in Ho as [Ho|Ho]; [by left|].
        apply list_elem_of_singleton in Ho. by right.
      + intros Hex. apply Hsplit in Hex as [?|[<- _]]; apply elem_of_app; [by left|].
        right. by left.
      + rewrite imap_snoc, Hev, length_app, Hid. simpl. do 3 f_equal. lia. }
  destruct (H contacts) as (_ & _ & _ & Hnd & Hin & Hev).
  split; [exact Hnd|]. split; [exact Hin|]. split; [exact Hev|].
  unfold Bucket.caughtCount. by rewrite Hev, length_imap.
Qed.

(** X26: [onBeforeUpdate(engine)] of a mouse in the air changes neither its
    direction nor its body. On the ground it calls [Body.setVelocity] on its
    body with the horizontal velocity [speed * direction] and the vertical
    velocity the body has, and, probing ahead of the position the body then
    has, it turns round when there is a wall ahead and ground below the point
    ahead, or neither; with a wall ahead and no ground below (or no wall and
    ground) it turns twice (or not at all) and keeps its direction. *)
Theorem mouse_turns_at_a_wall_or_an_edge (setVelocity : Vector → Body → Body)
    (static_at : Mouse.World) (m : Mouse.Mouse) :
  let m' := Mouse.onBeforeUpdate setVelocity static_at m in
  let pushed :=
    setVelocity
      (mkVector (Mouse._speed m * Mouse._direction m)%Q (vy (velocity (Mouse._body m))))
      (Mouse._body m) in
  let wall := Mouse.wall_ahead static_at (position pushed) (Mouse._direction m) in
  let ground := Mouse.ground_ahead static_at (position pushed) (Mouse._direction m) in
  Mouse._speed m' = Mouse._speed m ∧
  Mouse._isWalking m' = Mouse._isGrounded static_at m ∧
  (Mouse._isGrounded static_at m = false →
     Mouse._direction m' = Mouse._direction m ∧ Mouse._body m' = Mouse._body m ∧
     Mouse._walkPhase m' = Mouse._walkPhase m) ∧
  (Mouse._isGrounded static_at m = true →
     Mouse._body m' = pushed ∧
     Mouse._walkPhase m' = (Mouse._walkPhase m + 0.2)%Q ∧
     (wall = ground → (Mouse._direction m' == - Mouse._direction m)%Q) ∧
     (wall ≠ ground → (Mouse._direction m' == Mouse._direction m)%Q)).
Proof.
  intros m' pushed wall ground. unfold m'. clear m'.
  destruct wall eqn:Hw, ground eqn:Hgr.
  all: unfold wall, Mouse.wall_ahead in Hw; unfold ground, Mouse.ground_ahead in Hgr.
  all: unfold pushed in Hw, Hgr.
  all: unfold Mouse.onBeforeUpdate; cbv zeta.
  all: destruct (Mouse._isGrounded static_at m) eqn:Hg; simpl.
  all: rewrite ?Hw, ?Hgr; simpl.
  all: repeat split; try done; intros; try done; lra.
Qed.

(** [Math.sign(q) * Math.abs(q)] is [q]. *)
Lemma Math_sign_abs q : (Gear.Math_sign q * Qabs q == q)%Q.
Proof.
  unfold Gear.Math_sign. destruct (q ?= 0)%Q eqn:Hq.
  - apply Qeq_alt in Hq. lra.
  - apply Qlt_alt in Hq. rewrite Qabs_neg by lra. lra.
  - apply Qgt_alt in Hq. rewrite Qabs_pos by lra. lra.
Qed.

Lemma Qabs_scaled (c x : Q) : (Qabs (c * Qabs x) == Qabs c * Qabs x)%Q.
Proof. by rewrite Qabs_Qmult, (Qabs_pos (Qabs x)) by apply Qabs_nonneg. Qed.

Lemma Math_sign_cases q :
  ((q < 0)%Q ∧ Gear.Math_sign q = (-1)%Q) ∨ ((q == 0)%Q ∧ Gear.Math_sign q = 0%Q)
  ∨ ((0 < q)%Q ∧ Gear.Math_sign q = 1%Q).
Proof.
  unfold Gear.Math_sign. destruct (q ?= 0)%Q eqn:Hq.
  - apply Qeq_alt in Hq. by right; left.
  - apply Qlt_alt in Hq. by left.
  - apply Qgt_alt in Hq. by right; right.
Qed.

(** X27: the contact of two gears, handled by [onCollision] of the one and then
    of the other. When the second gear is turning, it ends up turning against
    its former direction with the speed of the first, and the first is
    reversed; when the second gear stands still, both stand still
    afterwards. *)
Theorem touching_gears_reverse (a b : Q) :
  let a' := (Gear.contact a b).1 in
  let b' := (Gear.contact a b).2 in
  (¬ (b == 0)%Q → (a' == - a)%Q ∧ (Qabs b' == Qabs a)%Q ∧ (b' * b <= 0)%Q) ∧
  ((b == 0)%Q → (a' == 0)%Q ∧ (b' == 0)%Q).
Proof.
  intros a' b'. unfold a', b', Gear.contact, Gear.onCollision, Gear.Math_abs.
  cbn [fst snd]. clear a' b'.
  pose proof (Math_sign_abs a) as Hsa. pose proof (Qabs_nonneg a) as Hna.
  destruct (Math_sign_cases b) as [[Hb ->]|[[Hb ->]|[Hb ->]]].
  - split; [|intros; exfalso; lra]. intros _.
    assert ((- -1 * Qabs a == Qabs a)%Q) as H1 by lra.
    rewrite H1, (Qabs_pos (Qabs a)) by exact Hna. split; [lra|]. split; [reflexivity|]. nra.
  - split; [done|]. intros _.
    assert ((- 0 * Qabs a == 0)%Q) as H0 by lra. split; [|exact H0].
    rewrite H0. change (Qabs 0) with 0%Q. lra.
  - split; [|intros; exfalso; lra]. intros _.
    assert (Qabs (- 1 * Qabs a) == Qabs a)%Q as H1.
    { rewrite Qabs_scaled. change (Qabs (-1)) with 1%Q. lra. }
    rewrite H1. split; [lra|]. split; [reflexivity|]. nra.
Qed.

Lemma Spring_run_snoc calls c s :
  Spring.run (calls ++ [c]) s
  = ((Spring.call c (Spring.run calls s).1).1,
     (Spring.run calls s).2 ++ [(Spring.call c (Spring.run calls s).1).2]).
Proof. unfold Spring.run. by rewrite foldl_app. Qed.

Lemma updates_snoc calls c :
  Spring.updates (calls ++ [c])
  = (Spring.updates calls + if Spring.is_update c then 1 else 0)%nat.
Proof.
  unfold Spring.updates. rewrite List.filter_app, length_app. simpl.
  by destruct (Spring.is_update c).
Qed.

Lemma launches_snoc flags b :
  Spring.launches (flags ++ [b]) = (Spring.launches flags + if b then 1 else 0)%nat.
Proof.
  unfold Spring.launches. rewrite List.filter_app, length_app. simpl.
  by destruct b.
Qed.

(** The state of a spring after any run: at rest, with at most 30 updates of
    cooldown left, or compressing, [j] updates after the hit. *)
Lemma spring_run_invariant calls p :
  let s := (Spring.run calls (Spring.new p)).1 in
  let L := Spring.launches (Spring.run calls (Spring.new p)).2 in
  let U := Spring.updates calls in
  (Spring._triggered s = false ∧ (Spring._cooldown s ≤ 30)%nat
   ∧ (43 * L ≤ U + Spring._cooldown s)%nat)
  ∨ (Spring._triggered s = true ∧ Spring._cooldown s = 0%nat
     ∧ ∃ j : nat, (j ≤ 12)%nat
         ∧ (Spring._compression s == 1 - 0.08 * inject_Z (Z.of_nat j))%Q
         ∧ (43 * L + j ≤ U)%nat).
Proof.
  cbv zeta. induction calls as [|c calls IH] using rev_ind.
  { left. simpl. repeat split; lia. }
  rewrite Spring_run_snoc, updates_snoc. cbn [fst snd]. rewrite launches_snoc.
  destruct (Spring.run calls (Spring.new p)) as [s flags]. cbn [fst snd] in *.
  set (L := Spring.launches flags) in *. set (U := Spring.updates calls) in *.
  destruct c as [|pr]; cbn [Spring.call Spring.is_update fst snd].
  - unfold Spring.onBeforeUpdate.
    destruct IH as [(Ht & Hc & Hb)|(Ht & Hc & j & Hj & Hq & Hb)]; rewrite Ht.
    + left. cbn [andb fst snd Spring._triggered Spring._cooldown].
      destruct (Spring._cooldown s) as [|n]; cbn [Nat.eqb negb pred]; repeat split; lia.
    + assert (0 <= inject_Z (Z.of_nat j) <= 12)%Q as Hjq.
      { split; [change 0%Q with (inject_Z 0)|change 12%Q with (inject_Z 12)];
          rewrite <- Zle_Qle; lia. }
      assert (Qle_bool (Spring._compression s) 0 = false) as ->.
      { apply not_true_iff_false. rewrite Qle_bool_iff. lra. }
      cbn [andb negb]. rewrite Hc. cbn [Nat.eqb negb].
      destruct (Qle_bool (Spring._compression s - 0.08) 0) eqn:Hle.
      * left. cbn [fst snd Spring._triggered Spring._cooldown].
        apply Qle_bool_iff in Hle.
        assert (j = 12)%nat as ->.
        { destruct (decide (j = 12)%nat) as [|Hne]; [done|]. exfalso.
          assert (inject_Z (Z.of_nat j) <= 11)%Q.
          { change 11%Q with (inject_Z 11). rewrite <- Zle_Qle. lia. }
          lra. }
        repeat split; lia.
      * right. cbn [fst snd Spring._triggered Spring._cooldown Spring._compression].
        apply not_true_iff_false in Hle. rewrite Qle_bool_iff in Hle.
        repeat split; [done..|]. exists (S j).
        assert (inject_Z (Z.of_nat (S j)) == inject_Z (Z.of_nat j) + 1)%Q as HS.
        { rewrite Nat2Z.inj_succ, <- Z.add_1_r, inject_Z_plus. reflexivity. }
        split; [|split; [rewrite HS; lra|lia]].
        destruct (decide (j = 12)%nat) as [->|Hne]; [|lia]. exfalso.
        change (inject_Z (Z.of_nat 12)) with 12%Q in Hq. lra.
  - unfold Spring.onCollision.
    destruct IH as [(Ht & Hc & Hb)|(Ht & Hc & j & Hj & Hq & Hb)].
    + destruct (Spring._cooldown s) as [|n] eqn:Hcd; cbn [Nat.eqb negb].
      * rewrite Ht. cbn [negb]. rewrite andb_true_r.
        destruct (_ || _).
        -- right. cbn [Spring._triggered Spring._cooldown Spring._compression].
           rewrite ?Hcd. repeat split; [done..|]. exists 0%nat.
           split; [lia|]. split; [reflexivity|lia].
        -- left. rewrite ?Ht, ?Hcd. repeat split; lia.
      * left. rewrite ?Ht, ?Hcd. repeat split; lia.
    + rewrite Hc, Ht. cbn [Nat.eqb negb]. rewrite andb_false_r.
      right. rewrite Ht, Hc. repeat split; [done..|]. exists j. repeat split; [done..|lia].
Qed.

(** X28: whatever collisions and updates a new spring receives, it launches
    at most once in 43 updates (13 updates of compression after the hit, 30
    of cooldown after the launch): 43 times the number of launches is at most
    the number of updates plus 30. *)
Theorem spring_launches_at_most_once_in_43_updates (calls : list Spring.Call) (p : body_id) :
  (43 * Spring.launches (Spring.run calls (Spring.new p)).2
   ≤ Spring.updates calls + 30)%nat.
Proof.
  destruct (spring_run_invariant calls p) as [(_ & Hc & Hb)|(_ & _ & j & _ & _ & Hb)]; lia.
Qed.

End HooksSpec.
